(** * The caching and rate-limit-aware fetch layer of the repository dashboard

    A shallow embedding of [app/lib/cache.ts] (class [ApiCache]) and of
    [app/lib/github.ts] (the resource fetchers and [calculateMetrics]),
    together with the properties the specification states about them.

    Conventions of the embedding:
    - a JavaScript [number] holding an integer is a [Z]; clock readings
      ([Date.now()]) are milliseconds in [Z];
    - a JavaScript [Map] is an association list in insertion order, because
      [Array.from(map.entries())] followed by a stable [sort] observes that
      order;
    - asynchronous functions are state-passing functions over a [World]
      (clock, the three caches, the active credential, the log of network
      calls); [throw] is an explicit outcome. *)

From Stdlib Require Import ZArith List String Ascii Bool Lia.
From Stdlib Require Import Permutation Sorted DecimalString.
From Stdlib Require Floats Uint63.
Import ListNotations.
Local Open Scope string_scope.
Local Open Scope list_scope.
Local Open Scope Z_scope.

Infix "+++" := String.append (right associativity, at level 60).

Set Implicit Arguments.

(* ================================================================= *)
(** ** JavaScript built-ins used by the code *)

Module Js.

(** [Array.prototype.sort(cmp)].  ECMAScript requires the sort to be stable,
    so for a consistent comparator the result is the unique stable sorted
    arrangement; insertion from the right computes it. *)
Section Sort.
Variable A : Type.
Variable cmp : A -> A -> Z.

Fixpoint insert (x : A) (l : list A) : list A :=
  match l with
  | [] => [x]
  | y :: l' => if cmp x y <=? 0 then x :: l else y :: insert x l'
  end.

Fixpoint sort (l : list A) : list A :=
  match l with
  | [] => []
  | x :: l' => insert x (sort l')
  end.
End Sort.

(** Order of the keys of a comparator [(a, b) => key(a) - key(b)]. *)
Definition key_le {A} (key : A -> Z) (a b : A) : Prop := key a <= key b.

(** [arr.slice(0, n)] for an integer [n]: a negative [n] counts from the
    end of the array. *)
Definition slice0 {A} (n : Z) (l : list A) : list A :=
  if n <? 0 then firstn (Z.to_nat (Z.of_nat (List.length l) + n)) l
  else firstn (Z.to_nat n) l.

(** [Math.ceil(n * 0.2)] for an integer [n] of magnitude below 2^50 (a
    cache capacity).  The double nearest to 0.2 exceeds 1/5 by
    0.4 * 2^-55, so for a multiple of five the product is rounded back to
    the exact quotient, and otherwise the product stays strictly between
    the same two integers as n/5: the result is the ceiling of n/5. *)
Definition ceil_fifth (n : Z) : Z := - ((- n) / 5).

(** [String.prototype.includes]. *)
Fixpoint includes (pat s : string) : bool :=
  String.prefix pat s ||
  match s with
  | EmptyString => false
  | String _ s' => includes pat s'
  end.

(** [String.prototype.startsWith]. *)
Definition startsWith (pat s : string) : bool := String.prefix pat s.

(** [toLowerCase] on the ASCII range. *)
Definition lower_ascii (c : ascii) : ascii :=
  let n := nat_of_ascii c in
  if (Nat.leb 65 n && Nat.leb n 90)%bool then ascii_of_nat (n + 32) else c.

Fixpoint toLowerCase (s : string) : string :=
  match s with
  | EmptyString => EmptyString
  | String c s' => String (lower_ascii c) (toLowerCase s')
  end.

(** Conversion of an integer to a string, as in a template literal. *)
Definition numberToString (n : Z) : string :=
  NilZero.string_of_int (Z.to_int n).

(** The remainder operator [%] truncates towards zero. *)
Definition rem (a b : Z) : Z := Z.rem a b.

(** [Math.floor(a / b)] for integers, [b > 0]. *)
Definition floorDiv (a b : Z) : Z := a / b.

(** [str.split(sep)] for a separator [sep] of one character: the pieces
    between the occurrences of [sep], empty pieces included. *)
Fixpoint split (sep : ascii) (s : string) : list string :=
  match s with
  | EmptyString => [EmptyString]
  | String c s' =>
      if Ascii.eqb c sep then EmptyString :: split sep s'
      else match split sep s' with
           | [] => [String c EmptyString]
           | piece :: pieces => String c piece :: pieces
           end
  end.

(** [arr.filter(Boolean)] on an array of strings: the empty string is the
    only falsy string. *)
Definition filterBoolean (l : list string) : list string :=
  filter (fun s => negb (String.eqb s "")) l.

(** [arr.slice(start, end)] for integers; [end = None] is an omitted
    [end].  A negative index counts from the end of the array. *)
Definition slice {A} (start : Z) (end_ : option Z) (l : list A) : list A :=
  let len := Z.of_nat (List.length l) in
  let k := if start <? 0 then Z.max (len + start) 0 else Z.min start len in
  let final := match end_ with
               | None => len
               | Some e => if e <? 0 then Z.max (len + e) 0 else Z.min e len
               end in
  firstn (Z.to_nat (final - k)) (skipn (Z.to_nat k) l).

(** The double that holds the integer [z] (exactly, for an integer of
    magnitude up to 2^53). *)
Definition toNumber (z : Z) : PrimFloat.float :=
  if z <? 0 then PrimFloat.opp (PrimFloat.of_uint63 (Uint63.of_Z (- z)))
  else PrimFloat.of_uint63 (Uint63.of_Z z).

End Js.

(* ================================================================= *)
(** ** [cache.ts]: the TTL cache *)

Module Cache.

Record CacheEntry (T : Type) : Type := mkEntry {
  data : T;
  timestamp : Z;
  expiresAt : Z
}.

(** [Required<CacheOptions>]. *)
Record Options : Type := mkOptions {
  ttl : Z;
  maxSize : Z
}.

(** [CacheOptions]: both fields optional. *)
Record CacheOptions : Type := mkCacheOptions {
  opt_ttl : option Z;
  opt_maxSize : option Z
}.

Definition DEFAULT_OPTIONS : Options :=
  {| ttl := 5 * 60 * 1000; maxSize := 100 |}.

(** [{ ...DEFAULT_OPTIONS, ...options }]. *)
Definition merge (o : CacheOptions) : Options :=
  {| ttl := match opt_ttl o with Some t => t | None => ttl DEFAULT_OPTIONS end;
     maxSize := match opt_maxSize o with
                | Some m => m
                | None => maxSize DEFAULT_OPTIONS
                end |}.

Section Map.
Variable V : Type.

(** A [Map<string, V>]: keys in insertion order. *)
Definition JsMap := list (string * V).

Fixpoint Map_get (key : string) (m : JsMap) : option V :=
  match m with
  | [] => None
  | (k, v) :: m' => if String.eqb k key then Some v else Map_get key m'
  end.

(** [map.set]: an existing key keeps its position. *)
Fixpoint Map_set (key : string) (v : V) (m : JsMap) : JsMap :=
  match m with
  | [] => [(key, v)]
  | (k, v0) :: m' =>
      if String.eqb k key then (k, v) :: m' else (k, v0) :: Map_set key v m'
  end.

Fixpoint Map_delete (key : string) (m : JsMap) : JsMap :=
  match m with
  | [] => []
  | (k, v) :: m' =>
      if String.eqb k key then m' else (k, v) :: Map_delete key m'
  end.

Definition Map_size (m : JsMap) : Z := Z.of_nat (List.length m).

Definition keys (m : JsMap) : list string := map fst m.

(** An entry under another key than [key]. *)
Definition other (key : string) (kv : string * V) : bool :=
  negb (String.eqb (fst kv) key).
End Map.

Section ApiCache.
Variable T : Type.

Record ApiCache : Type := mkCache {
  cache : JsMap (CacheEntry T);
  options : Options
}.

Definition with_cache (c : ApiCache) (m : JsMap (CacheEntry T)) : ApiCache :=
  {| cache := m; options := options c |}.

(** [constructor(options = {})] *)
Definition new (o : CacheOptions) : ApiCache :=
  {| cache := []; options := merge o |}.

Definition size (c : ApiCache) : Z := Map_size (cache c).

(** [get(key)], with [now] the value of [Date.now()]. *)
Definition get (key : string) (now : Z) (c : ApiCache)
  : option T * ApiCache :=
  match Map_get key (cache c) with
  | None => (None, c)
  | Some entry =>
      if now >? expiresAt entry
      then (None, with_cache c (Map_delete key (cache c)))
      else (Some (data entry), c)
  end.

(** [has(key)] *)
Definition has (key : string) (now : Z) (c : ApiCache) : bool * ApiCache :=
  match Map_get key (cache c) with
  | None => (false, c)
  | Some entry =>
      if now >? expiresAt entry
      then (false, with_cache c (Map_delete key (cache c)))
      else (true, c)
  end.

(** [delete(key)] *)
Definition delete (key : string) (c : ApiCache) : ApiCache :=
  with_cache c (Map_delete key (cache c)).

(** [clear()] *)
Definition clear (c : ApiCache) : ApiCache := with_cache c [].

(** The two loops of [cleanup]: each deletes keys from the live map. *)
Definition delete_expired (now : Z) (entries m : JsMap (CacheEntry T))
  : JsMap (CacheEntry T) :=
  fold_left
    (fun m ke => if now >? expiresAt (snd ke) then Map_delete (fst ke) m else m)
    entries m.

Definition delete_keys (entries m : JsMap (CacheEntry T))
  : JsMap (CacheEntry T) :=
  fold_left (fun m ke => Map_delete (fst ke) m) entries m.

Definition by_timestamp (a b : string * CacheEntry T) : Z :=
  timestamp (snd a) - timestamp (snd b).

(** [cleanup()], with [now] its own reading of the clock. *)
Definition cleanup (now : Z) (c : ApiCache) : ApiCache :=
  let entries := cache c in
  let m1 := delete_expired now entries (cache c) in
  if Map_size m1 >=? maxSize (options c) then
    let sortedEntries := Js.sort by_timestamp m1 in
    let removeCount := Js.ceil_fifth (maxSize (options c)) in
    with_cache c (delete_keys (Js.slice0 removeCount sortedEntries) m1)
  else with_cache c m1.

(** [ttl || this.options.ttl]: an absent or zero [ttl] is falsy. *)
Definition ttl_or_default (t : option Z) (c : ApiCache) : Z :=
  match t with
  | Some t' => if t' =? 0 then ttl (options c) else t'
  | None => ttl (options c)
  end.

(** [set(key, data, ttl?)]: [now] is the clock read by [set], [now'] the
    clock read by [cleanup] when it runs. *)
Definition set (key : string) (d : T) (t : option Z) (now now' : Z)
           (c : ApiCache) : ApiCache :=
  let expires := now + ttl_or_default t c in
  let c1 := if size c >=? maxSize (options c) then cleanup now' c else c in
  with_cache c1
    (Map_set key {| data := d; timestamp := now; expiresAt := expires |}
             (cache c1)).

(** Sequences of calls on one cache instance. *)
Inductive Op : Type :=
| OpGet (key : string) (now : Z)
| OpSet (key : string) (d : T) (t : option Z) (now now' : Z)
| OpHas (key : string) (now : Z)
| OpDelete (key : string)
| OpClear.

Definition exec (c : ApiCache) (op : Op) : ApiCache :=
  match op with
  | OpGet key now => snd (get key now c)
  | OpSet key d t now now' => set key d t now now' c
  | OpHas key now => snd (has key now c)
  | OpDelete key => delete key c
  | OpClear => clear c
  end.

Definition run (ops : list Op) (c : ApiCache) : ApiCache :=
  fold_left exec ops c.

Definition expired (now : Z) (ke : string * CacheEntry T) : bool :=
  now >? expiresAt (snd ke).


(** The key of [ke] is not the key of a selected element of [entries]. *)
Definition spared (p : string * CacheEntry T -> bool)
           (entries : JsMap (CacheEntry T)) (ke : string * CacheEntry T) : bool :=
  negb (existsb (fun en => p en && String.eqb (fst en) (fst ke)) entries).


End ApiCache.

(** [getStats()], with [now] the value of [Date.now()]: the loop counts the
    entries past their expiry. *)
Record Stats : Type := mkStats {
  totalEntries : Z;
  expiredEntries : Z;
  validEntries : Z
}.

Definition getStats {T} (now : Z) (c : ApiCache T) : Stats :=
  let expiredCount :=
    fold_left
      (fun count ke => if now >? expiresAt (snd ke) then count + 1 else count)
      (cache c) 0 in
  {| totalEntries := size c;
     expiredEntries := expiredCount;
     validEntries := size c - expiredCount |}.

(** The three exported instances. *)
Definition repoCache_options : CacheOptions :=
  {| opt_ttl := Some (10 * 60 * 1000); opt_maxSize := None |}.
Definition contentCache_options : CacheOptions :=
  {| opt_ttl := Some (30 * 60 * 1000); opt_maxSize := None |}.
Definition rateLimitCache_options : CacheOptions :=
  {| opt_ttl := Some (30 * 1000); opt_maxSize := None |}.

End Cache.

(* ================================================================= *)
(** ** [github.ts]: data *)

Module GitHub.

Import Cache.

(** Disabled in the source: the fallback branches are unreachable. *)
Definition ENABLE_UNGH_FALLBACK : bool := false.

(** *** Domain objects returned to the callers *)

Record RepoDetails : Type := mkRepoDetails {
  rd_owner : string;
  rd_name : string;
  rd_fullName : string;
  rd_description : string;
  rd_stars : Z;
  rd_forks : Z;
  rd_watchers : Z;
  rd_primaryLanguage : string;
  rd_license : string;
  rd_updatedAt : string;
  rd_createdAt : string;
  rd_url : string;
  rd_defaultBranch : string;
  rd_size : Z;
  rd_openIssuesCount : Z
}.

Record Contributor : Type := mkContributor {
  login : string;
  id : Z;
  avatarUrl : string;
  c_url : string;
  contributions : Z
}.

Record CommitActivity : Type := mkCommitActivity {
  week : Z;
  total : Z;
  days : list Z
}.

#[warnings="-register-all"] Inductive FileContent : Type := mkFileContent {
  name : string;
  path : string;
  type : string;
  content : option string;
  size : Z;
  url : string;
  children : option (list FileContent)
}.

Record RateLimit : Type := mkRateLimit {
  limit : Z;
  remaining : Z;
  reset : Z;
  rl_isAuthenticated : bool
}.

(** *** Errors

    A thrown value as the handlers inspect it: [error.status],
    [error.message] and [error.headers["x-ratelimit-remaining"]]. *)
Record JsError : Type := mkJsError {
  status : option Z;
  message : option string;
  x_ratelimit_remaining : option string
}.

(** [new Error(msg)] carries neither a status nor headers. *)
Definition Error (msg : string) : JsError :=
  {| status := None; message := Some msg; x_ratelimit_remaining := None |}.

(** [error.status === 403 && (error.message?.includes("rate limit") ||
    error.headers?.["x-ratelimit-remaining"] === "0")] *)
Definition isRateLimitError (error : JsError) : bool :=
  match status error with
  | Some s => s =? 403
  | None => false
  end &&
  (match message error with
   | Some m => Js.includes "rate limit" m
   | None => false
   end ||
   match x_ratelimit_remaining error with
   | Some h => String.eqb h "0"
   | None => false
   end).

Definition status_is (error : JsError) (n : Z) : bool :=
  match status error with
  | Some s => s =? n
  | None => false
  end.

(** *** What the provider sends back *)

Record RateData : Type := mkRateData {
  rate_limit : Z;
  rate_remaining : Z;
  rate_reset : Z
}.

Record RepoData : Type := mkRepoData {
  owner_login : string;
  r_name : string;
  full_name : string;
  r_description : option string;
  stargazers_count : Z;
  forks_count : Z;
  watchers_count : Z;
  language : option string;
  license_name : option string;
  updated_at : string;
  created_at : string;
  r_html_url : string;
  default_branch : string;
  r_size : Z;
  open_issues_count : Z
}.

Record ContributorData : Type := mkContributorData {
  cd_login : option string;
  cd_id : option Z;
  avatar_url : option string;
  cd_html_url : option string;
  cd_contributions : Z
}.

(** One element of the statistics array; [None] fields are fields that are
    not of the expected JavaScript type. *)
Record WeekData : Type := mkWeekData {
  w_week : option Z;
  w_total : option Z;
  w_days : option (list Z)
}.

Inductive StatsPayload : Type :=
| StatsMissing                              (* falsy [response.data] *)
| StatsNotArray                             (* e.g. the [{}] of a 202 *)
| StatsArray (weeks : list (option WeekData)). (* [None]: not an object *)

Record StatsResponse : Type := mkStatsResponse {
  sr_status : Z;
  sr_data : StatsPayload
}.

(** A commit of [listCommits]: [commit.commit?.author?.date], already parsed
    by [new Date(...)] to milliseconds since the epoch. *)
Record CommitData : Type := mkCommitData {
  author_date : option Z
}.

Record ItemData : Type := mkItemData {
  i_name : string;
  i_path : string;
  i_type : string;
  i_size : Z;
  i_html_url : option string
}.

(** A single-file answer; [f_content = None] when the object has no usable
    [content] property. *)
Record FileData : Type := mkFileData {
  f_name : string;
  f_path : string;
  f_type : string;
  f_size : Z;
  f_html_url : option string;
  f_content : option string
}.

Inductive ContentData : Type :=
| ContentArray (items : list ItemData)
| ContentFile (file : FileData).

Record UnghRepo : Type := mkUnghRepo {
  u_name : string;
  u_description : option string;
  u_stars : option Z;
  u_forks : option Z;
  u_watchers : option Z;
  u_language : option string;
  u_updatedAt : option string;
  u_createdAt : option string;
  u_defaultBranch : option string;
  u_size : option Z;
  u_openIssues : option Z
}.

(** A settled promise of a network call: the time it took and whether it
    was rejected or resolved. *)
Record Reply (A : Type) : Type := mkReply {
  elapsed : Z;
  settled : JsError + A
}.

(** Everything outside the module: the provider's endpoints (the answer may
    depend on the number of network calls issued before), the secondary
    provider, and two run-time library functions. *)
Record Env : Type := mkEnv {
  rateLimit_get : nat -> Reply RateData;
  repos_get : string -> string -> nat -> Reply RepoData;
  repos_listContributors :
    string -> string -> nat -> Reply (option (list ContributorData));
  repos_getCommitActivityStats : string -> string -> nat -> Reply StatsResponse;
  repos_listCommits :
    string -> string -> Z -> nat -> Reply (option (list CommitData));
  repos_getContent : string -> string -> string -> nat -> Reply ContentData;
  fetchFromUNGH : string -> nat -> Reply (option UnghRepo);
  base64_toString : string -> string;   (* Buffer.from(s,'base64').toString() *)
  toISOString : Z -> string             (* new Date(ms).toISOString() *)
}.

Inductive Request : Type :=
| RateLimitGet
| ReposGet (owner repo : string)
| ListContributors (owner repo : string)
| GetCommitActivityStats (owner repo : string)
| ListCommits (owner repo : string) (since : Z)
| GetContent (owner repo path : string)
| UnghFetch (endpoint : string).

(** *** The module's state *)

(** The caches hold values of any type. *)
Inductive CacheValue : Type :=
| VRepoDetails (d : RepoDetails)
| VContributors (l : list Contributor)
| VCommitActivity (l : list CommitActivity)
| VFileContents (l : list FileContent)
| VString (s : string)
| VRateLimit (r : RateLimit).

(** [if (cachedData)]: among the stored kinds only the empty string is
    falsy. *)
Definition truthy (v : CacheValue) : bool :=
  match v with
  | VString s => negb (String.eqb s "")
  | _ => true
  end.

Record World : Type := mkWorld {
  clock : Z;                            (* Date.now() *)
  repoCache : ApiCache CacheValue;
  contentCache : ApiCache CacheValue;
  rateLimitCache : ApiCache CacheValue;
  token : option string;                (* credential of [octokit] *)
  calls : list Request                  (* network calls, newest first *)
}.

Inductive CacheId : Type := RepoCache | ContentCache | RateLimitCache.

Definition cache_of (i : CacheId) (w : World) : ApiCache CacheValue :=
  match i with
  | RepoCache => repoCache w
  | ContentCache => contentCache w
  | RateLimitCache => rateLimitCache w
  end.

Definition put_cache (i : CacheId) (c : ApiCache CacheValue) (w : World)
  : World :=
  match i with
  | RepoCache =>
      mkWorld (clock w) c (contentCache w) (rateLimitCache w) (token w) (calls w)
  | ContentCache =>
      mkWorld (clock w) (repoCache w) c (rateLimitCache w) (token w) (calls w)
  | RateLimitCache =>
      mkWorld (clock w) (repoCache w) (contentCache w) c (token w) (calls w)
  end.

Definition set_clock (t : Z) (w : World) : World :=
  mkWorld t (repoCache w) (contentCache w) (rateLimitCache w) (token w) (calls w).

(** The state of the module when it has just been loaded. *)
Definition initial (t : Z) (tok : option string) : World :=
  {| clock := t;
     repoCache := Cache.new _ repoCache_options;
     contentCache := Cache.new _ contentCache_options;
     rateLimitCache := Cache.new _ rateLimitCache_options;
     token := tok;
     calls := [] |}.

(** *** Asynchronous code as state passing *)

Inductive Outcome (A : Type) : Type :=
| Return (a : A)
| Throw (error : JsError)
| Stuck.   (* out of fuel, or a cached value of another kind than the
              caller's type assertion says *)

Arguments Return {A} a.
Arguments Throw {A} error.
Arguments Stuck {A}.

Definition M (A : Type) : Type := World -> Outcome A * World.

Definition ret {A} (a : A) : M A := fun w => (Return a, w).

Definition bind {A B} (m : M A) (k : A -> M B) : M B :=
  fun w =>
    match m w with
    | (Return a, w') => k a w'
    | (Throw e, w') => (Throw e, w')
    | (Stuck, w') => (Stuck, w')
    end.

Definition throw {A} (e : JsError) : M A := fun w => (Throw e, w).

Definition stuck {A} : M A := fun w => (Stuck, w).

(** [try { m } catch (error) { h error }] *)
Definition try_catch {A} (m : M A) (h : JsError -> M A) : M A :=
  fun w =>
    match m w with
    | (Throw e, w') => h e w'
    | r => r
    end.


Declare Scope js_scope.
Delimit Scope js_scope with js.
Notation "x <- m ;; k" := (bind m (fun x => k))
  (at level 61, m at next level, right associativity) : js_scope.
Notation "m ;; k" := (bind m (fun _ => k))
  (at level 61, right associativity) : js_scope.
Local Open Scope js_scope.

(** [for (const x of xs) { result.push(await f x) }] *)
Fixpoint forOf {A B} (f : A -> M B) (xs : list A) : M (list B) :=
  match xs with
  | [] => ret []
  | x :: xs' =>
      y <- f x ;;
      ys <- forOf f xs' ;;
      ret (y :: ys)
  end.

(** [Date.now()] *)
Definition Date_now : M Z := fun w => (Return (clock w), w).

(** [await new Promise(resolve => setTimeout(resolve, ms))] *)
Definition sleep (ms : Z) : M unit :=
  fun w => (Return tt, set_clock (clock w + ms) w).

(** An awaited network call: it is logged, takes its time, and resolves
    or rejects. *)
Definition logged (req : Request) (ms : Z) (w : World) : World :=
  mkWorld (clock w + ms) (repoCache w) (contentCache w) (rateLimitCache w)
          (token w) (req :: calls w).

Definition call {A} (req : Request) (reply : nat -> Reply A) : M A :=
  fun w =>
    let r := reply (List.length (calls w)) in
    let w' := logged req (elapsed r) w in
    match settled r with
    | inl e => (Throw e, w')
    | inr a => (Return a, w')
    end.

(** [cache.get(key)] and [cache.set(key, value, ttl?)] on one of the three
    instances, at the current clock. *)
Definition cache_get (i : CacheId) (key : string) : M (option CacheValue) :=
  fun w =>
    let (r, c') := Cache.get key (clock w) (cache_of i w) in
    (Return r, put_cache i c' w).

Definition cache_set (i : CacheId) (key : string) (v : CacheValue)
           (t : option Z) : M unit :=
  fun w =>
    (Return tt,
     put_cache i (Cache.set key v t (clock w) (clock w) (cache_of i w)) w).

(** [const cachedData = cache.get<T>(key); if (cachedData) ...]: the value
    the caller continues with on a hit.  The type assertion [as T] is
    rendered by [cast]. *)
Definition cached {A} (i : CacheId) (key : string)
           (cast : CacheValue -> option A) : M (option A) :=
  r <- cache_get i key ;;
  match r with
  | None => ret None
  | Some v =>
      if truthy v then
        match cast v with
        | Some a => ret (Some a)
        | None => stuck
        end
      else ret None
  end.

Definition asRepoDetails (v : CacheValue) : option RepoDetails :=
  match v with VRepoDetails d => Some d | _ => None end.
Definition asContributors (v : CacheValue) : option (list Contributor) :=
  match v with VContributors l => Some l | _ => None end.
Definition asCommitActivity (v : CacheValue) : option (list CommitActivity) :=
  match v with VCommitActivity l => Some l | _ => None end.
Definition asFileContents (v : CacheValue) : option (list FileContent) :=
  match v with VFileContents l => Some l | _ => None end.
Definition asString (v : CacheValue) : option string :=
  match v with VString s => Some s | _ => None end.
Definition asRateLimit (v : CacheValue) : option RateLimit :=
  match v with VRateLimit r => Some r | _ => None end.

(** [s || d] on an optional string, [n || d] on an optional number. *)
Definition or_string (s : option string) (d : string) : string :=
  match s with
  | Some s' => if String.eqb s' "" then d else s'
  | None => d
  end.

Definition or_number (n : option Z) (d : Z) : Z :=
  match n with
  | Some n' => if n' =? 0 then d else n'
  | None => d
  end.

(** The [auth] property of the instance that [createOctokit] makes with
    [new Octokit({ auth: credential, ... })]: the library wraps the
    credential in its authentication strategy and exposes the hook of that
    strategy, a function. *)
Inductive AuthHook : Type := authHook (credential : option string).

Definition octokit_auth (w : World) : AuthHook := authHook (token w).

(** [hook.token]: the hook is a function object, and it has no property of
    that name, whatever credential it wraps. *)
Definition hook_token (hook : AuthHook) : option string := None.

(** [isAuthenticated()]: [!!octokit.auth?.token] *)
Definition isAuthenticated : M bool :=
  fun w =>
    (Return match hook_token (octokit_auth w) with
            | Some t => negb (String.eqb t "")
            | None => false
            end, w).

(** The two endings of the rate-limit messages. *)
Definition advice (authenticated : bool) (tokenName : string) : string :=
  if authenticated then "Try again later."
  else "Add a " +++ tokenName +++
       " to increase your rate limit from 60 to 5,000 requests per hour.".

(** [shouldSkipPath] *)
Definition skipPatterns : list string :=
  [ "node_modules"; "dist"; "build"; ".git";
    ".jpg"; ".jpeg"; ".png"; ".gif"; ".ico";
    ".woff"; ".woff2"; ".ttf"; ".eot"; ".otf";
    ".mp4"; ".webm"; ".ogg"; ".mp3"; ".wav";
    ".pdf"; ".zip"; ".tar"; ".gz"; ".rar";
    ".dll"; ".exe"; ".so"; ".dylib";
    "package-lock.json"; "yarn.lock" ].

Definition shouldSkipPath (path : string) : bool :=
  existsb
    (fun pattern => Js.includes (Js.toLowerCase pattern) (Js.toLowerCase path))
    skipPatterns.

(** [formatSize].  Dividing by a power of two is exact in double precision,
    and [toFixed(1)] rounds the exact quotient to the nearest tenth, halves
    upwards: [tenths d] is that number of tenths. *)
Definition tenths (sizeInBytes d : Z) : Z := (sizeInBytes * 20 + d) / (2 * d).

Definition toFixed1 (t : Z) : string :=
  Js.numberToString (t / 10) +++ "." +++ Js.numberToString (t mod 10).

Definition formatSize (sizeInBytes : Z) : string :=
  if sizeInBytes >=? 1024 * 1024 then
    toFixed1 (tenths sizeInBytes (1024 * 1024)) +++ " MB"
  else if sizeInBytes >=? 1024 then
    toFixed1 (tenths sizeInBytes 1024) +++ " KB"
  else Js.numberToString sizeInBytes +++ " bytes".

Section Fetchers.
Variable env : Env.

(** [getRateLimit] *)
Definition getRateLimit : M RateLimit :=
  let cacheKey := "rate-limit" in
  cachedData <- cached RateLimitCache cacheKey asRateLimit ;;
  match cachedData with
  | Some r => ret r
  | None =>
      try_catch
        (rate <- call RateLimitGet (rateLimit_get env) ;;
         auth <- isAuthenticated ;;
         let result :=
           {| limit := rate_limit rate;
              remaining := rate_remaining rate;
              reset := rate_reset rate;
              rl_isAuthenticated := auth |} in
         cache_set RateLimitCache cacheKey (VRateLimit result) None ;;
         ret result)
        (fun _ => throw (Error "Failed to fetch rate limit information"))
  end.

(** [handleApiError] *)
Definition handleApiError {A} (error : JsError) (entityName : string) : M A :=
  if isRateLimitError error then
    auth <- isAuthenticated ;;
    throw (Error ("GitHub API rate limit exceeded. " +++
                  advice auth "GITHUB_TOKEN"))
  else if status_is error 404 then
    throw (Error ("The requested " +++ entityName +++
      " could not be found. The repository may be private or does not exist."))
  else if status_is error 422 then
    throw (Error ("Invalid request when fetching " +++ entityName +++
      ". Please check the repository name and owner."))
  else
    throw (Error ("Unable to fetch " +++ entityName +++
      ". GitHub API may be unavailable or rate limited.")).

Definition normalizeRepo (data : RepoData) : RepoDetails :=
  {| rd_owner := owner_login data;
     rd_name := r_name data;
     rd_fullName := full_name data;
     rd_description := or_string (r_description data) "";
     rd_stars := stargazers_count data;
     rd_forks := forks_count data;
     rd_watchers := watchers_count data;
     rd_primaryLanguage := or_string (language data) "Not specified";
     rd_license := or_string (license_name data) "No license";
     rd_updatedAt := updated_at data;
     rd_createdAt := created_at data;
     rd_url := r_html_url data;
     rd_defaultBranch := default_branch data;
     rd_size := r_size data;
     rd_openIssuesCount := open_issues_count data |}.

Definition unghRepo (owner repo : string) (now : Z) (data : UnghRepo)
  : RepoDetails :=
  {| rd_owner := owner;
     rd_name := u_name data;
     rd_fullName := owner +++ "/" +++ repo;
     rd_description := or_string (u_description data) "";
     rd_stars := or_number (u_stars data) 0;
     rd_forks := or_number (u_forks data) 0;
     rd_watchers := or_number (u_watchers data) 0;
     rd_primaryLanguage := or_string (u_language data) "Not specified";
     rd_license := "License info not available via UNGH.cc";
     rd_updatedAt := or_string (u_updatedAt data) (toISOString env now);
     rd_createdAt := or_string (u_createdAt data) (toISOString env now);
     rd_url := "https://github.com/" +++ owner +++ "/" +++ repo;
     rd_defaultBranch := or_string (u_defaultBranch data) "main";
     rd_size := or_number (u_size data) 0;
     rd_openIssuesCount := or_number (u_openIssues data) 0 |}.

(** [getRepoDetails].  [isApproachingRateLimit] only guards a
    [console.warn]; console output is not part of the state. *)
Definition getRepoDetails (owner repo : string) : M RepoDetails :=
  let cacheKey := "repo-details:" +++ owner +++ "/" +++ repo in
  cachedData <- cached RepoCache cacheKey asRepoDetails ;;
  match cachedData with
  | Some d => ret d
  | None =>
      try_catch
        (rateLimit <- getRateLimit ;;
         data <- call (ReposGet owner repo) (repos_get env owner repo) ;;
         let result := normalizeRepo data in
         cache_set RepoCache cacheKey (VRepoDetails result) None ;;
         ret result)
        (fun error =>
           r <- (if ENABLE_UNGH_FALLBACK && isRateLimitError error then
                   try_catch
                     (unghData <- call (UnghFetch ("/repos/" +++ owner +++ "/" +++ repo))
                                    (fetchFromUNGH env ("/repos/" +++ owner +++ "/" +++ repo)) ;;
                      match unghData with
                      | Some data =>
                          now <- Date_now ;;
                          let result := unghRepo owner repo now data in
                          cache_set RepoCache cacheKey (VRepoDetails result) None ;;
                          ret (Some result)
                      | None => ret None
                      end)
                     (fun _ => ret None)
                 else ret None) ;;
           match r with
           | Some result => ret result
           | None => handleApiError error "repository details"
           end)
  end.

(** [getContributors] *)
Definition normalizeContributor (owner : string) (contributor : ContributorData)
  : Contributor :=
  {| login := or_string (cd_login contributor) "anonymous";
     id := or_number (cd_id contributor) 0;
     avatarUrl := or_string (avatar_url contributor)
                    "https://avatars.githubusercontent.com/u/0";
     c_url := or_string (cd_html_url contributor) ("https://github.com/" +++ owner);
     contributions := cd_contributions contributor |}.

Definition placeholderContributors (owner : string) : list Contributor :=
  [ {| login := owner; id := 0;
       avatarUrl := "https://avatars.githubusercontent.com/" +++ owner;
       c_url := "https://github.com/" +++ owner; contributions := 1 |};
    {| login := "Rate Limited"; id := 1;
       avatarUrl := "https://avatars.githubusercontent.com/u/0";
       c_url := "#"; contributions := 0 |} ].

Definition getContributors (owner repo : string) : M (list Contributor) :=
  let cacheKey := "contributors:" +++ owner +++ "/" +++ repo in
  cachedData <- cached RepoCache cacheKey asContributors ;;
  match cachedData with
  | Some l => ret l
  | None =>
      try_catch
        (data <- call (ListContributors owner repo)
                   (repos_listContributors env owner repo) ;;
         match data with
         | None | Some [] => ret []
         | Some l =>
             let result := map (normalizeContributor owner) l in
             cache_set RepoCache cacheKey (VContributors result) None ;;
             ret result
         end)
        (fun error =>
           r <- (if ENABLE_UNGH_FALLBACK && isRateLimitError error then
                   try_catch
                     (cache_set RepoCache cacheKey
                        (VContributors (placeholderContributors owner))
                        (Some (60 * 1000)) ;;
                      ret (Some (placeholderContributors owner)))
                     (fun _ => ret None)
                 else ret None) ;;
           match r with
           | Some l => ret l
           | None => if isRateLimitError error then throw error else ret []
           end)
  end.

(** *** Commit activity *)

(** The [Map<number, { total, days }>] of the alternative method, in
    insertion order. *)
Record Bucket : Type := mkBucket {
  b_total : Z;
  b_days : list Z
}.

Definition emptyBucket : Bucket :=
  {| b_total := 0; b_days := [0; 0; 0; 0; 0; 0; 0] |}.

Fixpoint weeks_has (k : Z) (m : list (Z * Bucket)) : bool :=
  match m with
  | [] => false
  | (k', _) :: m' => (k' =? k) || weeks_has k m'
  end.

Fixpoint weeks_set (k : Z) (b : Bucket) (m : list (Z * Bucket))
  : list (Z * Bucket) :=
  match m with
  | [] => [(k, b)]
  | (k', b') :: m' =>
      if k' =? k then (k', b) :: m' else (k', b') :: weeks_set k b m'
  end.

(** Mutation of the object stored under [k]. *)
Fixpoint weeks_update (k : Z) (f : Bucket -> Bucket) (m : list (Z * Bucket))
  : list (Z * Bucket) :=
  match m with
  | [] => []
  | (k', b') :: m' =>
      if k' =? k then (k', f b') :: m' else (k', b') :: weeks_update k f m'
  end.

(** [days[d] += 1]; [d] is a day of the week, always inside the array. *)
Fixpoint incr (d : nat) (days : list Z) : list Z :=
  match days, d with
  | [], _ => []
  | x :: days', O => (x + 1) :: days'
  | x :: days', S d' => x :: incr d' days'
  end.

Definition WEEK : Z := 7 * 24 * 60 * 60.

(** [t - (t % (7 * 24 * 60 * 60))] *)
Definition weekStartOf (t : Z) : Z := t - Js.rem t WEEK.

(** [getUTCDay()] of the date [ms]: 1 January 1970 was a Thursday. *)
Definition getUTCDay (ms : Z) : Z := (ms / (24 * 60 * 60 * 1000) + 4) mod 7.

Definition initWeeks (currentTime : Z) : list (Z * Bucket) :=
  fold_left
    (fun m i => weeks_set (weekStartOf (currentTime - i * WEEK)) emptyBucket m)
    [0; 1; 2; 3] [].

Definition countCommit (m : list (Z * Bucket)) (commit : CommitData)
  : list (Z * Bucket) :=
  match author_date commit with
  | None => m
  | Some ms =>
      let commitTime := Js.floorDiv ms 1000 in
      let weekStart := weekStartOf commitTime in
      let dayOfWeek := getUTCDay ms in
      let m1 := if weeks_has weekStart m then m
                else weeks_set weekStart emptyBucket m in
      weeks_update weekStart
        (fun week => {| b_total := b_total week + 1;
                        b_days := incr (Z.to_nat dayOfWeek) (b_days week) |})
        m1
  end.

Definition by_week (a b : CommitActivity) : Z := week a - week b.

(** The bucketing of [getCommitActivityAlternative], from the initialisation
    of the map to the sorted result. *)
Definition bucketCommits (currentTime : Z) (commits : list CommitData)
  : list CommitActivity :=
  let weeklyCommits := fold_left countCommit commits (initWeeks currentTime) in
  Js.sort by_week
    (map (fun kd => {| week := fst kd; total := b_total (snd kd);
                       days := b_days (snd kd) |})
         weeklyCommits).

(** [getCommitActivityAlternative].  [since] is thirty days before now (the
    source computes it in local calendar days). *)
Definition getCommitActivityAlternative (owner repo : string)
  : M (list CommitActivity) :=
  try_catch
    (t0 <- Date_now ;;
     let since := t0 - 30 * 24 * 60 * 60 * 1000 in
     data <- call (ListCommits owner repo since)
               (repos_listCommits env owner repo since) ;;
     match data with
     | None | Some [] => ret []
     | Some commits =>
         now <- Date_now ;;
         ret (bucketCommits (Js.floorDiv now 1000) commits)
     end)
    (fun _ => ret []).

Definition normalizeWeek (w : option WeekData) : CommitActivity :=
  match w with
  | None => {| week := 0; total := 0; days := [0; 0; 0; 0; 0; 0; 0] |}
  | Some w' =>
      {| week := match w_week w' with Some n => n | None => 0 end;
         total := match w_total w' with Some n => n | None => 0 end;
         days := match w_days w' with
                 | Some d => d
                 | None => [0; 0; 0; 0; 0; 0; 0]
                 end |}
  end.

Definition stillComputing : string :=
  "GitHub is still computing commit activity statistics. Please try again in a few moments.".

(** [getCommitActivity].  A [return f(...)] without [await] inside a [try]
    hands the promise over: the recursive call runs outside the handler,
    which is what the [inl] result stands for. *)
Fixpoint getCommitActivity_fuel (fuel : nat) (owner repo : string)
         (retryCount : Z) : M (list CommitActivity) :=
  match fuel with
  | O => stuck
  | S fuel' =>
      let cacheKey := "commit-activity:" +++ owner +++ "/" +++ repo in
      cachedData <- cached RepoCache cacheKey asCommitActivity ;;
      match cachedData with
      | Some l => ret l
      | None =>
          r <- try_catch
                 (response <- call (GetCommitActivityStats owner repo)
                                (repos_getCommitActivityStats env owner repo) ;;
                  if sr_status response =? 202 then
                    if retryCount <? 3 then
                      sleep 3000 ;;
                      ret (inl tt)
                    else throw (Error stillComputing)
                  else
                    match sr_data response with
                    | StatsMissing | StatsArray [] => ret (inr [])
                    | StatsNotArray => ret (inr [])
                    | StatsArray weeks =>
                        let result := map normalizeWeek weeks in
                        cache_set RepoCache cacheKey (VCommitActivity result) None ;;
                        ret (inr result)
                    end)
                 (fun error =>
                    if isRateLimitError error then
                      throw (Error "GitHub API rate limit exceeded. Please try again later.")
                    else if status_is error 404 then
                      throw (Error "Repository not found or you don't have access to it.")
                    else
                      try_catch
                        (l <- getCommitActivityAlternative owner repo ;;
                         ret (inr l))
                        (fun _ => ret (inr []))) ;;
          match r with
          | inl _ => getCommitActivity_fuel fuel' owner repo (retryCount + 1)
          | inr l => ret l
          end
      end
  end.

(** The recursion stops when [retryCount] reaches 3. *)
Definition getCommitActivity (owner repo : string) (retryCount : Z)
  : M (list CommitActivity) :=
  getCommitActivity_fuel (S (Z.to_nat (3 - retryCount))) owner repo retryCount.

(** *** Contents, trees and files *)

(** The [try] block of the rate-limit branch, the same in [getRepoContents],
    [buildFileTree] and [getFileContent]: [true] when the fetcher is to call
    itself again (after the wait), [false] when it goes on to throw. *)
Definition waitForReset (retryCount : Z) : M bool :=
  try_catch
    (rateLimit <- getRateLimit ;;
     now <- Date_now ;;
     let resetTime := reset rateLimit in
     let currentTime := Js.floorDiv now 1000 in
     let timeToReset := Z.max (resetTime - currentTime) 0 in
     if (retryCount <? 2) && (timeToReset <? 30) then
       sleep ((timeToReset + 1) * 1000) ;;
       ret true
     else ret false)
    (fun _ => ret false).

Definition normalizeItem (item : ItemData) : FileContent :=
  {| name := i_name item; path := i_path item; type := i_type item;
     content := None; size := i_size item;
     url := or_string (i_html_url item) "#"; children := None |}.

Definition normalizeFile (fileData : FileData) : FileContent :=
  {| name := f_name fileData; path := f_path fileData; type := f_type fileData;
     content := match f_content fileData with
                | Some c => if String.eqb c "" then None
                            else Some (base64_toString env c)
                | None => None
                end;
     size := f_size fileData;
     url := or_string (f_html_url fileData) "#"; children := None |}.

Definition contentsRateLimited (path : string) (auth : bool) : string :=
  "GitHub API rate limit exceeded when fetching contents for path: " +++ path
  +++ ". " +++ advice auth "GitHub token".

(** [getRepoContents] *)
Fixpoint getRepoContents_fuel (fuel : nat) (owner repo path : string)
         (maxSize retryCount : Z) : M (list FileContent) :=
  match fuel with
  | O => stuck
  | S fuel' =>
      let cacheKey := "repo-contents:" +++ owner +++ "/" +++ repo +++ ":" +++ path in
      cachedData <- cached ContentCache cacheKey asFileContents ;;
      match cachedData with
      | Some l => ret l
      | None =>
          r <- try_catch
                 (if shouldSkipPath path then ret (inr [])
                  else
                    data <- call (GetContent owner repo path)
                              (repos_getContent env owner repo path) ;;
                    let result :=
                      match data with
                      | ContentArray items => map normalizeItem items
                      | ContentFile fileData => [normalizeFile fileData]
                      end in
                    cache_set ContentCache cacheKey (VFileContents result) None ;;
                    ret (inr result))
                 (fun error =>
                    if isRateLimitError error then
                      again <- waitForReset retryCount ;;
                      if again then ret (inl tt)
                      else
                        auth <- isAuthenticated ;;
                        throw (Error (contentsRateLimited path auth))
                    else if status_is error 404 then ret (inr [])
                    else ret (inr [])) ;;
          match r with
          | inl _ =>
              getRepoContents_fuel fuel' owner repo path maxSize (retryCount + 1)
          | inr l => ret l
          end
      end
  end.

(** The recursion stops when [retryCount] reaches 2. *)
Definition getRepoContents (owner repo path : string) (maxSize retryCount : Z)
  : M (list FileContent) :=
  getRepoContents_fuel (S (Z.to_nat (2 - retryCount))) owner repo path
                       maxSize retryCount.

(** *** [buildFileTree] *)

Definition isDir (item : FileContent) : bool := String.eqb (type item) "dir".

(** The elements of [contents] are pairwise distinct objects, so an element
    is identified by its position: arrays of objects carry their indices. *)
Definition indexed {A} (l : list A) : list (nat * A) :=
  combine (seq 0 (List.length l)) l.

(** [contents.filter(item => item.type === "dir").slice(0, 25)] *)
Definition dirsToProcess (contents : list (nat * FileContent))
  : list (nat * FileContent) :=
  Js.slice0 25 (filter (fun item => isDir (snd item)) contents).

(** [dirsToProcess.includes(item)]: identity of objects. *)
Definition includes_item (dirs : list (nat * FileContent))
           (item : nat * FileContent) : bool :=
  existsb (fun d => Nat.eqb (fst d) (fst item)) dirs.

(** [{ ...item, children }] *)
Definition with_children (item : FileContent) (ch : list FileContent)
  : FileContent :=
  {| name := name item; path := path item; type := type item;
     content := content item; size := size item; url := url item;
     children := Some ch |}.

(** The body of the [for] loop for one element, with [descend] the recursive
    call on a directory's path. *)
Definition treeEntry (descend : string -> M (list FileContent))
           (dirs : list (nat * FileContent)) (item : nat * FileContent)
  : M FileContent :=
  if isDir (snd item) && includes_item dirs item then
    try_catch
      (ch <- descend (path (snd item)) ;;
       ret (with_children (snd item) ch))
      (fun _ => ret (with_children (snd item) []))
  else ret (snd item).

Definition treeKey (owner repo path : string) (maxDepth currentDepth : Z)
  : string :=
  "file-tree:" +++ owner +++ "/" +++ repo +++ ":" +++ path +++ ":" +++
  Js.numberToString maxDepth +++ ":" +++ Js.numberToString currentDepth.

Definition treeRateLimited (path : string) (auth : bool) : string :=
  "GitHub API rate limit exceeded when building file tree for path: " +++ path
  +++ ". " +++ advice auth "GitHub token".

Fixpoint buildFileTree_fuel (fuel : nat) (owner repo path : string)
         (maxDepth currentDepth retryCount : Z) : M (list FileContent) :=
  match fuel with
  | O => stuck
  | S fuel' =>
      let cacheKey := treeKey owner repo path maxDepth currentDepth in
      cachedData <- cached ContentCache cacheKey asFileContents ;;
      match cachedData with
      | Some l => ret l
      | None =>
          if currentDepth >=? maxDepth then ret []
          else
            r <- try_catch
                   (contents <- getRepoContents owner repo path 1000 0 ;;
                    let dirs := dirsToProcess (indexed contents) in
                    result <- forOf
                                (treeEntry
                                   (fun p => buildFileTree_fuel fuel' owner repo p
                                               maxDepth (currentDepth + 1) 0)
                                   dirs)
                                (indexed contents) ;;
                    cache_set ContentCache cacheKey (VFileContents result) None ;;
                    ret (inr result))
                   (fun error =>
                      if isRateLimitError error then
                        again <- waitForReset retryCount ;;
                        if again then ret (inl tt)
                        else
                          auth <- isAuthenticated ;;
                          throw (Error (treeRateLimited path auth))
                      else ret (inr [])) ;;
            match r with
            | inl _ =>
                buildFileTree_fuel fuel' owner repo path maxDepth currentDepth
                                   (retryCount + 1)
            | inr l => ret l
            end
      end
  end.

(** Fuel for every level below [maxDepth], with its retries. *)
Definition treeFuel (maxDepth currentDepth retryCount : Z) : nat :=
  S (3 * Z.to_nat (maxDepth - currentDepth) + Z.to_nat (2 - retryCount)).

Definition buildFileTree (owner repo path : string)
           (maxDepth currentDepth retryCount : Z) : M (list FileContent) :=
  buildFileTree_fuel (treeFuel maxDepth currentDepth retryCount) owner repo path
                     maxDepth currentDepth retryCount.

(** *** [getFileContent] *)

Definition fileSizeLimit : Z := 2 * 1024 * 1024.

Definition fileSkipped (path : string) : string :=
  "// File skipped: " +++ path +++ " (likely binary or too large)".

Definition fileTooLarge (path : string) (sz : Z) : string :=
  "// File too large to display: " +++ path +++ " (" +++ formatSize sz +++
  "). Maximum size limit is 2MB.".

Definition fileNotFound (path : string) : string :=
  "// File not found: " +++ path.

Definition fileError (error : JsError) : string :=
  "// Error loading file content: " +++ or_string (message error) "Unknown error".

Definition fileRateLimited (auth : bool) : string :=
  "GitHub API rate limit exceeded when fetching file content. " +++
  advice auth "GitHub token".

Fixpoint getFileContent_fuel (fuel : nat) (owner repo path : string)
         (retryCount : Z) : M string :=
  match fuel with
  | O => stuck
  | S fuel' =>
      let cacheKey := "file-content:" +++ owner +++ "/" +++ repo +++ ":" +++ path in
      cachedData <- cached ContentCache cacheKey asString ;;
      match cachedData with
      | Some s => ret s
      | None =>
          r <- try_catch
                 (if shouldSkipPath path then ret (inr (fileSkipped path))
                  else
                    data <- call (GetContent owner repo path)
                              (repos_getContent env owner repo path) ;;
                    match data with
                    | ContentArray _ =>
                        throw (Error "Path points to a directory, not a file")
                    | ContentFile file =>
                        if f_size file >? fileSizeLimit then
                          ret (inr (fileTooLarge path (f_size file)))
                        else
                          match f_content file with
                          | None => throw (Error "File content not available")
                          | Some c =>
                              let decodedContent := base64_toString env c in
                              cache_set ContentCache cacheKey
                                        (VString decodedContent) None ;;
                              ret (inr decodedContent)
                          end
                    end)
                 (fun error =>
                    if isRateLimitError error then
                      again <- waitForReset retryCount ;;
                      if again then ret (inl tt)
                      else
                        auth <- isAuthenticated ;;
                        throw (Error (fileRateLimited auth))
                    else if status_is error 404 then ret (inr (fileNotFound path))
                    else ret (inr (fileError error))) ;;
          match r with
          | inl _ => getFileContent_fuel fuel' owner repo path (retryCount + 1)
          | inr s => ret s
          end
      end
  end.

Definition getFileContent (owner repo path : string) (retryCount : Z)
  : M string :=
  getFileContent_fuel (S (Z.to_nat (2 - retryCount))) owner repo path retryCount.

End Fetchers.

(** *** [parseRepoUrl]

    [new URL(url)] is the platform's parser: it throws on a string that is
    not a URL, and otherwise yields an object whose [hostname] and
    [pathname] the function reads. *)
Record URL : Type := mkURL {
  hostname : string;
  pathname : string
}.

(** The object [{ owner, repo }] that is returned. *)
Record RepoRef : Type := mkRepoRef {
  ref_owner : string;
  ref_repo : string
}.

Section ParseRepoUrl.
Variable newURL : string -> JsError + URL.

Definition parseRepoUrl (url : string) : JsError + RepoRef :=
  match newURL url with
  | inl e => inl e
  | inr urlObj =>
      if negb (String.eqb (hostname urlObj) "github.com") then
        inl (Error "Not a valid GitHub URL")
      else
        let pathParts := Js.filterBoolean (Js.split "/" (pathname urlObj)) in
        match pathParts with
        | o :: r :: _ => inr {| ref_owner := o; ref_repo := r |}
        | _ => inl (Error "Invalid GitHub repository URL")
        end
  end.

End ParseRepoUrl.

(** *** [calculateMetrics]

    The fields computed in integers; [averageCommitsPerWeek] and
    [activityTrend] are floating-point quotients and are left out. *)
Record Metrics : Type := mkMetrics {
  totalCommits : Z;
  mostActiveContributors : list Contributor
}.

Definition by_contributions (a b : Contributor) : Z :=
  contributions b - contributions a.

Definition calculateMetrics (commitActivity : list CommitActivity)
           (contributors : list Contributor) : Metrics :=
  match commitActivity with
  | [] => {| totalCommits := 0; mostActiveContributors := [] |}
  | _ =>
      {| totalCommits :=
           fold_left (fun sum week => sum + total week) commitActivity 0;
         mostActiveContributors :=
           Js.slice0 5 (Js.sort by_contributions contributors) |}
  end.

(** The rest of [calculateMetrics]: [activityTrend], computed in double
    precision as the source does.  The totals of the weeks are integers
    (numbers of commits). *)
Record ActivityTrend : Type := mkActivityTrend {
  trend : string;
  changePercent : PrimFloat.float
}.

(** [weeks.reduce((sum, week) => sum + week.total, 0)] *)
Definition sumTotals (weeks : list CommitActivity) : PrimFloat.float :=
  fold_left (fun sum week => PrimFloat.add sum (Js.toNumber (total week)))
            weeks (Js.toNumber 0).

(** [let avg = 0; if (weeks.length) avg = weeks.reduce(...) / weeks.length] *)
Definition averageTotal (weeks : list CommitActivity) : PrimFloat.float :=
  match weeks with
  | [] => Js.toNumber 0
  | _ => PrimFloat.div (sumTotals weeks)
                       (Js.toNumber (Z.of_nat (List.length weeks)))
  end.

Definition recentWeeks (commitActivity : list CommitActivity)
  : list CommitActivity := Js.slice (-4) None commitActivity.

Definition olderWeeks (commitActivity : list CommitActivity)
  : list CommitActivity := Js.slice (-8) (Some (-4)) commitActivity.

Definition activityTrend (commitActivity : list CommitActivity)
  : ActivityTrend :=
  match commitActivity with
  | [] => {| trend := "stable"; changePercent := Js.toNumber 0 |}
  | _ =>
      let recentAvg := averageTotal (recentWeeks commitActivity) in
      let olderAvg := averageTotal (olderWeeks commitActivity) in
      if PrimFloat.ltb (Js.toNumber 0) olderAvg then
        let changePercent :=
          PrimFloat.mul
            (PrimFloat.div (PrimFloat.sub recentAvg olderAvg) olderAvg)
            (Js.toNumber 100) in
        {| trend := if PrimFloat.ltb (Js.toNumber 20) changePercent
                    then "increasing"
                    else if PrimFloat.ltb changePercent (Js.toNumber (-20))
                         then "decreasing"
                         else "stable";
           changePercent := changePercent |}
      else {| trend := "stable"; changePercent := Js.toNumber 0 |}
  end.

(** *** Notions used in the statements *)

(** What [cache.get(key)] answers in the state [w], and the state it
    leaves. *)
Definition lookup (i : CacheId) (key : string) (w : World) : option CacheValue :=
  fst (Cache.get key (clock w) (cache_of i w)).

Definition after_lookup (i : CacheId) (key : string) (w : World) : World :=
  put_cache i (snd (Cache.get key (clock w) (cache_of i w))) w.

(** The fetcher finds nothing usable under [key]. *)
Definition misses (i : CacheId) (key : string) (w : World) : Prop :=
  match lookup i key w with
  | None => True
  | Some v => truthy v = false
  end.

(** [isAuthenticated()] in the state [w]. *)
Definition authenticated (w : World) : bool :=
  match hook_token (octokit_auth w) with
  | Some t => negb (String.eqb t "")
  | None => false
  end.

(** The keys of each cache determine the kind of value stored under them:
    this is what the type assertions of the fetchers rely on. *)
Definition kinded (i : CacheId) (key : string) (v : CacheValue) : Prop :=
  match i with
  | RateLimitCache => asRateLimit v <> None
  | ContentCache =>
      if String.prefix "file-content:" key then asString v <> None
      else asFileContents v <> None
  | RepoCache =>
      if String.prefix "repo-details:" key then asRepoDetails v <> None
      else if String.prefix "contributors:" key then asContributors v <> None
      else asCommitActivity v <> None
  end.

Definition cache_ok (i : CacheId) (c : ApiCache CacheValue) : Prop :=
  NoDup (keys (cache c)) /\
  Forall (fun ke => kinded i (fst ke) (data (snd ke))) (cache c).

(** A state of the module: three maps, each with values of the kinds its
    keys announce. *)
Definition World_ok (w : World) : Prop := forall i, cache_ok i (cache_of i w).

(** The message of [handleApiError] for a repository that is not found. *)
Definition repoNotFound : string :=
  "The requested repository details could not be found. The repository may be private or does not exist.".

Definition detailsKey (owner repo : string) : string :=
  "repo-details:" +++ owner +++ "/" +++ repo.

Definition contentsKey (owner repo path : string) : string :=
  "repo-contents:" +++ owner +++ "/" +++ repo +++ ":" +++ path.

Definition fileKey (owner repo path : string) : string :=
  "file-content:" +++ owner +++ "/" +++ repo +++ ":" +++ path.

Definition activityKey (owner repo : string) : string :=
  "commit-activity:" +++ owner +++ "/" +++ repo.

(** The element [item] of the listing is a directory that [buildFileTree]
    descends into. *)
Definition expanded (contents : list FileContent) (item : nat * FileContent)
  : bool :=
  isDir (snd item) && includes_item (dirsToProcess (indexed contents)) item.

(** The entry of the tree built for the element [item] of the listing. *)
Definition tree_entry_of (contents : list FileContent)
           (item : nat * FileContent) (entry : FileContent) : Prop :=
  if expanded contents item
  then exists ch, entry = with_children (snd item) ch
  else entry = snd item.

(** A rate-limit snapshot is cached and has not expired. *)
Definition has_snapshot (w : World) : bool :=
  match lookup RateLimitCache "rate-limit" w with
  | Some v => truthy v
  | None => false
  end.

(** What a consultation of the rate-limit tracker may change from [w] to
    [w']: its own cache, the clock, and at most one call in the log. *)
Definition quota_step (w w' : World) : Prop :=
  World_ok w' /\
  token w' = token w /\
  repoCache w' = repoCache w /\
  contentCache w' = contentCache w /\
  (calls w' = calls w \/ calls w' = RateLimitGet :: calls w).

(** The outcome of [m] in [w] is a result satisfying [Q] or an exception
    satisfying [E]; the model is not stuck. *)
Definition post {A} (m : M A) (w : World)
           (Q : A -> World -> Prop) (E : JsError -> World -> Prop) : Prop :=
  match m w with
  | (Return a, w') => Q a w'
  | (Throw e, w') => E e w'
  | (Stuck, _) => False
  end.

Definition count_if {A} (p : A -> bool) (l : list A) : Z :=
  Z.of_nat (List.length (filter p l)).

(** Number of calls in the log that satisfy [p]. *)
Definition calls_of (p : Request -> bool) (w : World) : Z :=
  count_if p (calls w).

Definition isGetContent (owner repo path : string) (r : Request) : bool :=
  match r with
  | GetContent o r' p => String.eqb o owner && String.eqb r' repo && String.eqb p path
  | _ => false
  end.

Definition isStats (r : Request) : bool :=
  match r with
  | GetCommitActivityStats _ _ => true
  | _ => false
  end.

(** Every reply of an endpoint is a rejection satisfying [p]. *)
Definition always_rejects {A} (reply : nat -> Reply A) (p : JsError -> bool)
  : Prop :=
  forall n, exists e, settled (reply n) = inl e /\ p e = true.

Definition wkeys (m : list (Z * Bucket)) : list Z := map fst m.

(** The commit's timestamp, in seconds, lies in [[k, k + 7 days)]. *)
Definition in_week (k : Z) (commit : CommitData) : bool :=
  match author_date commit with
  | Some ms => (k <=? Js.floorDiv ms 1000) && (Js.floorDiv ms 1000 <? k + WEEK)
  | None => false
  end.

(** The commit is counted in the bucket of key [k]. *)
Definition starts_week (k : Z) (commit : CommitData) : bool :=
  match author_date commit with
  | Some ms => weekStartOf (Js.floorDiv ms 1000) =? k
  | None => false
  end.

Definition sum (l : list Z) : Z := fold_right Z.add 0 l.

(** The buckets [m] count the commits [done]: what the loop of the
    alternative computation maintains. *)
Definition buckets_count (done : list CommitData) (m : list (Z * Bucket))
  : Prop :=
  NoDup (wkeys m) /\
  (forall k b, In (k, b) m ->
     (exists n, k = n * WEEK) /\
     b_total b = count_if (starts_week k) done /\
     List.length (b_days b) = 7%nat /\
     sum (b_days b) = b_total b) /\
  (forall c ms, In c done -> author_date c = Some ms ->
     In (weekStartOf (Js.floorDiv ms 1000)) (wkeys m)).

(** What the specification says of one week of the alternative
    computation over [commits]. *)
Definition week_bucket (commits : list CommitData) (w : CommitActivity) : Prop :=
  (exists n, week w = n * WEEK) /\
  total w = count_if (in_week (week w)) commits /\
  List.length (days w) = 7%nat /\
  sum (days w) = total w.

(** The commit was made on day [d] of the week, in UTC; day 0 is Sunday. *)
Definition on_day (d : nat) (commit : CommitData) : bool :=
  match author_date commit with
  | Some ms => Nat.eqb (Z.to_nat (getUTCDay ms)) d
  | None => false
  end.

(** The slots of the buckets [m] count the commits [done] day by day. *)
Definition days_count (done : list CommitData) (m : list (Z * Bucket))
  : Prop :=
  forall k b, In (k, b) m ->
    forall d, nth d (b_days b) 0
              = count_if (fun c => starts_week k c && on_day d c) done.

(** Slot [d] of the week's [days] is the number of commits of that week
    made on day [d]. *)
Definition week_days (commits : list CommitData) (w : CommitActivity) : Prop :=
  forall d, nth d (days w) 0
            = count_if (fun c => in_week (week w) c && on_day d c) commits.

(** The specification's reading of [mostActiveContributors]: the first [n]
    of the contributors ranked by contribution count, highest first,
    contributors with equal counts in their original order. *)
Definition top_contributors (n : nat) (contributors result : list Contributor)
  : Prop :=
  exists ranked,
    Permutation ranked contributors /\
    StronglySorted (fun a b => contributions a >= contributions b) ranked /\
    (forall k, filter (fun c => contributions c =? k) ranked
               = filter (fun c => contributions c =? k) contributors) /\
    result = firstn n ranked.

Definition contributorsKey (owner repo : string) : string :=
  "contributors:" +++ owner +++ "/" +++ repo.

(** The commit carries an author date, so the alternative computation
    counts it. *)
Definition dated (commit : CommitData) : bool :=
  match author_date commit with
  | Some _ => true
  | None => false
  end.

(** The state [w] at another time and under another credential. *)
Definition later (t : Z) (tok : option string) (w : World) : World :=
  mkWorld t (repoCache w) (contentCache w) (rateLimitCache w) tok (calls w).

(** What [getRepoContents] makes of the provider's answer: the elements of
    a directory, or the one file. *)
Definition listingOf (env : Env) (data : ContentData) : list FileContent :=
  match data with
  | ContentArray items => map normalizeItem items
  | ContentFile fileData => [normalizeFile env fileData]
  end.

(** The entries that [buildFileTree] makes of the elements [items] of the
    listing [contents], one after the other from the state [w] on.  An
    element that is not descended into is returned as it is; a directory
    that is descended into carries as [children] what [buildFileTree]
    returns for its path, one level down, in the state reached so far. *)
Inductive tree_of (env : Env) (owner repo : string) (maxDepth depth : Z)
          (contents : list FileContent)
  : World -> list (nat * FileContent) -> list FileContent -> World -> Prop :=
| tree_of_nil : forall w,
    tree_of env owner repo maxDepth depth contents w [] [] w
| tree_of_leaf : forall w item items result w',
    expanded contents item = false ->
    tree_of env owner repo maxDepth depth contents w items result w' ->
    tree_of env owner repo maxDepth depth contents
            w (item :: items) (snd item :: result) w'
| tree_of_dir : forall w item items ch w1 result w',
    expanded contents item = true ->
    World_ok w ->
    buildFileTree env owner repo (path (snd item)) maxDepth depth 0 w
    = (Return ch, w1) ->
    tree_of env owner repo maxDepth depth contents w1 items result w' ->
    tree_of env owner repo maxDepth depth contents
            w (item :: items) (with_children (snd item) ch :: result) w'.

(** *** Sessions

    A session is a sequence of calls of the exported fetchers, each awaited
    before the next, with time passing in between. *)
Inductive Step : Type :=
| Tick (ms : Z)
| CallRateLimit
| CallRepoDetails (owner repo : string)
| CallContributors (owner repo : string)
| CallCommitActivity (owner repo : string) (retryCount : Z)
| CallRepoContents (owner repo path : string) (maxSize retryCount : Z)
| CallBuildFileTree (owner repo path : string)
                    (maxDepth currentDepth retryCount : Z)
| CallFileContent (owner repo path : string) (retryCount : Z).

(** The state a call leaves when it returns or throws; [None] when the
    model is stuck. *)
Definition settles {A} (r : Outcome A * World) : option World :=
  match r with
  | (Stuck, _) => None
  | (_, w) => Some w
  end.

Definition step (env : Env) (s : Step) (w : World) : option World :=
  match s with
  | Tick ms => Some (set_clock (clock w + ms) w)
  | CallRateLimit => settles (getRateLimit env w)
  | CallRepoDetails owner repo => settles (getRepoDetails env owner repo w)
  | CallContributors owner repo => settles (getContributors env owner repo w)
  | CallCommitActivity owner repo retryCount =>
      settles (getCommitActivity env owner repo retryCount w)
  | CallRepoContents owner repo path maxSize retryCount =>
      settles (getRepoContents env owner repo path maxSize retryCount w)
  | CallBuildFileTree owner repo path maxDepth currentDepth retryCount =>
      settles (buildFileTree env owner repo path maxDepth currentDepth
                             retryCount w)
  | CallFileContent owner repo path retryCount =>
      settles (getFileContent env owner repo path retryCount w)
  end.

Fixpoint session (env : Env) (steps : list Step) (w : World) : option World :=
  match steps with
  | [] => Some w
  | s :: steps' =>
      match step env s w with
      | Some w' => session env steps' w'
      | None => None
      end
  end.

End GitHub.

(* ================================================================= *)
(** ** Concrete states and providers, used to exercise the statements *)

Module Examples.

Import Cache.

(** A cache of capacity two and three insertions at times 10, 20, 30. *)
Definition two_slots : CacheOptions :=
  {| opt_ttl := Some 1000; opt_maxSize := Some 2 |}.


Definition two_sets : list (Op string) :=
  [ OpSet "a" "va" None 10 10;
    OpSet "b" "vb" None 20 20 ].

(** A cache of capacity three. *)
Definition three_slots : CacheOptions :=
  {| opt_ttl := Some 1000; opt_maxSize := Some 3 |}.

Import GitHub.

Definition alice : Contributor :=
  {| login := "alice"; id := 1; avatarUrl := "a"; c_url := "u";
     contributions := 7 |}.

Definition bob : Contributor :=
  {| login := "bob"; id := 2; avatarUrl := "a"; c_url := "u";
     contributions := 9 |}.

Definition carol : Contributor :=
  {| login := "carol"; id := 3; avatarUrl := "a"; c_url := "u";
     contributions := 7 |}.

(** Commits on 1, 2 and 9 January 2024 (milliseconds since the epoch). *)
Definition three_commits : list CommitData :=
  [ {| author_date := Some 1704100000000 |};
    {| author_date := Some 1704190000000 |};
    {| author_date := None |};
    {| author_date := Some 1704800000000 |} ].

(** Replies of the provider. *)
Definition resolved {A} (a : A) : Reply A := {| elapsed := 120; settled := inr a |}.
Definition rejected {A} (e : JsError) : Reply A :=
  {| elapsed := 120; settled := inl e |}.

Definition notFound : JsError :=
  {| status := Some 404; message := Some "Not Found";
     x_ratelimit_remaining := None |}.

Definition rateLimited : JsError :=
  {| status := Some 403; message := Some "API rate limit exceeded for 192.0.2.1";
     x_ratelimit_remaining := Some "0" |}.

Definition serverError : JsError :=
  {| status := Some 500; message := Some "Internal Server Error";
     x_ratelimit_remaining := None |}.

(** A provider that rejects every call with [e]. *)
Definition rejecting (e : JsError) : Env :=
  {| rateLimit_get := fun _ => rejected e;
     repos_get := fun _ _ _ => rejected e;
     repos_listContributors := fun _ _ _ => rejected e;
     repos_getCommitActivityStats := fun _ _ _ => rejected e;
     repos_listCommits := fun _ _ _ _ => rejected e;
     repos_getContent := fun _ _ _ _ => rejected e;
     fetchFromUNGH := fun _ _ => rejected e;
     base64_toString := fun s => s;
     toISOString := fun _ => "1970-01-01T00:00:00.000Z" |}.

(** A provider whose repositories are not found, while the rate-limit
    endpoint answers. *)
Definition missing_repo : Env :=
  {| rateLimit_get := fun _ => resolved {| rate_limit := 60; rate_remaining := 41;
                                           rate_reset := 1705003600 |};
     repos_get := fun _ _ _ => rejected notFound;
     repos_listContributors := fun _ _ _ => rejected notFound;
     repos_getCommitActivityStats := fun _ _ _ => rejected notFound;
     repos_listCommits := fun _ _ _ _ => rejected notFound;
     repos_getContent := fun _ _ _ _ => rejected notFound;
     fetchFromUNGH := fun _ _ => rejected notFound;
     base64_toString := fun s => s;
     toISOString := fun _ => "1970-01-01T00:00:00.000Z" |}.

Definition demo_repo : RepoData :=
  {| owner_login := "octo"; r_name := "demo"; full_name := "octo/demo";
     r_description := None; stargazers_count := 12; forks_count := 3;
     watchers_count := 12; language := Some "TypeScript"; license_name := None;
     updated_at := "2024-01-10T00:00:00Z"; created_at := "2023-01-10T00:00:00Z";
     r_html_url := "https://github.com/octo/demo"; default_branch := "main";
     r_size := 420; open_issues_count := 1 |}.

(** A provider that answers the rate-limit and repository requests. *)
Definition serving : Env :=
  {| rateLimit_get := fun _ => resolved {| rate_limit := 60; rate_remaining := 41;
                                           rate_reset := 1705003600 |};
     repos_get := fun _ _ _ => resolved demo_repo;
     repos_listContributors := fun _ _ _ => rejected serverError;
     repos_getCommitActivityStats := fun _ _ _ => rejected serverError;
     repos_listCommits := fun _ _ _ _ => rejected serverError;
     repos_getContent := fun _ _ _ _ => rejected serverError;
     fetchFromUNGH := fun _ _ => rejected serverError;
     base64_toString := fun s => s;
     toISOString := fun _ => "1970-01-01T00:00:00.000Z" |}.

(** A provider out of quota that reports a reset five seconds after
    [fresh]. *)
Definition out_of_quota : Env :=
  {| rateLimit_get := fun _ => resolved {| rate_limit := 60; rate_remaining := 0;
                                           rate_reset := 1705000005 |};
     repos_get := fun _ _ _ => rejected rateLimited;
     repos_listContributors := fun _ _ _ => rejected rateLimited;
     repos_getCommitActivityStats := fun _ _ _ => rejected rateLimited;
     repos_listCommits := fun _ _ _ _ => rejected rateLimited;
     repos_getContent := fun _ _ _ _ => rejected rateLimited;
     fetchFromUNGH := fun _ _ => rejected rateLimited;
     base64_toString := fun s => s;
     toISOString := fun _ => "1970-01-01T00:00:00.000Z" |}.


(** A provider that keeps answering 202 to the statistics request and
    lists no commit. *)
Definition still_computing : Env :=
  {| rateLimit_get := fun _ => rejected serverError;
     repos_get := fun _ _ _ => rejected serverError;
     repos_listContributors := fun _ _ _ => rejected serverError;
     repos_getCommitActivityStats :=
       fun _ _ _ => resolved {| sr_status := 202; sr_data := StatsNotArray |};
     repos_listCommits := fun _ _ _ _ => resolved (Some []);
     repos_getContent := fun _ _ _ _ => rejected serverError;
     fetchFromUNGH := fun _ _ => rejected serverError;
     base64_toString := fun s => s;
     toISOString := fun _ => "1970-01-01T00:00:00.000Z" |}.

(** A repository with a directory [src] and a file at its root, and one
    file in [src]. *)
Definition root_items : list ItemData :=
  [ {| i_name := "src"; i_path := "src"; i_type := "dir"; i_size := 0;
       i_html_url := None |};
    {| i_name := "README.md"; i_path := "README.md"; i_type := "file";
       i_size := 120; i_html_url := None |} ].

Definition src_items : list ItemData :=
  [ {| i_name := "app.ts"; i_path := "src/app.ts"; i_type := "file";
       i_size := 900; i_html_url := None |} ].

Definition listing : Env :=
  {| rateLimit_get := fun _ => rejected serverError;
     repos_get := fun _ _ _ => rejected serverError;
     repos_listContributors := fun _ _ _ => rejected serverError;
     repos_getCommitActivityStats := fun _ _ _ => rejected serverError;
     repos_listCommits := fun _ _ _ _ => rejected serverError;
     repos_getContent :=
       fun _ _ path _ =>
         if String.eqb path "" then resolved (ContentArray root_items)
         else if String.eqb path "src" then resolved (ContentArray src_items)
         else rejected notFound;
     fetchFromUNGH := fun _ _ => rejected serverError;
     base64_toString := fun s => s;
     toISOString := fun _ => "1970-01-01T00:00:00.000Z" |}.

(** The same repository with a second directory, [docs], whose listing the
    server fails to produce. *)
Definition items_with_docs : list ItemData :=
  [ {| i_name := "docs"; i_path := "docs"; i_type := "dir"; i_size := 0;
       i_html_url := None |};
    {| i_name := "src"; i_path := "src"; i_type := "dir"; i_size := 0;
       i_html_url := None |};
    {| i_name := "README.md"; i_path := "README.md"; i_type := "file";
       i_size := 120; i_html_url := None |} ].

Definition listing_without_docs : Env :=
  {| rateLimit_get := fun _ => rejected serverError;
     repos_get := fun _ _ _ => rejected serverError;
     repos_listContributors := fun _ _ _ => rejected serverError;
     repos_getCommitActivityStats := fun _ _ _ => rejected serverError;
     repos_listCommits := fun _ _ _ _ => rejected serverError;
     repos_getContent :=
       fun _ _ path _ =>
         if String.eqb path "" then resolved (ContentArray items_with_docs)
         else if String.eqb path "src" then resolved (ContentArray src_items)
         else rejected serverError;
     fetchFromUNGH := fun _ _ => rejected serverError;
     base64_toString := fun s => s;
     toISOString := fun _ => "1970-01-01T00:00:00.000Z" |}.

(** A provider whose server errs, except that it lists [three_commits]. *)
Definition listing_commits : Env :=
  {| rateLimit_get := fun _ => rejected serverError;
     repos_get := fun _ _ _ => rejected serverError;
     repos_listContributors := fun _ _ _ => rejected serverError;
     repos_getCommitActivityStats := fun _ _ _ => rejected serverError;
     repos_listCommits := fun _ _ _ _ => resolved (Some three_commits);
     repos_getContent := fun _ _ _ _ => rejected serverError;
     fetchFromUNGH := fun _ _ => rejected serverError;
     base64_toString := fun s => s;
     toISOString := fun _ => "1970-01-01T00:00:00.000Z" |}.

(** The module just loaded, on 11 January 2024, without a credential. *)
Definition fresh : World := initial 1705000000000 None.

(** The module just loaded at the same time with [GITHUB_TOKEN] set. *)
Definition with_credential : World :=
  initial 1705000000000 (Some "ghp_example").

Definition one_week : list CommitActivity :=
  [ {| week := 0; total := 3; days := [1; 0; 0; 2; 0; 0; 0] |} ].

(** The platform's URL parser on one address of a repository page. *)
Definition tree_page : string -> JsError + URL :=
  fun _ => inr {| hostname := "github.com"; pathname := "/octo/demo/tree/main" |}.

(** A provider that knows the repository but lists no contributor. *)
Definition no_contributors : Env :=
  {| rateLimit_get := fun _ => rejected serverError;
     repos_get := fun _ _ _ => rejected serverError;
     repos_listContributors := fun _ _ _ => resolved (Some []);
     repos_getCommitActivityStats := fun _ _ _ => rejected serverError;
     repos_listCommits := fun _ _ _ _ => rejected serverError;
     repos_getContent := fun _ _ _ _ => rejected serverError;
     fetchFromUNGH := fun _ _ => rejected serverError;
     base64_toString := fun s => s;
     toISOString := fun _ => "1970-01-01T00:00:00.000Z" |}.




(** Eight weeks of activity: nothing in the first four, fifty commits in
    each of the last four; and one commit a week followed by two a week. *)
Definition week_of (n t : Z) : CommitActivity :=
  {| week := n * WEEK; total := t; days := [t; 0; 0; 0; 0; 0; 0] |}.

Definition quiet_then_busy : list CommitActivity :=
  [ week_of 2810 0; week_of 2811 0; week_of 2812 0; week_of 2813 0;
    week_of 2814 50; week_of 2815 50; week_of 2816 50; week_of 2817 50 ].

Definition one_then_two : list CommitActivity :=
  [ week_of 2810 1; week_of 2811 1; week_of 2812 1; week_of 2813 1;
    week_of 2814 2; week_of 2815 2; week_of 2816 2; week_of 2817 2 ].

(** A provider out of quota for its first answer only: the quota resets
    five seconds after [fresh], and the listing of [src] is served from the
    second request on. *)
Definition briefly_limited : Env :=
  {| rateLimit_get := fun _ => resolved {| rate_limit := 60; rate_remaining := 0;
                                           rate_reset := 1705000005 |};
     repos_get := fun _ _ _ => rejected rateLimited;
     repos_listContributors := fun _ _ _ => rejected rateLimited;
     repos_getCommitActivityStats := fun _ _ _ => rejected rateLimited;
     repos_listCommits := fun _ _ _ _ => rejected rateLimited;
     repos_getContent :=
       fun _ _ _ n =>
         if Nat.eqb n 0 then rejected rateLimited
         else resolved (ContentArray src_items);
     fetchFromUNGH := fun _ _ => rejected rateLimited;
     base64_toString := fun s => s;
     toISOString := fun _ => "1970-01-01T00:00:00.000Z" |}.

(** A provider that is still computing the statistics for its first two
    answers and then serves one week. *)
Definition computed_week : WeekData :=
  {| w_week := Some 1704585600; w_total := Some 3;
     w_days := Some [1; 0; 0; 2; 0; 0; 0] |}.

Definition eventually_computed : Env :=
  {| rateLimit_get := fun _ => rejected serverError;
     repos_get := fun _ _ _ => rejected serverError;
     repos_listContributors := fun _ _ _ => rejected serverError;
     repos_getCommitActivityStats :=
       fun _ _ n =>
         if Nat.ltb n 2
         then resolved {| sr_status := 202; sr_data := StatsNotArray |}
         else resolved {| sr_status := 200;
                          sr_data := StatsArray [Some computed_week] |};
     repos_listCommits := fun _ _ _ _ => rejected serverError;
     repos_getContent := fun _ _ _ _ => rejected serverError;
     fetchFromUNGH := fun _ _ => rejected serverError;
     base64_toString := fun s => s;
     toISOString := fun _ => "1970-01-01T00:00:00.000Z" |}.

End Examples.

(* ================================================================= *)
(** ** Facts about the built-ins *)

Module JsFacts.

Import Js.

Section SortFacts.
Variable A : Type.
Variable cmp : A -> A -> Z.

Lemma insert_perm (x : A) (l : list A) : Permutation (insert cmp x l) (x :: l).
Proof.
  induction l as [|y l IH]; simpl; [reflexivity|].
  destruct (cmp x y <=? 0); [reflexivity|].
  rewrite IH. apply perm_swap.
Qed.

Lemma sort_perm (l : list A) : Permutation (sort cmp l) l.
Proof.
  induction l as [|x l IH]; simpl; [reflexivity|].
  rewrite insert_perm. now constructor.
Qed.


Lemma sort_In (x : A) (l : list A) : In x (sort cmp l) <-> In x l.
Proof.
  split; apply Permutation_in; [|symmetry]; apply sort_perm.
Qed.

(** A comparator that subtracts keys. *)
Variable key : A -> Z.
Hypothesis cmp_key : forall a b, cmp a b = key a - key b.

Lemma insert_sorted (x : A) (l : list A) :
  StronglySorted (key_le key) l -> StronglySorted (key_le key) (insert cmp x l).
Proof.
  induction 1 as [|y l Hs IH Hall]; simpl.
  - repeat constructor.
  - destruct (cmp x y <=? 0) eqn:E.
    + apply Z.leb_le in E. rewrite cmp_key in E.
      constructor; [now constructor|].
      constructor; [unfold key_le; lia|].
      eapply Forall_impl; [|exact Hall].
      unfold key_le; intros; lia.
    + apply Z.leb_gt in E. rewrite cmp_key in E.
      constructor; [exact IH|].
      eapply Permutation_Forall; [symmetry; apply insert_perm|].
      constructor; [unfold key_le; lia|exact Hall].
Qed.

Lemma sort_sorted (l : list A) : StronglySorted (key_le key) (sort cmp l).
Proof.
  induction l; simpl; [constructor|now apply insert_sorted].
Qed.

(** Stability: elements with the same key keep their order. *)
Lemma insert_stable (k : Z) (x : A) (l : list A) :
  StronglySorted (key_le key) l ->
  filter (fun a => key a =? k) (insert cmp x l)
  = filter (fun a => key a =? k) (x :: l).
Proof.
  induction 1 as [|y l Hs IH Hall]; [reflexivity|].
  simpl insert. destruct (cmp x y <=? 0) eqn:E; [reflexivity|].
  apply Z.leb_gt in E. rewrite cmp_key in E.
  change (filter (fun a => key a =? k) (y :: insert cmp x l))
    with (if key y =? k then y :: filter (fun a => key a =? k) (insert cmp x l)
          else filter (fun a => key a =? k) (insert cmp x l)).
  rewrite IH. simpl.
  destruct (key x =? k) eqn:Ex, (key y =? k) eqn:Ey; try reflexivity.
  apply Z.eqb_eq in Ex, Ey. lia.
Qed.

Lemma sort_stable (k : Z) (l : list A) :
  filter (fun a => key a =? k) (sort cmp l) = filter (fun a => key a =? k) l.
Proof.
  induction l as [|x l IH]; [reflexivity|].
  simpl sort. rewrite insert_stable by apply sort_sorted.
  simpl. now rewrite IH.
Qed.


End SortFacts.

Lemma StronglySorted_weaken (A : Type) (R R' : A -> A -> Prop) (l : list A) :
  (forall a b, R a b -> R' a b) -> StronglySorted R l -> StronglySorted R' l.
Proof.
  intros W. induction 1 as [|x l Hs IH Hall]; constructor; [exact IH|].
  eapply Forall_impl; [|exact Hall]. apply W.
Qed.

Lemma sort_ext (A : Type) (f g : A -> A -> Z) (l : list A) :
  (forall a b, f a b = g a b) -> sort f l = sort g l.
Proof.
  intros E. induction l as [|x l IH]; [reflexivity|].
  simpl. rewrite IH. generalize (sort g l) as s.
  induction s as [|y s IHs]; [reflexivity|].
  simpl. now rewrite E, IHs.
Qed.

Lemma slice0_nonneg (A : Type) (n : Z) (l : list A) :
  0 <= n -> slice0 n l = firstn (Z.to_nat n) l.
Proof.
  intros H. unfold slice0.
  destruct (n <? 0) eqn:E; [apply Z.ltb_lt in E; lia|reflexivity].
Qed.


Lemma ceil_fifth_spec (n : Z) :
  5 * (ceil_fifth n - 1) < n <= 5 * ceil_fifth n.
Proof.
  unfold ceil_fifth.
  assert (- n = 5 * (- n / 5) + (- n) mod 5) by (apply Z.div_mod; lia).
  assert (0 <= (- n) mod 5 < 5) by (apply Z.mod_pos_bound; lia).
  lia.
Qed.

End JsFacts.

(* ================================================================= *)
(** ** Facts about the cache *)

Module CacheFacts.

Import Cache.

Section MapFacts.
Variable V : Type.
Implicit Types m : JsMap V.

Lemma Map_get_In key v m : Map_get key m = Some v -> In (key, v) m.
Proof.
  induction m as [|[k v0] m IH]; simpl; [discriminate|].
  destruct (String.eqb_spec k key) as [->|_].
  - intros [= ->]. now left.
  - intros H. right. now apply IH.
Qed.

Lemma Map_get_notin key m : ~ In key (keys m) -> Map_get key m = None.
Proof.
  induction m as [|[k v0] m IH]; simpl; [reflexivity|].
  intros H. destruct (String.eqb_spec k key) as [->|_].
  - exfalso. apply H. now left.
  - apply IH. intros H'. apply H. now right.
Qed.

Lemma filter_other_notin key m :
  ~ In key (keys m) -> filter (other key) m = m.
Proof.
  induction m as [|[k v] m IH]; simpl; [reflexivity|].
  intros H. unfold other at 1; simpl.
  destruct (String.eqb_spec k key) as [->|_].
  - exfalso. apply H. now left.
  - simpl. f_equal. apply IH. intros H'. apply H. now right.
Qed.

Lemma Map_delete_filter key m :
  NoDup (keys m) -> Map_delete key m = filter (other key) m.
Proof.
  induction m as [|[k v] m IH]; simpl; [reflexivity|].
  intros H. inversion H as [|? ? Hk Hm]; subst.
  unfold other at 1; simpl.
  destruct (String.eqb_spec k key) as [->|_]; simpl.
  - symmetry. now apply filter_other_notin.
  - f_equal. now apply IH.
Qed.

Lemma Map_delete_In x key m : In x (Map_delete key m) -> In x m.
Proof.
  induction m as [|[k v] m IH]; simpl; [tauto|].
  destruct (String.eqb k key); simpl; intuition.
Qed.

Lemma Map_delete_keys_In k key m :
  In k (keys (Map_delete key m)) -> In k (keys m).
Proof.
  unfold keys. rewrite !in_map_iff.
  intros (x & E & H). exists x. split; [exact E|].
  eapply Map_delete_In; eassumption.
Qed.

Lemma Map_delete_NoDup key m : NoDup (keys m) -> NoDup (keys (Map_delete key m)).
Proof.
  induction m as [|[k v] m IH]; simpl; [trivial|].
  intros H. inversion H as [|? ? Hk Hm]; subst.
  destruct (String.eqb k key); [exact Hm|].
  simpl. constructor; [|now apply IH].
  intros H'. apply Hk. eapply Map_delete_keys_In; eassumption.
Qed.


Lemma Map_delete_length_In key m :
  In key (keys m) -> S (List.length (Map_delete key m)) = List.length m.
Proof.
  induction m as [|[k v] m IH]; simpl; [tauto|].
  intros H. destruct (String.eqb_spec k key) as [->|N]; [reflexivity|].
  simpl. f_equal. apply IH. destruct H; [contradiction|assumption].
Qed.

Lemma Map_get_delete key m :
  NoDup (keys m) -> Map_get key (Map_delete key m) = None.
Proof.
  intros H. apply Map_get_notin. rewrite Map_delete_filter by exact H.
  unfold keys. rewrite in_map_iff. intros ([k v] & E & Hin).
  apply filter_In in Hin. destruct Hin as [_ Hin].
  unfold other in Hin. simpl in *. subst k.
  now rewrite String.eqb_refl in Hin.
Qed.

Lemma Map_set_keys key v m :
  keys (Map_set key v m) = if existsb (String.eqb key) (keys m) then keys m
                           else keys m ++ [key].
Proof.
  induction m as [|[k v0] m IH]; simpl; [reflexivity|].
  rewrite (String.eqb_sym key k).
  destruct (String.eqb k key); simpl; [reflexivity|].
  rewrite IH. now destruct (existsb (String.eqb key) (keys m)).
Qed.

Lemma existsb_eqb_In key (l : list string) :
  existsb (String.eqb key) l = true <-> In key l.
Proof.
  rewrite existsb_exists. split.
  - intros (x & H & E). apply String.eqb_eq in E. now subst.
  - intros H. exists key. split; [exact H|apply String.eqb_refl].
Qed.

Lemma Map_set_NoDup key v m : NoDup (keys m) -> NoDup (keys (Map_set key v m)).
Proof.
  intros H. rewrite Map_set_keys.
  destruct (existsb (String.eqb key) (keys m)) eqn:E; [exact H|].
  apply NoDup_app; [exact H|repeat constructor; simpl; tauto|].
  intros x Hx [<-|[]].
  apply existsb_eqb_In in Hx. congruence.
Qed.


Lemma Map_get_set key v m : Map_get key (Map_set key v m) = Some v.
Proof.
  induction m as [|[k v0] m IH]; simpl.
  - now rewrite String.eqb_refl.
  - destruct (String.eqb k key) eqn:E; simpl; rewrite E; [reflexivity|exact IH].
Qed.

Lemma Map_set_In x key v m : In x (Map_set key v m) -> x = (key, v) \/ In x m.
Proof.
  induction m as [|[k v0] m IH]; simpl; [intuition|].
  destruct (String.eqb_spec k key) as [->|_]; simpl; intuition.
Qed.

Lemma filter_NoDup_keys (p : string * V -> bool) m :
  NoDup (keys m) -> NoDup (keys (filter p m)).
Proof.
  induction m as [|[k v] m IH]; simpl; [trivial|].
  intros H. inversion H as [|? ? Hk Hm]; subst.
  destruct (p (k, v)); [|now apply IH].
  simpl. constructor; [|now apply IH].
  intros H'. apply Hk. unfold keys in *. rewrite in_map_iff in *.
  destruct H' as (x & E & Hin). exists x. split; [exact E|].
  now apply filter_In in Hin.
Qed.

(** In a map, an entry is the only one under its key. *)
Lemma NoDup_keys_unique k v v' m :
  NoDup (keys m) -> In (k, v) m -> In (k, v') m -> v = v'.
Proof.
  induction m as [|[k0 v0] m IH]; simpl; [tauto|].
  intros H. inversion H as [|? ? Hk Hm]; subst.
  intros [E|Hin] [E'|Hin'].
  - congruence.
  - inversion E; subst. exfalso. apply Hk.
    unfold keys. rewrite in_map_iff. now exists (k, v').
  - inversion E'; subst. exfalso. apply Hk.
    unfold keys. rewrite in_map_iff. now exists (k, v).
  - now apply IH.
Qed.

End MapFacts.

Lemma filter_filter_and (A : Type) (p q : A -> bool) (l : list A) :
  filter p (filter q l) = filter (fun x => q x && p x) l.
Proof.
  induction l as [|x l IH]; simpl; [reflexivity|].
  destruct (q x); simpl; [destruct (p x)|]; now rewrite IH.
Qed.


Section ApiCacheFacts.
Variable T : Type.
Implicit Types (c : ApiCache T) (m : JsMap (CacheEntry T)).

(** Deleting the keys of the selected elements of a snapshot filters the
    map. *)
Lemma fold_delete_filter (p : string * CacheEntry T -> bool) entries m :
  NoDup (keys m) ->
  fold_left (fun m ke => if p ke then Map_delete (fst ke) m else m) entries m
  = filter (spared p entries) m.
Proof.
  revert m. induction entries as [|en entries IH]; intros m H; simpl.
  - symmetry. apply forallb_filter_id. now apply forallb_forall.
  - rewrite IH by (destruct (p en); [apply Map_delete_NoDup|]; exact H).
    destruct (p en) eqn:E.
    + rewrite Map_delete_filter by exact H. rewrite filter_filter_and.
      apply filter_ext. intros ke. unfold spared, other. simpl. rewrite E. simpl.
      rewrite (String.eqb_sym (fst en)).
      now destruct (String.eqb (fst ke) (fst en)).
    + apply filter_ext. intros ke. unfold spared. simpl. now rewrite E.
Qed.

Lemma delete_expired_filter now m :
  NoDup (keys m) ->
  delete_expired now m m = filter (fun ke => negb (expired now ke)) m.
Proof.
  intros H. unfold delete_expired.
  rewrite fold_delete_filter by exact H.
  apply filter_ext_in. intros [k e] Hin. unfold spared, expired. f_equal.
  destruct (now >? expiresAt (snd (k, e))) eqn:E.
  - apply existsb_exists. exists (k, e). cbn [fst]. rewrite E, String.eqb_refl. auto.
  - destruct (existsb _ m) eqn:X; [|reflexivity].
    apply existsb_exists in X. destruct X as ([k' e'] & Hin' & X).
    apply andb_prop in X. destruct X as [X1 X2]. cbn [fst] in X2.
    apply String.eqb_eq in X2. subst k'.
    rewrite (@NoDup_keys_unique _ k e e' m H Hin Hin') in E. congruence.
Qed.

Lemma delete_keys_filter ks m :
  NoDup (keys m) ->
  delete_keys ks m = filter (spared (fun _ => true) ks) m.
Proof. exact (@fold_delete_filter (fun _ => true) ks m). Qed.



Lemma cleanup_options now c : options (cleanup now c) = options c.
Proof. unfold cleanup. now destruct (_ >=? _). Qed.

Lemma cleanup_NoDup now c :
  NoDup (keys (cache c)) -> NoDup (keys (cache (cleanup now c))).
Proof.
  intros H. unfold cleanup. rewrite delete_expired_filter by exact H.
  destruct (_ >=? _); simpl.
  - rewrite delete_keys_filter by now apply filter_NoDup_keys.
    now do 2 apply filter_NoDup_keys.
  - now apply filter_NoDup_keys.
Qed.


Lemma set_options key d t now now' c :
  options (set key d t now now' c) = options c.
Proof.
  unfold set. simpl. destruct (_ >=? _); [apply cleanup_options|reflexivity].
Qed.





(** Without the bound on the capacity, the keys are still distinct. *)
Lemma exec_NoDup op c :
  NoDup (keys (cache c)) -> NoDup (keys (cache (exec c op))).
Proof.
  intros H. destruct op as [key now|key d t now now'|key now|key|]; cbn [exec].
  - unfold get. destruct (Map_get key (cache c)); [|exact H].
    destruct (_ >? _); simpl; [now apply Map_delete_NoDup|exact H].
  - unfold set. simpl. apply Map_set_NoDup.
    destruct (_ >=? _); [now apply cleanup_NoDup|exact H].
  - unfold has. destruct (Map_get key (cache c)); [|exact H].
    destruct (_ >? _); simpl; [now apply Map_delete_NoDup|exact H].
  - now apply Map_delete_NoDup.
  - constructor.
Qed.

Lemma run_NoDup ops c :
  NoDup (keys (cache c)) -> NoDup (keys (cache (run ops c))).
Proof.
  revert c. induction ops as [|op ops IH]; intros c H; [exact H|].
  simpl. apply IH. now apply exec_NoDup.
Qed.

Lemma exec_options op c : options (exec c op) = options c.
Proof.
  destruct op as [k n|k d g n n'|k n|k|]; cbn [exec];
    auto using set_options.
  - unfold get. destruct (Map_get k (cache c)); [|reflexivity].
    now destruct (_ >? _).
  - unfold has. destruct (Map_get k (cache c)); [|reflexivity].
    now destruct (_ >? _).
Qed.

Lemma run_options ops c : options (run ops c) = options c.
Proof.
  revert c. induction ops as [|op ops IH]; intros c; [reflexivity|].
  simpl. rewrite IH. apply exec_options.
Qed.


End ApiCacheFacts.

Lemma NoDup_app_disjoint (A : Type) (x : A) (l1 l2 : list A) :
  NoDup (l1 ++ l2) -> In x l1 -> In x l2 -> False.
Proof.
  induction l1 as [|y l1 IH]; simpl; [tauto|].
  intros H. inversion H as [|? ? Hy Hl]; subst.
  intros [<-|H1] H2.
  - apply Hy, in_or_app. now right.
  - now apply IH.
Qed.

Lemma filter_none (A : Type) (p : A -> bool) (l : list A) :
  (forall x, In x l -> p x = false) -> filter p l = [].
Proof.
  induction l as [|x l IH]; simpl; [reflexivity|].
  intros H. rewrite (H x) by now left. apply IH. intros y Hy. apply H. now right.
Qed.

Section Eviction.
Variable T : Type.
Implicit Types (c : ApiCache T) (m victims alive : JsMap (CacheEntry T)).
Implicit Types (ke v s : string * CacheEntry T).









End Eviction.

End CacheFacts.

(* ================================================================= *)
(** ** The cache: capacity and expiry *)

Module CacheSpec.

Import Cache CacheFacts.


Lemma reachable_NoDup (T : Type) (o : CacheOptions) (ops : list (Op T)) :
  NoDup (keys (cache (run ops (new T o)))).
Proof. apply run_NoDup. constructor. Qed.



Section Expiry.
Variable T : Type.
Implicit Types (c : ApiCache T) (entry : CacheEntry T).

Lemma get_expired key now c entry :
  NoDup (keys (cache c)) ->
  Map_get key (cache c) = Some entry ->
  expiresAt entry < now ->
  fst (get key now c) = None /\
  Map_get key (cache (snd (get key now c))) = None.
Proof.
  intros Hnd Hget Hlt. unfold get. rewrite Hget.
  replace (now >? expiresAt entry) with true by (symmetry; apply Z.gtb_lt; lia).
  split; [reflexivity|]. simpl. now apply Map_get_delete.
Qed.

Lemma get_fresh key now c entry :
  Map_get key (cache c) = Some entry ->
  now <= expiresAt entry ->
  get key now c = (Some (data entry), c).
Proof.
  intros Hget Hle. unfold get. rewrite Hget.
  destruct (now >? expiresAt entry) eqn:E; [|reflexivity].
  apply Z.gtb_lt in E. lia.
Qed.

Lemma get_after_set key d t now now' c :
  Map_get key (cache (set key d t now now' c))
  = Some {| data := d; timestamp := now;
            expiresAt := now + ttl_or_default t c |}.
Proof. unfold set. cbn [cache with_cache]. apply Map_get_set. Qed.

End Expiry.

(** C2.  On any state of a cache: [get] of an entry whose [expiresAt] is
    before [now] answers absent and the entry is gone afterwards; [get]
    before [expiresAt] answers the stored value and leaves the cache as it
    was.  An entry stored at time [t] is present at every query before
    [t + T0] and absent, and evicted, at every query after, where [T0] is
    the ttl given to [set], or the ttl of the cache when [set] is given
    none (a ttl of zero counts as none). *)
Theorem get_expires_lazily :
  forall (T : Type) (o : CacheOptions) (ops : list (Op T)) (key : string),
    let c := run ops (new T o) in
    (forall entry now,
        Map_get key (cache c) = Some entry ->
        expiresAt entry < now ->
        fst (get key now c) = None /\
        Map_get key (cache (snd (get key now c))) = None) /\
    (forall entry now,
        Map_get key (cache c) = Some entry ->
        now < expiresAt entry ->
        get key now c = (Some (data entry), c)) /\
    (forall (v : T) (given : option Z) (t t' q : Z),
        let c' := set key v given t t' c in
        let T0 := match given with
                  | Some n => if n =? 0 then ttl (merge o) else n
                  | None => ttl (merge o)
                  end in
        (q < t + T0 -> get key q c' = (Some v, c')) /\
        (t + T0 < q ->
         fst (get key q c') = None /\
         Map_get key (cache (snd (get key q c'))) = None)).
Proof.
  intros T o ops key c. split; [|split].
  - intros entry now Hget Hlt. eapply get_expired; eauto.
    apply reachable_NoDup.
  - intros entry now Hget Hlt. apply get_fresh; [exact Hget|lia].
  - intros v given t t' q c' T0.
    pose proof (get_after_set key v given t t' c) as Hg. fold c' in Hg.
    assert (Ho : options c = merge o) by apply run_options.
    assert (Ht : ttl_or_default given c = T0).
    { unfold ttl_or_default, T0. now rewrite Ho. }
    rewrite Ht in Hg. split; intros Hq.
    + rewrite (get_fresh _ _ Hg); [reflexivity|simpl; lia].
    + eapply get_expired; [|exact Hg|simpl; lia].
      apply (@exec_NoDup T (OpSet key v given t t') c), reachable_NoDup.
Qed.

(** An entry stored at time 10 with a ttl of 5: present at 14, gone at 16. *)
Lemma get_expires_lazily_witness :
  get "a" 14 (set "a" "va" (Some 5) 10 10 (new string Examples.two_slots))
  = (Some "va", set "a" "va" (Some 5) 10 10 (new string Examples.two_slots)) /\
  fst (get "a" 16 (set "a" "va" (Some 5) 10 10 (new string Examples.two_slots)))
  = None.
Proof.
  pose proof (proj2 (proj2 (@get_expires_lazily string Examples.two_slots [] "a"))
                "va" (Some 5) 10 10) as H.
  cbv zeta in H. split.
  - apply (H 14). reflexivity.
  - apply (H 16). reflexivity.
Defined.

End CacheSpec.

(* ================================================================= *)
(** ** [calculateMetrics] *)

Module MetricsSpec.

Import GitHub.

Lemma ranked_top (n : nat) (contributors : list Contributor) :
  top_contributors n contributors
    (firstn n (Js.sort by_contributions contributors)).
Proof.
  set (key := fun c : Contributor => - contributions c).
  assert (K : forall a b, by_contributions a b = key a - key b)
    by (intros; unfold by_contributions, key; lia).
  exists (Js.sort by_contributions contributors). repeat split.
  - apply JsFacts.sort_perm.
  - eapply JsFacts.StronglySorted_weaken;
      [|exact (@JsFacts.sort_sorted _ _ _ K contributors)].
    unfold Js.key_le, key. intros a b. lia.
  - intros k.
    rewrite (filter_ext _ (fun c => key c =? - k))
      by (intros c; unfold key; destruct (Z.eqb_spec (contributions c) k);
          destruct (Z.eqb_spec (- contributions c) (- k)); lia || reflexivity).
    rewrite (@JsFacts.sort_stable _ _ _ K). apply filter_ext.
    intros c; unfold key; destruct (Z.eqb_spec (contributions c) k);
      destruct (Z.eqb_spec (- contributions c) (- k)); lia || reflexivity.
Qed.

(** C9, as the code has it.  When there is at least one week of commit
    activity, [mostActiveContributors] is the top 5 of the contributors by
    contribution count, highest first, ties in their original order.  With
    no week of commit activity it is empty. *)
Theorem calculateMetrics_top_five :
  forall (commitActivity : list CommitActivity) (contributors : list Contributor),
    (commitActivity <> [] ->
     top_contributors 5 contributors
       (mostActiveContributors (calculateMetrics commitActivity contributors)))
    /\ mostActiveContributors (calculateMetrics [] contributors) = [].
Proof.
  intros ca cs. split; [|reflexivity].
  intros Hne. destruct ca as [|w ca]; [contradiction|].
  cbn [calculateMetrics mostActiveContributors].
  rewrite JsFacts.slice0_nonneg by lia. apply ranked_top.
Qed.

Lemma calculateMetrics_top_five_witness :
  Examples.one_week <> [] /\
  top_contributors 5 [Examples.alice; Examples.bob; Examples.carol]
    [Examples.bob; Examples.alice; Examples.carol].
Proof.
  split; [discriminate|].
  apply (proj1 (calculateMetrics_top_five Examples.one_week
                  [Examples.alice; Examples.bob; Examples.carol])).
  discriminate.
Defined.

(** With no commit activity the contributors are ignored: the result is not
    the top 5 of a non-empty list of contributors. *)
Lemma calculateMetrics_no_weeks_counterexample :
  ~ top_contributors 5 [Examples.alice]
      (mostActiveContributors (calculateMetrics [] [Examples.alice])).
Proof.
  intros (ranked & P & _ & _ & E).
  apply Permutation_length in P.
  destruct ranked as [|x [|y ranked]]; simpl in P; try discriminate.
Qed.

End MetricsSpec.

(* ================================================================= *)
(** ** The alternative commit-activity computation *)

Module CommitSpec.

Import GitHub.

Lemma weeks_has_In k m : weeks_has k m = true <-> In k (wkeys m).
Proof.
  induction m as [|[k' b] m IH]; simpl; [split; [discriminate|tauto]|].
  rewrite orb_true_iff, IH, Z.eqb_eq. tauto.
Qed.

Lemma weeks_set_In k b m x :
  In x (weeks_set k b m) -> x = (k, b) \/ In x m.
Proof.
  induction m as [|[k' b'] m IH]; simpl; [intuition|].
  destruct (Z.eqb_spec k' k) as [->|_]; simpl; intuition.
Qed.

Lemma weeks_set_keys k b m :
  wkeys (weeks_set k b m) = if weeks_has k m then wkeys m else wkeys m ++ [k].
Proof.
  induction m as [|[k' b'] m IH]; simpl; [reflexivity|].
  destruct (Z.eqb_spec k' k) as [->|_]; simpl; [reflexivity|].
  rewrite IH. now destruct (weeks_has k m).
Qed.

Lemma weeks_set_NoDup k b m : NoDup (wkeys m) -> NoDup (wkeys (weeks_set k b m)).
Proof.
  intros H. rewrite weeks_set_keys.
  destruct (weeks_has k m) eqn:E; [exact H|].
  apply NoDup_app; [exact H|repeat constructor; simpl; tauto|].
  intros x Hx [<-|[]]. apply weeks_has_In in Hx. congruence.
Qed.

Lemma weeks_update_keys k f m : wkeys (weeks_update k f m) = wkeys m.
Proof.
  induction m as [|[k' b'] m IH]; simpl; [reflexivity|].
  destruct (k' =? k); simpl; [reflexivity|now rewrite IH].
Qed.

Lemma weeks_update_In k f m k' b' :
  NoDup (wkeys m) ->
  In (k', b') (weeks_update k f m) ->
  (k' = k /\ exists b0, In (k, b0) m /\ b' = f b0) \/
  (k' <> k /\ In (k', b') m).
Proof.
  induction m as [|[k0 b0] m IH]; simpl; [tauto|].
  intros H. inversion H as [|? ? Hk Hm]; subst.
  destruct (Z.eqb_spec k0 k) as [->|N]; simpl.
  - intros [E|Hin].
    + inversion E; subst. left. split; [reflexivity|]. exists b0. auto.
    + right. split; [|now right]. intros ->. apply Hk.
      unfold wkeys. apply in_map_iff. now exists (k, b').
  - intros [E|Hin].
    + inversion E; subst. right. split; [exact N|now left].
    + destruct (IH Hm Hin) as [(-> & b1 & H1 & ->)|[N' H1]].
      * left. split; [reflexivity|]. exists b1. auto.
      * right. auto.
Qed.

Lemma incr_length d l : List.length (incr d l) = List.length l.
Proof.
  revert d. induction l as [|x l IH]; intros [|d]; simpl; auto.
Qed.

Lemma incr_sum d l : (d < List.length l)%nat -> sum (incr d l) = sum l + 1.
Proof.
  revert d. induction l as [|x l IH]; intros [|d]; simpl; try lia.
  intros H. rewrite IH by lia. lia.
Qed.

Lemma getUTCDay_range ms : 0 <= getUTCDay ms < 7.
Proof. unfold getUTCDay. apply Z.mod_pos_bound. lia. Qed.

Lemma weekStartOf_aligned t : exists n, weekStartOf t = n * WEEK.
Proof.
  exists (Z.quot t WEEK). unfold weekStartOf, Js.rem.
  pose proof (Z.quot_rem' t WEEK) as E.
  rewrite E at 1. ring.
Qed.

(** For a time after the epoch, the bucket key is the start of the week
    the time lies in. *)
Lemma weekStartOf_interval t n :
  0 <= t -> (weekStartOf t =? n * WEEK) = (n * WEEK <=? t) && (t <? n * WEEK + WEEK).
Proof.
  intros Ht. unfold weekStartOf, Js.rem.
  rewrite Z.rem_mod_nonneg by (unfold WEEK; lia).
  assert (W : 0 < WEEK) by (unfold WEEK; lia).
  pose proof (Z.div_mod t WEEK ltac:(lia)) as D.
  pose proof (Z.mod_pos_bound t WEEK W) as B.
  destruct (Z.eqb_spec (t - t mod WEEK) (n * WEEK)) as [E|N];
    destruct (Z.leb_spec (n * WEEK) t); destruct (Z.ltb_spec t (n * WEEK + WEEK));
    simpl; try reflexivity; exfalso; unfold WEEK in *; lia.
Qed.

Lemma count_if_app (A : Type) (p : A -> bool) (l l' : list A) :
  count_if p (l ++ l') = count_if p l + count_if p l'.
Proof. unfold count_if. rewrite filter_app, length_app. lia. Qed.

Lemma count_if_none (A : Type) (p : A -> bool) (l : list A) :
  (forall x, In x l -> p x = false) -> count_if p l = 0.
Proof.
  intros H. unfold count_if. now rewrite CacheFacts.filter_none.
Qed.

Lemma count_if_ext (A : Type) (p q : A -> bool) (l : list A) :
  (forall x, In x l -> p x = q x) -> count_if p l = count_if q l.
Proof. intros H. unfold count_if. now rewrite (filter_ext_in _ _ _ H). Qed.

Lemma count_if_one (A : Type) (p : A -> bool) (x : A) :
  count_if p [x] = if p x then 1 else 0.
Proof. unfold count_if. simpl. now destruct (p x). Qed.

Lemma initWeeks_counts currentTime : buckets_count [] (initWeeks currentTime).
Proof.
  unfold initWeeks. cbn [fold_left].
  split; [|split].
  - repeat apply weeks_set_NoDup. constructor.
  - intros k b H.
    repeat (apply weeks_set_In in H; destruct H as [[= -> ->]|H];
            [split; [apply weekStartOf_aligned|repeat split]|]).
    destruct H.
  - intros c ms [].
Qed.

Lemma countCommit_counts done m c :
  buckets_count done m -> buckets_count (done ++ [c]) (countCommit m c).
Proof.
  intros (Hnd & Hb & Hk). unfold countCommit.
  destruct (author_date c) as [ms|] eqn:Ed.
  - set (k0 := weekStartOf (Js.floorDiv ms 1000)).
    set (m1 := if weeks_has k0 m then m else weeks_set k0 emptyBucket m).
    assert (Hnd1 : NoDup (wkeys m1)).
    { unfold m1. destruct (weeks_has k0 m); [exact Hnd|now apply weeks_set_NoDup]. }
    assert (Hsub : forall k, In k (wkeys m) -> In k (wkeys m1)).
    { unfold m1. intros k H. destruct (weeks_has k0 m) eqn:E; [exact H|].
      rewrite weeks_set_keys, E. apply in_or_app. now left. }
    assert (Hk0 : In k0 (wkeys m1)).
    { unfold m1. destruct (weeks_has k0 m) eqn:E; [now apply weeks_has_In|].
      rewrite weeks_set_keys, E. apply in_or_app. right. now left. }
    assert (Hb1 : forall k b, In (k, b) m1 ->
              (exists n, k = n * WEEK) /\
              b_total b = count_if (starts_week k) done /\
              List.length (b_days b) = 7%nat /\ sum (b_days b) = b_total b).
    { unfold m1. intros k b H. destruct (weeks_has k0 m) eqn:E; [now apply Hb|].
      apply weeks_set_In in H. destruct H as [[= -> ->]|H]; [|now apply Hb].
      split; [apply weekStartOf_aligned|]. split; [|now split].
      simpl. symmetry. apply count_if_none. intros c' Hc'.
      unfold starts_week. destruct (author_date c') as [ms'|] eqn:Ed'; [|reflexivity].
      apply Z.eqb_neq. intros E'. pose proof (Hk c' ms' Hc' Ed') as Hin.
      rewrite E' in Hin. apply weeks_has_In in Hin. fold k0 in Hin. congruence. }
    split; [|split].
    + now rewrite weeks_update_keys.
    + intros k b H. apply weeks_update_In in H; [|exact Hnd1].
      rewrite count_if_app.
      destruct H as [(-> & b0 & H0 & ->)|[N H0]].
      * destruct (Hb1 _ _ H0) as (Ha & Ht & L & S).
        split; [exact Ha|]. cbn [b_total b_days]. rewrite incr_length.
        split; [|split; [exact L|]].
        -- rewrite Ht, count_if_one.
           replace (starts_week k0 c) with true; [reflexivity|].
           unfold starts_week. rewrite Ed. fold k0. now rewrite Z.eqb_refl.
        -- rewrite incr_sum; [lia|]. rewrite L.
           pose proof (getUTCDay_range ms). lia.
      * destruct (Hb1 _ _ H0) as (Ha & Ht & L & S).
        split; [exact Ha|]. split; [|split; assumption].
        rewrite Ht, count_if_one.
        replace (starts_week k c) with false; [lia|].
        unfold starts_week. rewrite Ed. fold k0. apply Z.eqb_neq in N.
        now rewrite Z.eqb_sym, N.
    + intros c' ms' Hin Ed'. rewrite weeks_update_keys.
      apply in_app_or in Hin. destruct Hin as [Hin|[<-|[]]].
      * apply Hsub. eapply Hk; eassumption.
      * rewrite Ed in Ed'. inversion Ed'; subst. exact Hk0.
  - split; [exact Hnd|split].
    + intros k b H. destruct (Hb _ _ H) as (Ha & Ht & L & S).
      split; [exact Ha|]. split; [|split; assumption].
      rewrite count_if_app, Ht, count_if_one.
      replace (starts_week k c) with false; [lia|].
      unfold starts_week. now rewrite Ed.
    + intros c' ms' Hin Ed'.
      apply in_app_or in Hin. destruct Hin as [Hin|[<-|[]]].
      * eapply Hk; eassumption.
      * congruence.
Qed.

Lemma fold_countCommit_counts commits done m :
  buckets_count done m ->
  buckets_count (done ++ commits) (fold_left countCommit commits m).
Proof.
  revert done m. induction commits as [|c commits IH]; intros done m H; simpl.
  - now rewrite app_nil_r.
  - replace (done ++ c :: commits) with ((done ++ [c]) ++ commits)
      by (rewrite <- app_assoc; reflexivity).
    apply IH. now apply countCommit_counts.
Qed.

(** On commits made after the epoch, the bucket a commit is counted in is
    the week its timestamp lies in. *)
Lemma starts_week_in_week n c :
  (forall ms, author_date c = Some ms -> 0 <= ms) ->
  starts_week (n * WEEK) c = in_week (n * WEEK) c.
Proof.
  intros H. unfold starts_week, in_week.
  destruct (author_date c) as [ms|]; [|reflexivity].
  apply weekStartOf_interval. unfold Js.floorDiv.
  apply Z.div_pos; [now apply H|lia].
Qed.

Lemma sorted_distinct_strict (A : Type) (key : A -> Z) (l : list A) :
  StronglySorted (Js.key_le key) l -> NoDup (map key l) ->
  StronglySorted (fun a b => key a < key b) l.
Proof.
  induction 1 as [|x l Hs IH Hall]; simpl; intros Hnd; constructor.
  - apply IH. now inversion Hnd.
  - inversion Hnd as [|? ? Hx Hl]; subst.
    rewrite Forall_forall in *. intros y Hy.
    pose proof (Hall y Hy) as Hle. unfold Js.key_le in Hle.
    assert (key x <> key y); [|lia].
    intros E. apply Hx. rewrite E. now apply in_map.
Qed.

Lemma bucketCommits_weeks currentTime commits :
  (forall c ms, In c commits -> author_date c = Some ms -> 0 <= ms) ->
  Forall (week_bucket commits) (bucketCommits currentTime commits) /\
  StronglySorted (fun a b => week a < week b) (bucketCommits currentTime commits).
Proof.
  intros Hpos. unfold bucketCommits.
  destruct (fold_countCommit_counts commits (initWeeks_counts currentTime))
    as (Hnd & Hb & _).
  simpl app in Hb. set (m := fold_left countCommit commits _) in *.
  split.
  - apply Forall_forall. intros w Hw.
    apply (proj1 (JsFacts.sort_In by_week _ _)) in Hw. apply in_map_iff in Hw.
    destruct Hw as ([k b] & <- & Hin). simpl.
    destruct (Hb k b Hin) as ((n & ->) & Ht & Hl & Hs).
    unfold week_bucket. simpl. repeat split; try assumption.
    + now exists n.
    + rewrite Ht. apply count_if_ext. intros c Hc.
      apply starts_week_in_week. intros ms. now apply Hpos.
  - apply sorted_distinct_strict.
    + apply JsFacts.sort_sorted. reflexivity.
    + eapply Permutation_NoDup.
      * apply Permutation_map. symmetry. apply JsFacts.sort_perm.
      * rewrite map_map. exact Hnd.
Qed.

Lemma incr_nth d l i :
  nth i (incr d l) 0
  = nth i l 0 + (if Nat.eqb d i && Nat.ltb d (List.length l) then 1 else 0).
Proof.
  revert d i. induction l as [|x l IH]; intros d i.
  - destruct d, i; simpl; rewrite ?andb_false_r; reflexivity.
  - destruct d as [|d], i as [|i]; cbn [incr nth Nat.eqb andb List.length].
    + reflexivity.
    + lia.
    + lia.
    + rewrite IH. reflexivity.
Qed.

Lemma initWeeks_days currentTime : days_count [] (initWeeks currentTime).
Proof.
  unfold initWeeks. cbn [fold_left]. intros k b H d.
  repeat (apply weeks_set_In in H; destruct H as [[= -> ->]|H];
          [now destruct d as [|[|[|[|[|[|[|[|d]]]]]]]]|]).
  destruct H.
Qed.

Lemma countCommit_days done m c :
  buckets_count done m -> days_count done m ->
  days_count (done ++ [c]) (countCommit m c).
Proof.
  intros (Hnd & Hb & Hk) Hd. unfold countCommit.
  destruct (author_date c) as [ms|] eqn:Ed.
  - set (k0 := weekStartOf (Js.floorDiv ms 1000)).
    set (m1 := if weeks_has k0 m then m else weeks_set k0 emptyBucket m).
    assert (Hnd1 : NoDup (wkeys m1)).
    { unfold m1. destruct (weeks_has k0 m); [exact Hnd|now apply weeks_set_NoDup]. }
    assert (Hd1 : forall k b, In (k, b) m1 ->
              List.length (b_days b) = 7%nat /\
              forall d, nth d (b_days b) 0
                        = count_if (fun c => starts_week k c && on_day d c) done).
    { unfold m1. intros k b H. destruct (weeks_has k0 m) eqn:E.
      - split; [apply (Hb k b H)|now apply Hd].
      - apply weeks_set_In in H. destruct H as [[= -> ->]|H];
          [|split; [apply (Hb k b H)|now apply Hd]].
        split; [reflexivity|]. intros d. rewrite count_if_none.
        + now destruct d as [|[|[|[|[|[|[|[|d]]]]]]]].
        + intros c' Hc'. unfold starts_week.
          destruct (author_date c') as [ms'|] eqn:Ed'; [|reflexivity].
          replace (weekStartOf (Js.floorDiv ms' 1000) =? k0) with false;
            [reflexivity|].
          symmetry. apply Z.eqb_neq. intros E'.
          pose proof (Hk c' ms' Hc' Ed') as Hin.
          rewrite E' in Hin. apply weeks_has_In in Hin. congruence. }
    intros k b H d. apply weeks_update_In in H; [|exact Hnd1].
    rewrite count_if_app, count_if_one.
    destruct H as [(-> & b0 & H0 & ->)|[N H0]].
    + destruct (Hd1 _ _ H0) as [L Hn0]. cbn [b_days].
      rewrite incr_nth, Hn0, L. f_equal.
      unfold starts_week, on_day. rewrite Ed. fold k0. rewrite Z.eqb_refl.
      cbn [andb]. pose proof (getUTCDay_range ms).
      replace (Nat.ltb (Z.to_nat (getUTCDay ms)) 7) with true
        by (symmetry; apply Nat.ltb_lt; lia).
      now rewrite andb_true_r.
    + destruct (Hd1 _ _ H0) as [_ Hn0]. rewrite Hn0.
      replace (starts_week k c) with false; [cbn [andb]; lia|].
      unfold starts_week. rewrite Ed. fold k0. symmetry. apply Z.eqb_neq.
      congruence.
  - intros k b H d. rewrite count_if_app, count_if_one, (Hd k b H d).
    replace (starts_week k c) with false; [cbn [andb]; lia|].
    unfold starts_week. now rewrite Ed.
Qed.

Lemma fold_countCommit_days commits done m :
  buckets_count done m -> days_count done m ->
  days_count (done ++ commits) (fold_left countCommit commits m).
Proof.
  revert done m. induction commits as [|c commits IH]; intros done m H Hd; simpl.
  - now rewrite app_nil_r.
  - replace (done ++ c :: commits) with ((done ++ [c]) ++ commits)
      by (rewrite <- app_assoc; reflexivity).
    apply IH; [now apply countCommit_counts|now apply countCommit_days].
Qed.

(** Each slot of a returned week counts the commits of that week and day. *)
Lemma bucketCommits_days currentTime commits :
  (forall c ms, In c commits -> author_date c = Some ms -> 0 <= ms) ->
  Forall (week_days commits) (bucketCommits currentTime commits).
Proof.
  intros Hpos. unfold bucketCommits.
  destruct (fold_countCommit_counts commits (initWeeks_counts currentTime))
    as (_ & Hb & _).
  pose proof (fold_countCommit_days commits (initWeeks_counts currentTime)
                (initWeeks_days currentTime)) as Hd.
  simpl app in Hb, Hd. set (m := fold_left countCommit commits _) in *.
  apply Forall_forall. intros w Hw.
  apply (proj1 (JsFacts.sort_In by_week _ _)) in Hw. apply in_map_iff in Hw.
  destruct Hw as ([k b] & <- & Hin). unfold week_days. cbn [week days fst snd].
  intros d. rewrite (Hd k b Hin d).
  destruct (Hb k b Hin) as ((n & ->) & _).
  apply count_if_ext. intros c Hc. f_equal.
  apply starts_week_in_week. intros ms. now apply Hpos.
Qed.

(** Every listed commit that carries a date has its week among the
    returned ones. *)
Lemma bucketCommits_covers currentTime commits c ms :
  (forall c ms, In c commits -> author_date c = Some ms -> 0 <= ms) ->
  In c commits -> author_date c = Some ms ->
  exists wk, In wk (bucketCommits currentTime commits) /\
             in_week (week wk) c = true.
Proof.
  intros Hpos Hc Hd. unfold bucketCommits.
  destruct (fold_countCommit_counts commits (initWeeks_counts currentTime))
    as (_ & _ & Hk).
  simpl app in Hk. set (m := fold_left countCommit commits _) in *.
  pose proof (Hk c ms Hc Hd) as Hin. unfold wkeys in Hin.
  apply in_map_iff in Hin. destruct Hin as ([k b] & Ek & Hin). simpl in Ek.
  exists {| week := k; total := b_total b; days := b_days b |}. split.
  - apply (proj2 (JsFacts.sort_In by_week _ _)). apply in_map_iff.
    now exists (k, b).
  - cbn [week]. destruct (weekStartOf_aligned (Js.floorDiv ms 1000)) as [n En].
    rewrite Ek, En. rewrite <- starts_week_in_week
      by (intros ms' E; apply (Hpos c ms' Hc E)).
    unfold starts_week. rewrite Hd, En. apply Z.eqb_refl.
Qed.

(** C6.  When the provider lists commits made after the epoch (as every
    commit of the 30-day window is), the alternative computation returns
    weeks such that: each week starts at a multiple of 7 days from the
    epoch; its [total] is the number of listed commits whose timestamp lies
    in [[week, week + 7 days)]; its [days] has 7 elements that sum to
    [total], each counting the commits of the week made on that day (UTC,
    Sunday first); the weeks come oldest first; and no listed commit is
    lost: every commit that carries a date lies in one of the returned
    weeks. *)
Theorem alternative_commit_activity_buckets :
  forall (env : Env) (owner repo : string) (w : World)
         (commits : list CommitData),
    settled (repos_listCommits env owner repo
               (clock w - 30 * 24 * 60 * 60 * 1000) (List.length (calls w)))
    = inr (Some commits) ->
    (forall c ms, In c commits -> author_date c = Some ms -> 0 <= ms) ->
    exists weeks w',
      getCommitActivityAlternative env owner repo w = (Return weeks, w') /\
      Forall (week_bucket commits) weeks /\
      Forall (week_days commits) weeks /\
      StronglySorted (fun a b => week a < week b) weeks /\
      (forall c ms, In c commits -> author_date c = Some ms ->
         exists wk, In wk weeks /\ in_week (week wk) c = true).
Proof.
  intros env owner repo w commits Hnet Hpos.
  unfold getCommitActivityAlternative, try_catch, bind, Date_now, call.
  cbn [clock calls]. rewrite Hnet.
  destruct commits as [|c commits].
  - do 2 eexists. split; [reflexivity|].
    split; [constructor|]. split; [constructor|]. split; [constructor|].
    intros c ms [].
  - do 2 eexists. split; [reflexivity|].
    destruct (@bucketCommits_weeks
                (Js.floorDiv (clock w + elapsed (repos_listCommits env owner repo
                     (clock w - 30 * 24 * 60 * 60 * 1000)
                     (List.length (calls w)))) 1000)
                (c :: commits) Hpos) as [HF HS].
    split; [exact HF|]. split; [now apply bucketCommits_days|].
    split; [exact HS|].
    intros c0 ms Hc Hd. now apply bucketCommits_covers with (ms := ms).
Qed.

Lemma alternative_commit_activity_buckets_witness :
  exists weeks w',
    getCommitActivityAlternative Examples.listing_commits "octo" "demo"
                                 Examples.fresh = (Return weeks, w') /\
    Forall (week_bucket Examples.three_commits) weeks /\
    Forall (week_days Examples.three_commits) weeks /\
    StronglySorted (fun a b => week a < week b) weeks /\
    (forall c ms, In c Examples.three_commits -> author_date c = Some ms ->
       exists wk, In wk weeks /\ in_week (week wk) c = true).
Proof.
  apply (alternative_commit_activity_buckets
           Examples.listing_commits "octo" "demo" Examples.fresh
           (commits := Examples.three_commits)); [reflexivity|].
  intros c ms [<-|[<-|[<-|[<-|[]]]]]; intros [= <-]; lia.
Defined.

End CommitSpec.

(* ================================================================= *)
(** ** Reasoning about the fetchers *)

Module FetchFacts.

Import Cache GitHub CacheFacts.
Local Open Scope js_scope.

(** *** The state *)

Lemma cache_of_put_same i c w : cache_of i (put_cache i c w) = c.
Proof. now destruct i. Qed.

Lemma cache_of_put_other i j c w :
  i <> j -> cache_of i (put_cache j c w) = cache_of i w.
Proof. destruct i, j; simpl; congruence. Qed.

Lemma put_cache_same i w : put_cache i (cache_of i w) w = w.
Proof. now destruct w, i. Qed.

Lemma token_put i c w : token (put_cache i c w) = token w.
Proof. now destruct i. Qed.

Lemma calls_put i c w : calls (put_cache i c w) = calls w.
Proof. now destruct i. Qed.

Lemma clock_put i c w : clock (put_cache i c w) = clock w.
Proof. now destruct i. Qed.

Lemma authenticated_token w w' : token w' = token w -> authenticated w' = authenticated w.
Proof. unfold authenticated, octokit_auth. now intros ->. Qed.

(** *** The caches stay well formed *)

Lemma fold_delete_In (T : Type) (p : string * CacheEntry T -> bool)
      (entries m : JsMap (CacheEntry T)) x :
  In x (fold_left (fun m ke => if p ke then Map_delete (fst ke) m else m)
                  entries m) ->
  In x m.
Proof.
  revert m. induction entries as [|en entries IH]; intros m H; [exact H|].
  simpl in H. apply IH in H. destruct (p en); [|exact H].
  eapply Map_delete_In; eassumption.
Qed.

Lemma cleanup_In (T : Type) now (c : ApiCache T) x :
  In x (cache (cleanup now c)) -> In x (cache c).
Proof.
  unfold cleanup. destruct (_ >=? _); simpl; intros H.
  - apply (fold_delete_In (fun _ => true)) in H.
    now apply (fold_delete_In (expired now)) in H.
  - now apply (fold_delete_In (expired now)) in H.
Qed.

Lemma set_In (T : Type) key (d : T) t now now' (c : ApiCache T) x :
  In x (cache (set key d t now now' c)) ->
  x = (key, {| data := d; timestamp := now;
               expiresAt := now + ttl_or_default t c |})
  \/ In x (cache c).
Proof.
  unfold set. cbn [cache with_cache]. intros H.
  apply Map_set_In in H. destruct H as [H|H]; [now left|right].
  destruct (_ >=? _); [now apply cleanup_In in H|exact H].
Qed.

Lemma get_In (T : Type) key now (c : ApiCache T) x :
  In x (cache (snd (get key now c))) -> In x (cache c).
Proof.
  unfold get. destruct (Map_get key (cache c)); [|trivial].
  destruct (_ >? _); simpl; [|trivial]. apply Map_delete_In.
Qed.

Lemma get_cache_ok i key now c :
  cache_ok i c -> cache_ok i (snd (get key now c)).
Proof.
  intros [Hnd Hk]. split.
  - apply (@exec_NoDup _ (OpGet _ key now) c Hnd).
  - rewrite Forall_forall in *. intros x Hx. apply Hk.
    eapply get_In; eassumption.
Qed.

Lemma set_cache_ok i key v t now now' c :
  cache_ok i c -> kinded i key v -> cache_ok i (set key v t now now' c).
Proof.
  intros [Hnd Hk] Hv. split.
  - apply (@exec_NoDup _ (OpSet key v t now now') c Hnd).
  - rewrite Forall_forall in *. intros x Hx.
    apply set_In in Hx. destruct Hx as [->|Hx]; [exact Hv|now apply Hk].
Qed.

Lemma World_ok_put i c w :
  World_ok w -> cache_ok i c -> World_ok (put_cache i c w).
Proof.
  intros Hw Hc j.
  destruct i, j; simpl; try exact Hc;
    first [exact (Hw RepoCache)|exact (Hw ContentCache)|exact (Hw RateLimitCache)].
Qed.

Lemma World_ok_same w w' :
  (forall i, cache_of i w' = cache_of i w) -> World_ok w -> World_ok w'.
Proof. intros E Hw i. rewrite E. apply Hw. Qed.

Lemma World_ok_initial t tok : World_ok (initial t tok).
Proof. intros []; split; constructor. Qed.

(** A hit leaves the cache as it is. *)
Lemma get_Some_same (T : Type) key now (c : ApiCache T) v :
  fst (get key now c) = Some v -> snd (get key now c) = c.
Proof.
  unfold get. destruct (Map_get key (cache c)); [|discriminate].
  now destruct (_ >? _).
Qed.

(** *** The outcomes of the primitive steps *)

Lemma cache_get_run i key w :
  cache_get i key w = (Return (lookup i key w), after_lookup i key w).
Proof.
  unfold cache_get, lookup, after_lookup.
  now destruct (get key (clock w) (cache_of i w)).
Qed.

Lemma cached_miss A i key (cast : CacheValue -> option A) w :
  misses i key w -> cached i key cast w = (Return None, after_lookup i key w).
Proof.
  unfold misses, cached, bind. rewrite cache_get_run.
  destruct (lookup i key w) as [v|]; [|reflexivity].
  now intros ->.
Qed.

Lemma cached_hit A i key (cast : CacheValue -> option A) w v a :
  lookup i key w = Some v -> truthy v = true -> cast v = Some a ->
  cached i key cast w = (Return (Some a), w).
Proof.
  intros Hl Ht Hc. unfold cached, bind. rewrite cache_get_run, Hl, Ht, Hc.
  unfold ret, after_lookup. f_equal.
  unfold lookup in Hl. rewrite (get_Some_same _ _ _ Hl). apply put_cache_same.
Qed.

Lemma World_ok_after_lookup i key w : World_ok w -> World_ok (after_lookup i key w).
Proof.
  intros H. apply World_ok_put; [exact H|]. apply get_cache_ok, H.
Qed.

Lemma lookup_kinded i key w v :
  World_ok w -> lookup i key w = Some v -> kinded i key v.
Proof.
  intros Hw. unfold lookup, get.
  destruct (Map_get key (cache (cache_of i w))) as [e|] eqn:E; [|discriminate].
  destruct (_ >? _); [discriminate|]. intros [= <-].
  apply Map_get_In in E. destruct (Hw i) as [_ Hk].
  rewrite Forall_forall in Hk. exact (Hk _ E).
Qed.

(** *** Rules for [post] *)

Lemma post_weaken A (m : M A) w (Q Q' : A -> World -> Prop)
      (E E' : JsError -> World -> Prop) :
  post m w Q E ->
  (forall a w', Q a w' -> Q' a w') ->
  (forall e w', E e w' -> E' e w') ->
  post m w Q' E'.
Proof.
  unfold post. destruct (m w) as [[a|e|] w']; auto.
Qed.

Lemma post_conj A (m : M A) w (Q Q' : A -> World -> Prop)
      (E E' : JsError -> World -> Prop) :
  post m w Q E -> post m w Q' E' ->
  post m w (fun a w' => Q a w' /\ Q' a w') (fun e w' => E e w' /\ E' e w').
Proof.
  unfold post. destruct (m w) as [[a|e|] w']; auto.
Qed.

Lemma post_ret A (a : A) w (Q : A -> World -> Prop) E :
  Q a w -> post (ret a) w Q E.
Proof. trivial. Qed.

Lemma post_throw A e w (Q : A -> World -> Prop) (E : JsError -> World -> Prop) :
  E e w -> post (throw e) w Q E.
Proof. trivial. Qed.

Lemma post_bind A B (m : M A) (k : A -> M B) w Q E :
  post m w (fun a w' => post (k a) w' Q E) E -> post (bind m k) w Q E.
Proof.
  unfold post, bind. destruct (m w) as [[a|e|] w']; auto.
Qed.

Lemma post_try A (m : M A) (h : JsError -> M A) w Q E :
  post m w Q (fun e w' => post (h e) w' Q E) -> post (try_catch m h) w Q E.
Proof.
  unfold post, try_catch. destruct (m w) as [[a|e|] w']; auto.
Qed.

Lemma post_forOf A B (f : A -> M B) (R : A -> B -> Prop) (I : World -> Prop)
      E xs w :
  (forall x w0, In x xs -> I w0 -> post (f x) w0 (fun y w' => R x y /\ I w') E) ->
  (forall e w0, E e w0 -> False) ->
  I w ->
  post (forOf f xs) w (fun ys w' => Forall2 R xs ys /\ I w') E.
Proof.
  intros Hf HE. revert w. induction xs as [|x xs IH]; intros w HI; simpl.
  - apply post_ret. split; [constructor|exact HI].
  - apply post_bind.
    eapply post_weaken; [apply (Hf x w); [now left|exact HI]| |trivial].
    intros y w1 [Hy HI1]. cbv beta.
    apply post_bind.
    eapply post_weaken; [apply IH; [|exact HI1]| |trivial].
    + intros x0 w0 Hin. apply Hf. now right.
    + intros ys w2 [Hys HI2]. apply post_ret. split; [now constructor|exact HI2].
Qed.

Lemma post_call A (req : Request) (reply : nat -> Reply A) w
      (Q : A -> World -> Prop) (E : JsError -> World -> Prop) :
  let r := reply (List.length (calls w)) in
  (forall e, settled r = inl e -> E e (logged req (elapsed r) w)) ->
  (forall a, settled r = inr a -> Q a (logged req (elapsed r) w)) ->
  post (call req reply) w Q E.
Proof.
  intros r HE HQ. unfold post, call. fold r.
  destruct (settled r); auto.
Qed.

Lemma post_sleep ms w (Q : unit -> World -> Prop) E :
  Q tt (set_clock (clock w + ms) w) -> post (sleep ms) w Q E.
Proof. trivial. Qed.

Lemma post_Date_now w (Q : Z -> World -> Prop) E :
  Q (clock w) w -> post Date_now w Q E.
Proof. trivial. Qed.

Lemma post_isAuthenticated w (Q : bool -> World -> Prop) E :
  Q (authenticated w) w -> post isAuthenticated w Q E.
Proof. trivial. Qed.

Lemma post_cache_set i key v t w (Q : unit -> World -> Prop) E :
  Q tt (put_cache i (set key v t (clock w) (clock w) (cache_of i w)) w) ->
  post (cache_set i key v t) w Q E.
Proof. trivial. Qed.

(** A lookup in a well-formed state: a hit leaves the state as it is and
    yields a value of the asserted type; otherwise the fetcher goes on in
    the state after the lookup. *)
Lemma post_cached A i key (cast : CacheValue -> option A) w
      (Q : option A -> World -> Prop) E :
  World_ok w ->
  (forall v, kinded i key v -> truthy v = true -> exists a, cast v = Some a) ->
  (forall a, Q (Some a) w) ->
  Q None (after_lookup i key w) ->
  post (cached i key cast) w Q E.
Proof.
  intros Hw Hcast Hhit Hmiss. unfold post.
  destruct (lookup i key w) as [v|] eqn:L.
  - destruct (truthy v) eqn:Tv.
    + destruct (Hcast v (lookup_kinded _ _ Hw L) Tv) as [a Ha].
      rewrite (cached_hit _ _ _ _ L Tv Ha). apply Hhit.
    + rewrite cached_miss by (unfold misses; now rewrite L). exact Hmiss.
  - rewrite cached_miss by (unfold misses; now rewrite L). exact Hmiss.
Qed.

Lemma post_cached_miss A i key (cast : CacheValue -> option A) w
      (Q : option A -> World -> Prop) E :
  misses i key w ->
  Q None (after_lookup i key w) ->
  post (cached i key cast) w Q E.
Proof. intros Hm HQ. unfold post. now rewrite cached_miss. Qed.

Lemma post_run_Return A (m : M A) w a w' (Q : A -> World -> Prop) E :
  m w = (Return a, w') -> Q a w' -> post m w Q E.
Proof. intros R HQ. unfold post. now rewrite R. Qed.

Lemma post_returns A (m : M A) w (Q : A -> World -> Prop) :
  post m w Q (fun _ _ => False) ->
  exists a w', m w = (Return a, w') /\ Q a w'.
Proof.
  unfold post. destruct (m w) as [[a|e|] w']; [eauto|tauto|tauto].
Qed.

Lemma post_throws A (m : M A) w (E : JsError -> World -> Prop) :
  post m w (fun _ _ => False) E ->
  exists e w', m w = (Throw e, w') /\ E e w'.
Proof.
  unfold post. destruct (m w) as [[a|e|] w']; [tauto|eauto|tauto].
Qed.

Lemma not_found_not_rate_limit e :
  status_is e 404 = true -> isRateLimitError e = false.
Proof.
  unfold status_is, isRateLimitError. destruct (status e) as [n|]; [|discriminate].
  intros H. apply Z.eqb_eq in H. subst n. reflexivity.
Qed.

Lemma Error_not_rate_limit msg : isRateLimitError (Error msg) = false.
Proof. reflexivity. Qed.

(** A miss stays a miss while nothing is stored in the cache. *)
Lemma misses_persist i key w w' :
  World_ok w -> misses i key w ->
  cache_of i w' = cache_of i (after_lookup i key w) ->
  misses i key w'.
Proof.
  intros Hw Hm Ec. unfold misses, lookup in *. rewrite Ec.
  unfold after_lookup. rewrite cache_of_put_same.
  destruct (Hw i) as [Hnd _]. revert Hm. unfold get at 1 3.
  destruct (Map_get key (cache (cache_of i w))) as [entry|] eqn:G.
  - destruct (clock w >? expiresAt entry); simpl.
    + intros _. unfold get. simpl. now rewrite Map_get_delete.
    + intros Ht. unfold get. rewrite G.
      now destruct (clock w' >? expiresAt entry).
  - intros _. simpl. unfold get. now rewrite G.
Qed.

Lemma calls_of_logged p req ms w :
  calls_of p (logged req ms w) = calls_of p w + (if p req then 1 else 0).
Proof.
  unfold calls_of, count_if. simpl. destruct (p req); simpl; lia.
Qed.

Lemma calls_of_quota_step p w w' :
  quota_step w w' -> p RateLimitGet = false -> calls_of p w' = calls_of p w.
Proof.
  intros (_ & _ & _ & _ & [E|E]) Hp; unfold calls_of, count_if; rewrite E;
    [reflexivity|]. simpl. now rewrite Hp.
Qed.

Lemma isGetContent_refl owner repo path :
  isGetContent owner repo path (GetContent owner repo path) = true.
Proof. simpl. now rewrite !String.eqb_refl. Qed.

(** *** The rate-limit tracker *)

Lemma quota_step_refl w : World_ok w -> quota_step w w.
Proof. intros H. unfold quota_step. intuition. Qed.

Lemma quota_step_trans w1 w2 w3 :
  quota_step w1 w2 -> calls w3 = calls w2 -> token w3 = token w2 ->
  repoCache w3 = repoCache w2 -> contentCache w3 = contentCache w2 ->
  World_ok w3 -> quota_step w1 w3.
Proof.
  intros (H1 & H2 & H3 & H4 & H5) Ec Et Er Ek Hw. unfold quota_step.
  split; [exact Hw|]. do 3 (split; [congruence|]). rewrite Ec. exact H5.
Qed.

Lemma kinded_rate_limit r : kinded RateLimitCache "rate-limit" (VRateLimit r).
Proof. simpl. discriminate. Qed.

Section Tracker.
Variable env : Env.

Lemma World_ok_logged req ms w : World_ok w -> World_ok (logged req ms w).
Proof. apply World_ok_same. now intros []. Qed.

Lemma World_ok_set_clock t w : World_ok w -> World_ok (set_clock t w).
Proof. apply World_ok_same. now intros []. Qed.

Lemma quota_step_logged w w1 ms :
  quota_step w w1 -> calls w1 = calls w ->
  quota_step w (logged RateLimitGet ms w1).
Proof.
  intros (H1 & H2 & H3 & H4 & _) Ec. split; [now apply World_ok_logged|].
  simpl. rewrite Ec. intuition.
Qed.

Lemma getRateLimit_post w :
  World_ok w ->
  post (getRateLimit env) w (fun _ w' => quota_step w w')
       (fun _ w' => quota_step w w' /\
                    exists n e, settled (rateLimit_get env n) = inl e).
Proof.
  intros Hw. unfold getRateLimit. apply post_bind.
  pose proof (World_ok_after_lookup RateLimitCache "rate-limit" Hw) as Hw1.
  assert (Q1 : quota_step w (after_lookup RateLimitCache "rate-limit" w)).
  { split; [exact Hw1|]. unfold after_lookup. simpl. intuition. }
  apply post_cached; [exact Hw| | |].
  - intros v K _. destruct v; simpl in K; try congruence.
    eexists; reflexivity.
  - intros r. apply post_ret. now apply quota_step_refl.
  - set (w1 := after_lookup RateLimitCache "rate-limit" w) in *.
    assert (Ec : calls w1 = calls w) by apply calls_put.
    apply post_try, post_bind, post_call.
    + intros e He. apply post_throw.
      split; [now apply quota_step_logged|eauto].
    + intros rate _. apply post_bind, post_isAuthenticated, post_bind.
      apply post_cache_set, post_ret.
      set (w2 := logged RateLimitGet _ w1).
      assert (Q2 : quota_step w w2) by now apply quota_step_logged.
      destruct Q2 as (K1 & K2 & K3 & K4 & K5).
      split; [|simpl; intuition].
      apply World_ok_put; [exact K1|].
      apply set_cache_ok; [apply K1|apply kinded_rate_limit].
Qed.

(** The tracker calls the provider exactly when it has no snapshot. *)
Lemma getRateLimit_calls w :
  World_ok w ->
  post (getRateLimit env) w
       (fun _ w' => calls w' = if has_snapshot w then calls w
                               else RateLimitGet :: calls w)
       (fun _ _ => True).
Proof.
  intros Hw. unfold getRateLimit, has_snapshot. apply post_bind.
  destruct (lookup RateLimitCache "rate-limit" w) as [v|] eqn:L.
  - pose proof (lookup_kinded _ _ Hw L) as K.
    destruct v; simpl in K; try congruence.
    eapply post_run_Return; [eapply cached_hit; eauto; reflexivity|].
    now apply post_ret.
  - apply post_cached_miss; [unfold misses; now rewrite L|].
    apply post_try, post_bind, post_call.
    + intros e _. exact I.
    + intros rate _. apply post_bind, post_isAuthenticated, post_bind.
      apply post_cache_set, post_ret. reflexivity.
Qed.

Lemma getRateLimit_resolves w :
  World_ok w ->
  (forall n, exists rate, settled (rateLimit_get env n) = inr rate) ->
  exists r w', getRateLimit env w = (Return r, w') /\ quota_step w w'.
Proof.
  intros Hw Hnet. pose proof (getRateLimit_post Hw) as P. unfold post in P.
  destruct (getRateLimit env w) as [[r|e|] w']; [eauto| |destruct P].
  destruct P as (_ & n & e0 & He). destruct (Hnet n) as [rate Hr]. congruence.
Qed.

(** The wait before a retry: never an exception, and a retry only while
    [retryCount] is below 2. *)
Lemma waitForReset_post retryCount w :
  World_ok w ->
  post (waitForReset env retryCount) w
       (fun again w' => quota_step w w' /\ (again = true -> retryCount < 2))
       (fun _ _ => False).
Proof.
  intros Hw. unfold waitForReset. apply post_try, post_bind.
  eapply post_weaken; [apply getRateLimit_post; exact Hw| |].
  - intros r w1 Q1. cbv beta. unfold post, bind, Date_now.
    destruct ((retryCount <? 2) && _) eqn:C; simpl.
    + apply andb_prop in C. destruct C as [C _]. apply Z.ltb_lt in C.
      split; [|intros _; exact C].
      eapply quota_step_trans; [exact Q1| | | | |]; try reflexivity.
      eapply World_ok_same; [|apply Q1]. now intros [].
    + split; [exact Q1|discriminate].
  - intros e w1 [Q1 _]. cbv beta. simpl. split; [exact Q1|discriminate].
Qed.



End Tracker.

End FetchFacts.

(* ================================================================= *)
(** ** The fetchers: error handling *)

Module FetchSpec.

Import Cache GitHub CacheFacts FetchFacts.
Local Open Scope js_scope.

Lemma get_after_set_entry (T : Type) key (d : T) t now now' (c : ApiCache T) :
  Map_get key (cache (set key d t now now' c))
  = Some {| data := d; timestamp := now;
            expiresAt := now + ttl_or_default t c |}.
Proof. apply CacheSpec.get_after_set. Qed.

Ltac rejected_with Hrej He :=
  let e' := fresh "e" in
  let E1 := fresh "E" in
  let E2 := fresh "E" in
  match type of He with
  | settled (?reply ?n) = _ =>
      destruct (Hrej n) as (e' & E1 & E2); rewrite E1 in He;
      first [discriminate He | injection He as <-]
  end.

(** C5, as the code has it.  When the provider rejects the request as not
    found: [getRepoContents] and [getContributors] return an empty list;
    [getRepoDetails] throws the not-found error; [getFileContent] does not
    throw but returns the placeholder ["// File not found: <path>"]. *)
Theorem not_found_handling :
  forall (env : Env) (owner repo path : string) (maxSize retryCount : Z)
         (w : World),
    (misses ContentCache ("repo-contents:" +++ owner +++ "/" +++ repo +++ ":" +++ path) w ->
     shouldSkipPath path = false ->
     always_rejects (repos_getContent env owner repo path)
                    (fun e => status_is e 404) ->
     fst (getRepoContents env owner repo path maxSize retryCount w) = Return [])
    /\
    (misses RepoCache ("contributors:" +++ owner +++ "/" +++ repo) w ->
     always_rejects (repos_listContributors env owner repo)
                    (fun e => status_is e 404) ->
     fst (getContributors env owner repo w) = Return [])
    /\
    (misses RepoCache ("repo-details:" +++ owner +++ "/" +++ repo) w ->
     World_ok w ->
     (forall n, exists rate, settled (rateLimit_get env n) = inr rate) ->
     always_rejects (repos_get env owner repo) (fun e => status_is e 404) ->
     fst (getRepoDetails env owner repo w) = Throw (Error repoNotFound))
    /\
    (misses ContentCache ("file-content:" +++ owner +++ "/" +++ repo +++ ":" +++ path) w ->
     shouldSkipPath path = false ->
     always_rejects (repos_getContent env owner repo path)
                    (fun e => status_is e 404) ->
     fst (getFileContent env owner repo path retryCount w)
     = Return ("// File not found: " +++ path)).
Proof.
  intros env owner repo path maxSize retryCount w.
  split; [|split; [|split]].
  - intros Hm Hskip Hrej.
    assert (P : post (getRepoContents env owner repo path maxSize retryCount) w
                     (fun l _ => l = []) (fun _ _ => False)).
    { unfold getRepoContents. cbn [getRepoContents_fuel].
      apply post_bind, post_cached_miss; [exact Hm|].
      apply post_bind, post_try. rewrite Hskip.
      apply post_bind, post_call.
      - intros e He. rejected_with Hrej He.
        rewrite (not_found_not_rate_limit _ E0), E0.
        now do 2 apply post_ret.
      - intros a Ha. rejected_with Hrej Ha. }
    apply post_returns in P. destruct P as (l & w' & -> & ->). reflexivity.
  - intros Hm Hrej.
    assert (P : post (getContributors env owner repo) w
                     (fun l _ => l = []) (fun _ _ => False)).
    { unfold getContributors.
      apply post_bind, post_cached_miss; [exact Hm|].
      apply post_try, post_bind, post_call.
      - intros e He. rejected_with Hrej He.
        unfold ENABLE_UNGH_FALLBACK. cbn [andb].
        apply post_bind, post_ret.
        rewrite (not_found_not_rate_limit _ E0). now apply post_ret.
      - intros a Ha. rejected_with Hrej Ha. }
    apply post_returns in P. destruct P as (l & w' & -> & ->). reflexivity.
  - intros Hm Hw Hrate Hrej.
    assert (P : post (getRepoDetails env owner repo) w
                     (fun _ _ => False) (fun e _ => e = Error repoNotFound)).
    { unfold getRepoDetails.
      apply post_bind, post_cached_miss; [exact Hm|].
      pose proof (World_ok_after_lookup RepoCache
                    ("repo-details:" +++ owner +++ "/" +++ repo) Hw) as Hw1.
      destruct (getRateLimit_resolves env Hw1 Hrate) as (r & w2 & G & _).
      apply post_try, post_bind. eapply post_run_Return; [exact G|].
      apply post_bind, post_call.
      - intros e He. rejected_with Hrej He.
        unfold ENABLE_UNGH_FALLBACK. cbn [andb].
        apply post_bind, post_ret. unfold handleApiError.
        rewrite (not_found_not_rate_limit _ E0), E0.
        now apply post_throw.
      - intros a Ha. rejected_with Hrej Ha. }
    apply post_throws in P. destruct P as (e & w' & -> & ->). reflexivity.
  - intros Hm Hskip Hrej.
    assert (P : post (getFileContent env owner repo path retryCount) w
                     (fun s _ => s = fileNotFound path) (fun _ _ => False)).
    { unfold getFileContent. cbn [getFileContent_fuel].
      apply post_bind, post_cached_miss; [exact Hm|].
      apply post_bind, post_try. rewrite Hskip.
      apply post_bind, post_call.
      - intros e He. rejected_with Hrej He.
        rewrite (not_found_not_rate_limit _ E0), E0.
        now do 2 apply post_ret.
      - intros a Ha. rejected_with Hrej Ha. }
    apply post_returns in P. destruct P as (l & w' & -> & ->). reflexivity.
Qed.

Lemma not_found_handling_witness :
  fst (getRepoContents Examples.missing_repo "octo" "demo" "README.md" 1000 0
                       Examples.fresh) = Return []
  /\ fst (getContributors Examples.missing_repo "octo" "demo" Examples.fresh)
     = Return []
  /\ fst (getRepoDetails Examples.missing_repo "octo" "demo" Examples.fresh)
     = Throw (Error repoNotFound)
  /\ fst (getFileContent Examples.missing_repo "octo" "demo" "README.md" 0
                         Examples.fresh)
     = Return "// File not found: README.md".
Proof.
  destruct (not_found_handling Examples.missing_repo "octo" "demo" "README.md"
              1000 0 Examples.fresh) as (H1 & H2 & H3 & H4).
  assert (R : forall A (f : nat -> Reply A),
             (forall n, f n = Examples.rejected Examples.notFound) ->
             always_rejects f (fun e => status_is e 404)).
  { intros A f Hf n. exists Examples.notFound. rewrite Hf. split; reflexivity. }
  split; [|split; [|split]].
  - apply H1; [exact I|reflexivity|now apply R].
  - apply H2; [exact I|now apply R].
  - apply H3; [exact I|apply World_ok_initial| |now apply R].
    intros n. eexists. reflexivity.
  - apply H4; [exact I|reflexivity|now apply R].
Defined.

(** On a not-found rejection [getFileContent] returns a string; it throws
    nothing. *)
Lemma getFileContent_not_found_counterexample :
  fst (getFileContent Examples.missing_repo "octo" "demo" "README.md" 0
                      Examples.fresh)
  = Return "// File not found: README.md"
  /\ forall e,
       fst (getFileContent Examples.missing_repo "octo" "demo" "README.md" 0
                           Examples.fresh) <> Throw e.
Proof. split; [reflexivity|discriminate]. Qed.

(** *** Repository details and the cache *)

Lemma post_handleApiError A error entityName w (Q : A -> World -> Prop) :
  post (handleApiError error entityName) w Q (fun _ _ => True).
Proof.
  unfold handleApiError.
  destruct (isRateLimitError error); [now apply post_bind, post_isAuthenticated|].
  destruct (status_is error 404); [exact I|].
  destruct (status_is error 422); exact I.
Qed.

Lemma get_options (T : Type) key now (c : ApiCache T) :
  options (snd (get key now c)) = options c.
Proof. exact (exec_options (OpGet _ key now) c). Qed.

Section Details.
Variables (env : Env) (owner repo : string).

(** What a successful fetch of the details leaves behind. *)
Lemma getRepoDetails_post w :
  World_ok w ->
  misses RepoCache (detailsKey owner repo) w ->
  post (getRepoDetails env owner repo) w
       (fun d w1 =>
          calls w1 = ReposGet owner repo ::
                       (if has_snapshot w then calls w
                        else RateLimitGet :: calls w) /\
          Map_get (detailsKey owner repo) (cache (repoCache w1))
          = Some {| data := VRepoDetails d; timestamp := clock w1;
                    expiresAt := clock w1 + ttl (options (repoCache w)) |})
       (fun _ _ =>
          exists n e, settled (rateLimit_get env n) = inl e \/
                      settled (repos_get env owner repo n) = inl e).
Proof.
  intros Hw Hm. unfold getRepoDetails. fold (detailsKey owner repo).
  apply post_bind, post_cached_miss; [exact Hm|].
  set (w0 := after_lookup RepoCache (detailsKey owner repo) w).
  assert (Hw0 : World_ok w0) by now apply World_ok_after_lookup.
  assert (Eo : options (repoCache w0) = options (repoCache w))
    by apply get_options.
  assert (Ec : calls w0 = calls w) by apply calls_put.
  assert (Es : has_snapshot w0 = has_snapshot w) by reflexivity.
  apply post_try, post_bind.
  eapply post_weaken;
    [apply (@post_conj _ _ _ _ _ _ _ (getRateLimit_post env Hw0)
                       (getRateLimit_calls env Hw0))
    | |].
  - intros r w2 [(_ & _ & Er & _ & _) Ec2]. cbv beta.
    rewrite Es, Ec in Ec2.
    apply post_bind, post_call.
    + intros e He. unfold ENABLE_UNGH_FALLBACK. cbn [andb].
      apply post_bind, post_ret.
      eapply post_weaken;
        [apply (@post_handleApiError _ _ _ _ (fun _ _ => False))
        |intros ? ? []|].
      intros ? ? _. do 2 eexists. right. exact He.
    + intros data _. apply post_bind, post_cache_set, post_ret.
      cbn [put_cache calls clock repoCache logged cache_of]. split.
      * now rewrite Ec2.
      * rewrite get_after_set_entry. do 3 f_equal.
        cbn [ttl_or_default]. congruence.
  - intros e w2 [(_ & n & e0 & He) _]. cbv beta.
    unfold ENABLE_UNGH_FALLBACK. cbn [andb].
    apply post_bind, post_ret.
    eapply post_weaken;
      [apply (@post_handleApiError _ _ _ _ (fun _ _ => False))
      |intros ? ? []|].
    intros ? ? _. do 2 eexists. left. exact He.
Qed.

Lemma getRepoDetails_hit w d entry :
  Map_get (detailsKey owner repo) (cache (repoCache w)) = Some entry ->
  data entry = VRepoDetails d ->
  clock w <= expiresAt entry ->
  getRepoDetails env owner repo w = (Return d, w).
Proof.
  intros Hg Hd Ht. unfold getRepoDetails. fold (detailsKey owner repo).
  unfold bind.
  rewrite (@cached_hit _ RepoCache (detailsKey owner repo) asRepoDetails w
             (VRepoDetails d) d); try reflexivity.
  unfold lookup. simpl cache_of.
  rewrite (CacheSpec.get_fresh _ _ Hg Ht). simpl. now rewrite Hd.
Qed.

End Details.

(** C7, as the code has it.  A call of [getRepoDetails] that finds nothing
    cached and succeeds issues exactly one [repos.get] call, preceded by
    exactly one rate-limit call unless a rate-limit snapshot is cached.  A second call
    made before the stored entry expires (the time-to-live of the repository
    cache after the first call returned) returns the same details, issues
    no network call and leaves the state as it is.  The first call succeeds
    whenever the provider answers both requests. *)
Theorem getRepoDetails_second_call_is_a_hit :
  forall (env : Env) (owner repo : string) (w : World),
    World_ok w ->
    misses RepoCache (detailsKey owner repo) w ->
    (forall d w1,
        getRepoDetails env owner repo w = (Return d, w1) ->
        calls w1 = ReposGet owner repo ::
                     (if has_snapshot w then calls w
                      else RateLimitGet :: calls w) /\
        forall t2,
          t2 <= clock w1 + ttl (options (repoCache w)) ->
          getRepoDetails env owner repo (set_clock t2 w1)
          = (Return d, set_clock t2 w1))
    /\
    ((forall n, exists rate, settled (rateLimit_get env n) = inr rate) ->
     (forall n, exists data, settled (repos_get env owner repo n) = inr data) ->
     exists d w1, getRepoDetails env owner repo w = (Return d, w1)).
Proof.
  intros env owner repo w Hw Hm.
  pose proof (getRepoDetails_post env owner repo Hw Hm) as P. unfold post in P.
  split.
  - intros d w1 R. rewrite R in P. destruct P as [Hc Hg]. split; [exact Hc|].
    intros t2 Ht. eapply getRepoDetails_hit; [exact Hg|reflexivity|exact Ht].
  - intros Hrate Hrepo.
    destruct (getRepoDetails env owner repo w) as [[d|e|] w1]; [eauto| |tauto].
    destruct P as (n & e0 & [He|He]).
    + destruct (Hrate n) as [x Hx]. congruence.
    + destruct (Hrepo n) as [x Hx]. congruence.
Qed.

Lemma getRepoDetails_second_call_is_a_hit_witness :
  let w1 := snd (getRepoDetails Examples.serving "octo" "demo" Examples.fresh) in
  getRepoDetails Examples.serving "octo" "demo"
                 (set_clock (clock w1 + 600000) w1)
  = (Return (normalizeRepo Examples.demo_repo),
     set_clock (clock w1 + 600000) w1).
Proof.
  intros w1.
  apply (proj1 (getRepoDetails_second_call_is_a_hit
                  Examples.serving "octo" "demo"
                  (World_ok_initial 1705000000000 None) I)
           (normalizeRepo Examples.demo_repo) w1 eq_refl).
  vm_compute. discriminate.
Defined.

(** On a freshly loaded module the two calls issue two network calls in
    total: the first call asks for the rate limit before it asks for the
    repository. *)
Lemma getRepoDetails_two_network_calls_counterexample :
  let first := getRepoDetails Examples.serving "octo" "demo" Examples.fresh in
  let second := getRepoDetails Examples.serving "octo" "demo" (snd first) in
  fst first = Return (normalizeRepo Examples.demo_repo) /\
  fst second = fst first /\
  calls (snd second) = [ReposGet "octo" "demo"; RateLimitGet] /\
  List.length (calls (snd second)) <> 1%nat.
Proof. repeat split. discriminate. Qed.

(** *** Directory listings under a rate limit *)

Section RateLimited.
Variables (env : Env) (owner repo path : string) (maxSize : Z).
Hypothesis not_skipped : shouldSkipPath path = false.
Hypothesis rate_limited :
  always_rejects (repos_getContent env owner repo path) isRateLimitError.

Local Abbreviation attempts w := (calls_of (isGetContent owner repo path) w).

Lemma getRepoContents_gives_up (n : nat) :
  forall (retryCount : Z) (w : World),
    (Z.to_nat (2 - retryCount) < n)%nat ->
    World_ok w ->
    misses ContentCache (contentsKey owner repo path) w ->
    post (getRepoContents_fuel env n owner repo path maxSize retryCount) w
         (fun _ _ => False)
         (fun e w' =>
            (e = Error (contentsRateLimited path (authenticated w)) /\
             token w' = token w) /\
            1 <= attempts w' - attempts w
              <= Z.of_nat (Z.to_nat (2 - retryCount)) + 1).
Proof.
  induction n as [|n IH]; intros r w Hn Hw Hm; [lia|].
  cbn [getRepoContents_fuel]. fold (contentsKey owner repo path).
  apply post_bind, post_cached_miss; [exact Hm|].
  set (w0 := after_lookup ContentCache (contentsKey owner repo path) w).
  assert (Hw0 : World_ok w0) by (now apply World_ok_after_lookup).
  assert (A0 : attempts w0 = attempts w)
    by (unfold calls_of, w0, after_lookup; now rewrite calls_put).
  assert (T0 : token w0 = token w) by apply token_put.
  apply post_bind, post_try. rewrite not_skipped.
  apply post_bind, post_call;
    [|intros a Ha; rejected_with rate_limited Ha].
  intros e He. rejected_with rate_limited He. rewrite E0.
  set (w1 := logged _ _ w0).
  assert (Hw1 : World_ok w1) by (now apply World_ok_logged).
  assert (A1 : attempts w1 = attempts w + 1)
    by (unfold w1; rewrite calls_of_logged, isGetContent_refl; lia).
  apply post_bind.
  eapply post_weaken; [apply (waitForReset_post env r Hw1)| |intros ? ? []].
  intros again w2 [Q2 Hr]. cbv beta.
  pose proof (calls_of_quota_step (isGetContent owner repo path) Q2 eq_refl)
    as A2.
  pose proof Q2 as (Hw2 & T2 & _ & C2 & _).
  assert (Au : authenticated w2 = authenticated w)
    by (apply authenticated_token; simpl in T2; congruence).
  destruct again.
  - specialize (Hr eq_refl). apply post_ret.
    eapply post_weaken; [apply (IH (r + 1) w2); [lia|exact Hw2|]|trivial|].
    + eapply misses_persist; [exact Hw|exact Hm|]. simpl. exact C2.
    + intros e' w' [[-> Ht] Ha]. cbv beta. rewrite Au.
      split; [split; [reflexivity|simpl in T2; congruence]|lia].
  - apply post_bind, post_isAuthenticated, post_throw.
    rewrite Au. split; [split; [reflexivity|simpl in T2; congruence]|lia].
Qed.

End RateLimited.

(** C3.  When nothing is cached for the path, the path is not on the skip
    list and every [getContent] attempt is rejected with a rate-limit
    error, [getRepoContents] makes between one and three attempts (at most
    two retries), whatever the rate-limit tracker reports, and then throws
    the rate-limit error.  Its message ends with the advice to add a token
    in every state, also when [octokit] was made with a credential: the
    ending "Try again later." is never produced, because
    [isAuthenticated()] looks for the credential in [octokit.auth.token],
    where the library does not keep it. *)
Theorem getRepoContents_rate_limited_always_advises_a_token :
  forall (env : Env) (owner repo path : string) (maxSize : Z) (w : World),
    World_ok w ->
    misses ContentCache (contentsKey owner repo path) w ->
    shouldSkipPath path = false ->
    always_rejects (repos_getContent env owner repo path) isRateLimitError ->
    exists w',
      getRepoContents env owner repo path maxSize 0 w
      = (Throw (Error
           ("GitHub API rate limit exceeded when fetching contents for path: "
            +++ path +++
            ". Add a GitHub token to increase your rate limit from 60 to 5,000 requests per hour.")),
         w') /\
      token w' = token w /\
      1 <= calls_of (isGetContent owner repo path) w'
           - calls_of (isGetContent owner repo path) w <= 3.
Proof.
  intros env owner repo path maxSize w Hw Hm Hskip Hrej.
  pose proof (@getRepoContents_gives_up env owner repo path maxSize Hskip Hrej
                3 0 w (le_n _) Hw Hm) as P.
  apply post_throws in P. destruct P as (e & w' & R & (-> & Ht) & Hc).
  exists w'. split; [|split; [exact Ht|simpl in Hc; lia]].
  change (getRepoContents env owner repo path maxSize 0 w)
    with (getRepoContents_fuel env 3 owner repo path maxSize 0 w).
  rewrite R. reflexivity.
Qed.

(** The module loaded with [GITHUB_TOKEN] set, out of quota. *)
Lemma getRepoContents_rate_limited_always_advises_a_token_witness :
  exists w',
    getRepoContents Examples.out_of_quota "octo" "demo" "src" 1000 0
                    Examples.with_credential
    = (Throw (Error
         "GitHub API rate limit exceeded when fetching contents for path: src. Add a GitHub token to increase your rate limit from 60 to 5,000 requests per hour."),
       w') /\
    token w' = Some "ghp_example" /\
    1 <= calls_of (isGetContent "octo" "demo" "src") w'
         - calls_of (isGetContent "octo" "demo" "src") Examples.with_credential
      <= 3.
Proof.
  apply (getRepoContents_rate_limited_always_advises_a_token
           Examples.out_of_quota "octo" "demo" "src"
           1000 (World_ok_initial 1705000000000 (Some "ghp_example")) I eq_refl).
  intros n. exists Examples.rateLimited. split; reflexivity.
Defined.

(** *** Commit activity while the statistics are being computed *)

Lemma Error_status_is msg n : status_is (Error msg) n = false.
Proof. reflexivity. Qed.

Section StillComputing.
Variables (env : Env) (owner repo : string).
Hypothesis pending :
  forall n, exists d,
    settled (repos_getCommitActivityStats env owner repo n)
    = inr {| sr_status := 202; sr_data := d |}.

Lemma getCommitActivityAlternative_post w :
  post (getCommitActivityAlternative env owner repo) w
       (fun _ w' => calls_of isStats w' = calls_of isStats w)
       (fun _ _ => False).
Proof.
  unfold getCommitActivityAlternative.
  apply post_try, post_bind, post_Date_now, post_bind, post_call.
  - intros e _. apply post_ret. rewrite calls_of_logged. cbn [isStats]. lia.
  - intros data _.
    assert (calls_of isStats (logged (ListCommits owner repo
               (clock w - 30 * 24 * 60 * 60 * 1000))
               (elapsed (repos_listCommits env owner repo
                  (clock w - 30 * 24 * 60 * 60 * 1000) (List.length (calls w)))) w)
            = calls_of isStats w) as L
      by (rewrite calls_of_logged; cbn [isStats]; lia).
    destruct data as [[|c commits]|]; try (apply post_ret; exact L).
    apply post_bind, post_Date_now, post_ret. exact L.
Qed.

Lemma getCommitActivity_falls_back (n : nat) :
  forall (retryCount : Z) (w : World),
    (Z.to_nat (3 - retryCount) < n)%nat ->
    World_ok w ->
    misses RepoCache (activityKey owner repo) w ->
    post (getCommitActivity_fuel env n owner repo retryCount) w
         (fun _ w' =>
            calls_of isStats w' - calls_of isStats w
            = Z.of_nat (Z.to_nat (3 - retryCount)) + 1)
         (fun _ _ => False).
Proof.
  induction n as [|n IH]; intros r w Hn Hw Hm; [lia|].
  cbn [getCommitActivity_fuel]. fold (activityKey owner repo).
  apply post_bind, post_cached_miss; [exact Hm|].
  set (w0 := after_lookup RepoCache (activityKey owner repo) w).
  assert (Hw0 : World_ok w0) by (now apply World_ok_after_lookup).
  assert (A0 : calls_of isStats w0 = calls_of isStats w)
    by (unfold calls_of, w0, after_lookup; now rewrite calls_put).
  apply post_bind, post_try, post_bind, post_call.
  { intros e He. destruct (pending (List.length (calls w0))) as [d Hd].
    rewrite Hd in He. discriminate. }
  intros response Hr. destruct (pending (List.length (calls w0))) as [d Hd].
  rewrite Hd in Hr. injection Hr as <-. cbn [sr_status]. rewrite Z.eqb_refl.
  set (w1 := logged _ _ w0).
  assert (A1 : calls_of isStats w1 = calls_of isStats w + 1)
    by (unfold w1; rewrite calls_of_logged; simpl; lia).
  destruct (r <? 3) eqn:R.
  - apply Z.ltb_lt in R.
    apply post_bind, post_sleep, post_ret.
    eapply post_weaken;
      [apply (IH (r + 1) (set_clock (clock w1 + 3000) w1)); [lia| |]| |trivial].
    + now apply World_ok_set_clock, World_ok_logged.
    + eapply misses_persist; [exact Hw|exact Hm|reflexivity].
    + intros l w' Hc. cbv beta in *.
      change (calls_of isStats (set_clock (clock w1 + 3000) w1))
        with (calls_of isStats w1) in Hc. lia.
  - apply Z.ltb_ge in R.
    apply post_throw. rewrite Error_not_rate_limit, Error_status_is.
    apply post_try, post_bind.
    eapply post_weaken;
      [apply getCommitActivityAlternative_post| |intros ? ? []].
    intros l w' Hc. cbv beta in *. do 2 apply post_ret. lia.
Qed.

End StillComputing.

(** C4 on the code.  While the statistics endpoint keeps answering 202,
    [getCommitActivity] asks four times (the first attempt and three
    retries), and then does not throw the "still computing" error: the
    [throw] sits inside the [try] whose handler falls back to the
    alternative computation, so the caller receives a list. *)
Theorem getCommitActivity_still_computing_is_swallowed :
  forall (env : Env) (owner repo : string) (w : World),
    World_ok w ->
    misses RepoCache (activityKey owner repo) w ->
    (forall n, exists d,
        settled (repos_getCommitActivityStats env owner repo n)
        = inr {| sr_status := 202; sr_data := d |}) ->
    exists weeks w',
      getCommitActivity env owner repo 0 w = (Return weeks, w') /\
      calls_of isStats w' - calls_of isStats w = 4.
Proof.
  intros env owner repo w Hw Hm Hp.
  pose proof (@getCommitActivity_falls_back env owner repo Hp 4 0 w
                (le_n _) Hw Hm) as P.
  apply post_returns in P. destruct P as (l & w' & R & Hc).
  exists l, w'. split; [exact R|exact Hc].
Qed.

Lemma getCommitActivity_still_computing_is_swallowed_witness :
  exists weeks w',
    getCommitActivity Examples.still_computing "octo" "demo" 0 Examples.fresh
    = (Return weeks, w') /\
    calls_of isStats w' - calls_of isStats Examples.fresh = 4.
Proof.
  apply (getCommitActivity_still_computing_is_swallowed
           Examples.still_computing "octo" "demo"
           (World_ok_initial 1705000000000 None) I).
  intros n. eexists. reflexivity.
Defined.

(** *** File contents: placeholders and the one exception *)

Lemma prefix_nil s : String.prefix "" s = true.
Proof. now destruct s. Qed.

Lemma kinded_file_content owner repo path s :
  kinded ContentCache (fileKey owner repo path) (VString s).
Proof. unfold kinded, fileKey. simpl. rewrite prefix_nil. discriminate. Qed.

Section FileContent.
Variables (env : Env) (owner repo path : string).




End FileContent.




(** *** The file tree *)

Lemma kinded_contents owner repo path l :
  kinded ContentCache (contentsKey owner repo path) (VFileContents l).
Proof. unfold kinded, contentsKey. simpl. discriminate. Qed.

Lemma kinded_tree owner repo path maxDepth currentDepth l :
  kinded ContentCache (treeKey owner repo path maxDepth currentDepth)
         (VFileContents l).
Proof. unfold kinded, treeKey. simpl. discriminate. Qed.

Lemma cast_contents owner repo path v :
  kinded ContentCache (contentsKey owner repo path) v ->
  exists l, asFileContents v = Some l.
Proof.
  unfold kinded, contentsKey. simpl. destruct v; simpl; try congruence. eauto.
Qed.

Lemma cast_tree owner repo path maxDepth currentDepth v :
  kinded ContentCache (treeKey owner repo path maxDepth currentDepth) v ->
  exists l, asFileContents v = Some l.
Proof.
  unfold kinded, treeKey. simpl. destruct v; simpl; try congruence. eauto.
Qed.

Lemma indexed_fst (A : Type) (l : list A) (start : nat) :
  map fst (combine (seq start (List.length l)) l) = seq start (List.length l).
Proof.
  revert start. induction l as [|x l IH]; intros start; [reflexivity|].
  simpl. now rewrite IH.
Qed.

Lemma indexed_NoDup (A : Type) (l : list A) : NoDup (map fst (indexed l)).
Proof. unfold indexed. rewrite indexed_fst. apply seq_NoDup. Qed.

Lemma filter_NoDup_fst (A : Type) (p : nat * A -> bool) (l : list (nat * A)) :
  NoDup (map fst l) -> NoDup (map fst (filter p l)).
Proof.
  induction l as [|x l IH]; simpl; [trivial|].
  intros H. inversion H as [|? ? Hx Hl]; subst.
  destruct (p x); [|now apply IH].
  simpl. constructor; [|now apply IH].
  intros H'. apply Hx. rewrite in_map_iff in *.
  destruct H' as (y & E & Hin). exists y. split; [exact E|].
  now apply filter_In in Hin.
Qed.

(** Among distinct objects, the ones found in the first [k] are the first
    [k]. *)
Lemma includes_firstn k (dirs : list (nat * FileContent)) :
  NoDup (map fst dirs) ->
  filter (includes_item (firstn k dirs)) dirs = firstn k dirs.
Proof.
  intros H. rewrite <- (firstn_skipn k dirs) at 2.
  rewrite filter_app.
  rewrite (filter_none (includes_item (firstn k dirs)) (skipn k dirs)).
  - rewrite app_nil_r. apply forallb_filter_id, forallb_forall.
    intros x Hx. unfold includes_item. apply existsb_exists.
    exists x. split; [exact Hx|apply Nat.eqb_refl].
  - intros x Hx. unfold includes_item.
    destruct (existsb _ (firstn k dirs)) eqn:X; [|reflexivity].
    apply existsb_exists in X. destruct X as (d & Hd & E).
    apply Nat.eqb_eq in E. exfalso.
    rewrite <- (firstn_skipn k dirs), map_app in H.
    apply (@NoDup_app_disjoint _ (fst x) _ _ H).
    + rewrite <- E. now apply in_map.
    + now apply in_map.
Qed.

(** The directories descended into are the first 25 of the listing. *)
Lemma expanded_first_dirs (contents : list FileContent) :
  filter (expanded contents) (indexed contents)
  = firstn 25 (filter (fun item => isDir (snd item)) (indexed contents)).
Proof.
  unfold expanded, dirsToProcess. rewrite JsFacts.slice0_nonneg by lia.
  rewrite <- filter_filter_and. apply includes_firstn.
  apply filter_NoDup_fst, indexed_NoDup.
Qed.

(** Two runs that agree step by step agree. *)
Lemma bind_cong A B (m1 m2 : M A) (k1 k2 : A -> M B) w :
  m1 w = m2 w ->
  (forall a w', m2 w = (Return a, w') -> k1 a w' = k2 a w') ->
  bind m1 k1 w = bind m2 k2 w.
Proof.
  intros Em Hk. unfold bind. rewrite Em.
  destruct (m2 w) as [[a|e|] w'] eqn:E; auto.
Qed.

Lemma try_cong A (m1 m2 : M A) (h : JsError -> M A) w :
  m1 w = m2 w -> try_catch m1 h w = try_catch m2 h w.
Proof. intros Em. unfold try_catch. now rewrite Em. Qed.

Lemma forOf_cong A B (f g : A -> M B) (I : World -> Prop) xs :
  (forall x w0, I w0 -> f x w0 = g x w0) ->
  (forall x w0 y w', I w0 -> g x w0 = (Return y, w') -> I w') ->
  forall w, I w -> forOf f xs w = forOf g xs w.
Proof.
  intros Hfg Hinv. induction xs as [|x xs IH]; intros w HI; [reflexivity|].
  cbn [forOf]. apply bind_cong; [now apply Hfg|].
  intros y w' Ey. apply bind_cong; [|reflexivity].
  apply IH. exact (Hinv _ _ _ _ HI Ey).
Qed.

Section Tree.
Variables (env : Env) (owner repo : string).

(** A listing never leaves the caches ill formed, and what it throws is a
    plain [Error]. *)
Lemma getRepoContents_post (n : nat) :
  forall (path : string) (maxSize retryCount : Z) (w : World),
    (Z.to_nat (2 - retryCount) < n)%nat ->
    World_ok w ->
    post (getRepoContents_fuel env n owner repo path maxSize retryCount) w
         (fun _ w' => World_ok w')
         (fun e w' => World_ok w' /\ exists msg, e = Error msg).
Proof.
  induction n as [|n IH]; intros path maxSize r w Hn Hw; [lia|].
  cbn [getRepoContents_fuel]. fold (contentsKey owner repo path).
  apply post_bind, post_cached; [exact Hw| | |].
  - intros v K _. exact (cast_contents K).
  - intros l. now apply post_ret.
  - set (w0 := after_lookup ContentCache (contentsKey owner repo path) w).
    assert (Hw0 : World_ok w0) by (now apply World_ok_after_lookup).
    apply post_bind, post_try.
    destruct (shouldSkipPath path); [now do 2 apply post_ret|].
    apply post_bind, post_call.
    + intros e _. set (w1 := logged _ _ w0).
      assert (Hw1 : World_ok w1) by (now apply World_ok_logged).
      destruct (isRateLimitError e).
      * apply post_bind.
        eapply post_weaken; [apply (waitForReset_post env r Hw1)| |intros ? ? []].
        intros again w2 [(Hw2 & _) Hr]. cbv beta. destruct again.
        -- specialize (Hr eq_refl). apply post_ret. apply IH; [lia|exact Hw2].
        -- apply post_bind, post_isAuthenticated, post_throw. eauto.
      * destruct (status_is e 404); now do 2 apply post_ret.
    + intros data _. apply post_bind, post_cache_set. do 2 apply post_ret.
      apply World_ok_put; [now apply World_ok_logged|].
      apply set_cache_ok; [apply World_ok_logged, Hw0|apply kinded_contents].
Qed.

Lemma getRepoContents_ok path maxSize w :
  World_ok w ->
  post (getRepoContents env owner repo path maxSize 0) w
       (fun _ w' => World_ok w')
       (fun e w' => World_ok w' /\ exists msg, e = Error msg).
Proof. intros Hw. apply getRepoContents_post; [simpl; lia|exact Hw]. Qed.

(** One element of the listing. *)
Lemma treeEntry_post (descend : string -> M (list FileContent))
      (contents : list FileContent) (item : nat * FileContent) w :
  World_ok w ->
  (forall p w0, World_ok w0 ->
     post (descend p) w0 (fun _ w' => World_ok w') (fun _ _ => False)) ->
  post (treeEntry descend (dirsToProcess (indexed contents)) item) w
       (fun entry w' => tree_entry_of contents item entry /\ World_ok w')
       (fun _ _ => False).
Proof.
  intros Hw Hd. unfold treeEntry, tree_entry_of, expanded.
  destruct (isDir (snd item) && _).
  - apply post_try, post_bind.
    eapply post_weaken; [apply Hd; exact Hw| |intros ? ? []].
    intros ch w' Hw'. apply post_ret. eauto.
  - apply post_ret. auto.
Qed.

(** The tree builder always returns. *)
Lemma buildFileTree_post (n : nat) :
  forall (path : string) (maxDepth currentDepth retryCount : Z) (w : World),
    (3 * Z.to_nat (maxDepth - currentDepth) + Z.to_nat (2 - retryCount) < n)%nat ->
    World_ok w ->
    post (buildFileTree_fuel env n owner repo path maxDepth currentDepth
                             retryCount) w
         (fun _ w' => World_ok w') (fun _ _ => False).
Proof.
  induction n as [|n IH]; intros path maxDepth currentDepth r w Hn Hw; [lia|].
  cbn [buildFileTree_fuel].
  apply post_bind, post_cached; [exact Hw| | |].
  - intros v K _. exact (cast_tree K).
  - intros l. now apply post_ret.
  - set (w0 := after_lookup ContentCache _ w).
    assert (Hw0 : World_ok w0) by (now apply World_ok_after_lookup).
    destruct (currentDepth >=? maxDepth) eqn:D; [now apply post_ret|].
    rewrite Z.geb_leb in D. apply Z.leb_gt in D.
    apply post_bind, post_try, post_bind.
    eapply post_weaken; [apply (getRepoContents_ok path 1000 Hw0)| |].
    + intros contents w1 Hw1. cbv beta. apply post_bind.
      eapply post_weaken;
        [apply (@post_forOf _ _ _ (tree_entry_of contents) World_ok
                            (fun _ _ => False))| |intros ? ? []].
      * intros item w2 _ Hw2. apply treeEntry_post; [exact Hw2|].
        intros p w3 Hw3. apply IH; [lia|exact Hw3].
      * intros ? ? [].
      * exact Hw1.
      * intros result w2 [_ Hw2]. cbv beta.
        apply post_bind, post_cache_set. do 2 apply post_ret.
        apply World_ok_put; [exact Hw2|].
        apply set_cache_ok; [apply Hw2|apply kinded_tree].
    + intros e w1 [Hw1 [msg ->]]. cbv beta.
      rewrite Error_not_rate_limit. now do 2 apply post_ret.
Qed.

(** Beyond what the levels and the retries need, fuel changes nothing. *)
Lemma buildFileTree_fuel_enough (n : nat) :
  forall (m : nat) (path : string) (maxDepth currentDepth retryCount : Z)
         (w : World),
    (3 * Z.to_nat (maxDepth - currentDepth) + Z.to_nat (2 - retryCount) < n)%nat ->
    (3 * Z.to_nat (maxDepth - currentDepth) + Z.to_nat (2 - retryCount) < m)%nat ->
    World_ok w ->
    buildFileTree_fuel env n owner repo path maxDepth currentDepth retryCount w
    = buildFileTree_fuel env m owner repo path maxDepth currentDepth retryCount w.
Proof.
  induction n as [|n IH]; intros [|m] path maxDepth currentDepth r w Hn Hm Hw;
    try lia.
  cbn [buildFileTree_fuel].
  apply bind_cong; [reflexivity|]. intros cachedData w0 Hc.
  assert (Hw0 : World_ok w0).
  { assert (P : post (cached ContentCache
                        (treeKey owner repo path maxDepth currentDepth)
                        asFileContents) w
                     (fun _ w' => World_ok w') (fun _ _ => False)).
    { apply post_cached; [exact Hw| |trivial|now apply World_ok_after_lookup].
      intros v K _. exact (cast_tree K). }
    unfold post in P. now rewrite Hc in P. }
  destruct cachedData as [l|]; [reflexivity|].
  destruct (currentDepth >=? maxDepth) eqn:D; [reflexivity|].
  rewrite Z.geb_leb in D. apply Z.leb_gt in D.
  apply bind_cong.
  - apply try_cong. apply bind_cong; [reflexivity|]. intros contents w1 G.
    assert (Hw1 : World_ok w1).
    { pose proof (getRepoContents_ok path 1000 Hw0) as P.
      unfold post in P. now rewrite G in P. }
    apply bind_cong; [|reflexivity].
    apply forOf_cong with (I := World_ok); [| |exact Hw1].
    + intros item w2 Hw2. unfold treeEntry.
      destruct (isDir (snd item) && _); [|reflexivity].
      apply try_cong. apply bind_cong; [|reflexivity].
      apply IH; [lia|lia|exact Hw2].
    + intros item w2 y w' Hw2 Hy.
      assert (P : post (treeEntry
                          (fun p => buildFileTree_fuel env m owner repo p
                                      maxDepth (currentDepth + 1) 0)
                          (dirsToProcess (indexed contents)) item) w2
                       (fun entry w' => tree_entry_of contents item entry /\
                                        World_ok w')
                       (fun _ _ => False)).
      { apply treeEntry_post; [exact Hw2|].
        intros p w3 Hw3. apply buildFileTree_post; [lia|exact Hw3]. }
      unfold post in P. rewrite Hy in P. apply P.
  - intros [[]|l] w1 Hr; [|reflexivity]. exfalso.
    match type of Hr with ?t w0 = _ =>
      assert (P : post t w0 (fun r _ => exists l, r = inr l)
                       (fun _ _ => False)) end.
    { apply post_try, post_bind.
      eapply post_weaken; [apply (getRepoContents_ok path 1000 Hw0)| |].
      - intros contents w2 Hw2. cbv beta. apply post_bind.
        eapply post_weaken;
          [apply (@post_forOf _ _ _ (tree_entry_of contents) World_ok
                              (fun _ _ => False))| |intros ? ? []].
        + intros item w3 _ Hw3. apply treeEntry_post; [exact Hw3|].
          intros p w4 Hw4. apply buildFileTree_post; [lia|exact Hw4].
        + intros ? ? [].
        + exact Hw2.
        + intros result w3 _. cbv beta.
          apply post_bind, post_cache_set. apply post_ret. eauto.
      - intros e w2 [Hw2 [msg ->]]. cbv beta.
        rewrite Error_not_rate_limit. apply post_ret. eauto. }
    unfold post in P. rewrite Hr in P. destruct P as [l E]. discriminate.
Qed.

(** The loop over the listing builds the entries one after the other. *)
Lemma forOf_tree_of maxDepth depth contents :
  forall items w result w',
    World_ok w ->
    forOf (treeEntry (fun p => buildFileTree env owner repo p maxDepth depth 0)
                     (dirsToProcess (indexed contents)))
          items w
    = (Return result, w') ->
    tree_of env owner repo maxDepth depth contents w items result w'.
Proof.
  induction items as [|item items IH]; intros w result w' Hw F.
  - injection F as <- <-. constructor.
  - cbn [forOf] in F. unfold bind at 1 in F. unfold treeEntry in F.
    fold (expanded contents item) in F.
    destruct (expanded contents item) eqn:X.
    + assert (P : post (buildFileTree env owner repo (GitHub.path (snd item))
                                      maxDepth depth 0) w
                       (fun _ w' => World_ok w') (fun _ _ => False)).
      { apply buildFileTree_post; [unfold treeFuel; lia|exact Hw]. }
      unfold post in P. unfold try_catch, bind at 1 in F.
      destruct (buildFileTree env owner repo (GitHub.path (snd item))
                              maxDepth depth 0 w) as [[ch|e|] w1] eqn:B;
        [|destruct P|discriminate F].
      unfold ret at 1 in F. unfold bind in F.
      destruct (forOf _ items w1) as [[ys|e|] w2] eqn:F2; try discriminate F.
      injection F as <- <-.
      eapply tree_of_dir; [exact X|exact Hw|exact B|].
      apply IH; [exact P|exact F2].
    + unfold ret at 1 in F. unfold bind in F.
      destruct (forOf _ items w) as [[ys|e|] w2] eqn:F2; try discriminate F.
      injection F as <- <-.
      apply tree_of_leaf; [exact X|]. apply IH; [exact Hw|exact F2].
Qed.

(** A miss below the depth limit, once the directory is listed: the
    entries are built from the state the listing leaves. *)
Lemma buildFileTree_builds path maxDepth currentDepth retryCount w contents w1 :
  World_ok w ->
  misses ContentCache (treeKey owner repo path maxDepth currentDepth) w ->
  currentDepth < maxDepth ->
  getRepoContents env owner repo path 1000 0
    (after_lookup ContentCache (treeKey owner repo path maxDepth currentDepth) w)
  = (Return contents, w1) ->
  exists result w2 w',
    buildFileTree env owner repo path maxDepth currentDepth retryCount w
    = (Return result, w') /\
    tree_of env owner repo maxDepth (currentDepth + 1) contents
            w1 (indexed contents) result w2.
Proof.
  intros Hw Hm Hd G.
  set (w0 := after_lookup ContentCache _ w) in *.
  assert (Hw0 : World_ok w0) by (now apply World_ok_after_lookup).
  assert (Hw1 : World_ok w1).
  { pose proof (getRepoContents_ok path 1000 Hw0) as P.
    unfold post in P. now rewrite G in P. }
  set (loop := forOf (treeEntry
                        (fun p => buildFileTree env owner repo p maxDepth
                                                (currentDepth + 1) 0)
                        (dirsToProcess (indexed contents)))
                     (indexed contents)).
  assert (P : post loop w1 (fun _ w' => World_ok w') (fun _ _ => False)).
  { unfold loop. eapply post_weaken;
      [apply (@post_forOf _ _ _ (tree_entry_of contents) World_ok
                          (fun _ _ => False))| |intros ? ? []].
    - intros item w2 _ Hw2. apply treeEntry_post; [exact Hw2|].
      intros p w3 Hw3. apply buildFileTree_post; [unfold treeFuel; lia|exact Hw3].
    - intros ? ? [].
    - exact Hw1.
    - intros result w2 [_ Hw2]. exact Hw2. }
  apply post_returns in P. destruct P as (result & w2 & L & _).
  exists result, w2. eexists. split; [|now apply forOf_tree_of].
  unfold buildFileTree, treeFuel. cbn [buildFileTree_fuel].
  unfold bind at 1. rewrite cached_miss by exact Hm. fold w0.
  replace (currentDepth >=? maxDepth) with false
    by (symmetry; rewrite Z.geb_leb; apply Z.leb_gt; exact Hd).
  unfold bind at 1. unfold try_catch at 1. unfold bind at 1. rewrite G.
  unfold bind at 1.
  rewrite (@forOf_cong _ _ _
             (treeEntry (fun p => buildFileTree env owner repo p maxDepth
                                                (currentDepth + 1) 0)
                        (dirsToProcess (indexed contents)))
             World_ok (indexed contents)); [| | |exact Hw1].
  - fold loop. rewrite L. reflexivity.
  - intros item w3 Hw3. unfold treeEntry.
    destruct (isDir (snd item) && _); [|reflexivity].
    apply try_cong. apply bind_cong; [|reflexivity].
    apply buildFileTree_fuel_enough; [lia|unfold treeFuel; lia|exact Hw3].
  - intros item w3 y w' Hw3 Hy.
    assert (Q : post (treeEntry
                        (fun p => buildFileTree env owner repo p maxDepth
                                                (currentDepth + 1) 0)
                        (dirsToProcess (indexed contents)) item) w3
                     (fun entry w' => tree_entry_of contents item entry /\
                                      World_ok w')
                     (fun _ _ => False)).
    { apply treeEntry_post; [exact Hw3|].
      intros p w4 Hw4. apply buildFileTree_post; [unfold treeFuel; lia|exact Hw4]. }
    unfold post in Q. rewrite Hy in Q. apply Q.
Qed.

(** A directory whose listing fails has no children. *)
Lemma buildFileTree_listing_fails path maxDepth currentDepth retryCount w e w1 :
  World_ok w ->
  misses ContentCache (treeKey owner repo path maxDepth currentDepth) w ->
  getRepoContents env owner repo path 1000 0
    (after_lookup ContentCache (treeKey owner repo path maxDepth currentDepth) w)
  = (Throw e, w1) ->
  buildFileTree env owner repo path maxDepth currentDepth retryCount w
  = (Return [], if currentDepth >=? maxDepth
                then after_lookup ContentCache
                       (treeKey owner repo path maxDepth currentDepth) w
                else w1).
Proof.
  intros Hw Hm G. unfold buildFileTree, treeFuel. cbn [buildFileTree_fuel].
  unfold bind at 1. rewrite cached_miss by exact Hm.
  set (w0 := after_lookup ContentCache _ w) in *.
  assert (Hw0 : World_ok w0) by (now apply World_ok_after_lookup).
  destruct (currentDepth >=? maxDepth); [reflexivity|].
  pose proof (getRepoContents_ok path 1000 Hw0) as P.
  unfold post in P. rewrite G in P. destruct P as [_ [msg ->]].
  unfold bind, try_catch. rewrite G. now rewrite Error_not_rate_limit.
Qed.

End Tree.

(** C8.  A call of [buildFileTree] below the depth limit that finds no
    cached tree and lists the directory returns one entry per element of
    the listing, in order.  The elements it descends into are the first 25
    directories of the listing, so at most 25.  Each of them is returned
    with [children] set to what [buildFileTree] returns for its path one
    level down, and to nothing else; every other element, a directory
    beyond the first 25 included, is returned as it is, without [children].
    A directory whose own listing fails is therefore in the result, with
    [children: []].  The handler around the recursive call gives
    [children: []] as well, should that call throw; in a well-formed state
    it never does. *)
Theorem buildFileTree_expands_first_25_directories :
  forall (env : Env) (owner repo path : string)
         (maxDepth currentDepth retryCount : Z) (w : World)
         (contents : list FileContent) (w1 : World),
    World_ok w ->
    misses ContentCache (treeKey owner repo path maxDepth currentDepth) w ->
    currentDepth < maxDepth ->
    getRepoContents env owner repo path 1000 0
      (after_lookup ContentCache (treeKey owner repo path maxDepth currentDepth) w)
    = (Return contents, w1) ->
    (exists result w2 w',
        buildFileTree env owner repo path maxDepth currentDepth retryCount w
        = (Return result, w') /\
        tree_of env owner repo maxDepth (currentDepth + 1) contents
                w1 (indexed contents) result w2)
    /\
    filter (expanded contents) (indexed contents)
    = firstn 25 (filter (fun item => isDir (snd item)) (indexed contents))
    /\
    (List.length (filter (expanded contents) (indexed contents)) <= 25)%nat
    /\
    (forall item items entry result wa wb e wx,
        tree_of env owner repo maxDepth (currentDepth + 1) contents
                wa (item :: items) (entry :: result) wb ->
        expanded contents item = true ->
        misses ContentCache
               (treeKey owner repo (GitHub.path (snd item)) maxDepth
                        (currentDepth + 1)) wa ->
        getRepoContents env owner repo (GitHub.path (snd item)) 1000 0
          (after_lookup ContentCache
             (treeKey owner repo (GitHub.path (snd item)) maxDepth
                      (currentDepth + 1)) wa)
        = (Throw e, wx) ->
        entry = with_children (snd item) [])
    /\
    (forall (descend : string -> M (list FileContent)) item w0 e w0',
        expanded contents item = true ->
        descend (GitHub.path (snd item)) w0 = (Throw e, w0') ->
        treeEntry descend (dirsToProcess (indexed contents)) item w0
        = (Return (with_children (snd item) []), w0')).
Proof.
  intros env owner repo path maxDepth currentDepth r w contents w1 Hw Hm Hd G.
  split; [|split; [|split; [|split]]].
  - exact (@buildFileTree_builds env owner repo path maxDepth currentDepth
             r w contents w1 Hw Hm Hd G).
  - apply expanded_first_dirs.
  - rewrite expanded_first_dirs, length_firstn. lia.
  - intros item items entry result wa wb e wx T X Hm0 G0.
    inversion T as [|? ? ? ? ? X' _|? ? ? ch wc ? ? _ Hwa B _]; subst.
    + congruence.
    + rewrite (@buildFileTree_listing_fails env owner repo
                 (GitHub.path (snd item)) maxDepth (currentDepth + 1) 0
                 wa e wx Hwa Hm0 G0) in B.
      now injection B as <- _.
  - intros descend item w0 e w0' Hx Hthrow.
    unfold treeEntry. unfold expanded in Hx. rewrite Hx.
    unfold try_catch, bind. now rewrite Hthrow.
Qed.

(** A repository whose directory [docs] cannot be listed: the tree has the
    three entries of the root; [docs] comes with [children: []], [src] with
    its file, and the file as it is. *)
Lemma buildFileTree_expands_first_25_directories_witness :
  (exists result w2 w',
      buildFileTree Examples.listing_without_docs "octo" "demo" "" 2 0 0
                    Examples.fresh
      = (Return result, w') /\
      tree_of Examples.listing_without_docs "octo" "demo" 2 (0 + 1)
              (map normalizeItem Examples.items_with_docs)
              (snd (getRepoContents Examples.listing_without_docs "octo" "demo"
                      "" 1000 0
                      (after_lookup ContentCache (treeKey "octo" "demo" "" 2 0)
                                    Examples.fresh)))
              (indexed (map normalizeItem Examples.items_with_docs)) result w2)
  /\
  fst (buildFileTree Examples.listing_without_docs "octo" "demo" "" 2 0 0
                     Examples.fresh)
  = Return
      [ {| name := "docs"; GitHub.path := "docs"; type := "dir"; content := None;
           size := 0; url := "#"; children := Some [] |};
        {| name := "src"; GitHub.path := "src"; type := "dir"; content := None;
           size := 0; url := "#";
           children :=
             Some [ {| name := "app.ts"; GitHub.path := "src/app.ts";
                       type := "file"; content := None; size := 900;
                       url := "#"; children := None |} ] |};
        {| name := "README.md"; GitHub.path := "README.md"; type := "file";
           content := None; size := 120; url := "#"; children := None |} ].
Proof.
  split; [|reflexivity].
  apply (proj1 (@buildFileTree_expands_first_25_directories
                  Examples.listing_without_docs "octo" "demo" "" 2 0 0
                  Examples.fresh
                  (map normalizeItem Examples.items_with_docs)
                  (snd (getRepoContents Examples.listing_without_docs "octo"
                          "demo" "" 1000 0
                          (after_lookup ContentCache (treeKey "octo" "demo" "" 2 0)
                                        Examples.fresh)))
                  (World_ok_initial 1705000000000 None) I eq_refl eq_refl)).
Defined.

End FetchSpec.

(* ================================================================= *)
(** ** The cache: statistics, removal and insertion below capacity *)

Module CacheLaws.

Import Cache CacheFacts.

Section MapLaws.
Variable V : Type.
Implicit Types m : JsMap V.

Lemma Map_get_of_In key v m :
  NoDup (keys m) -> In (key, v) m -> Map_get key m = Some v.
Proof.
  induction m as [|[k v0] m IH]; simpl; [tauto|].
  intros H. inversion H as [|? ? Hk Hm]; subst.
  intros [E|Hin].
  - inversion E; subst. now rewrite String.eqb_refl.
  - destruct (String.eqb_spec k key) as [->|_]; [|now apply IH].
    exfalso. apply Hk. unfold keys. rewrite in_map_iff. now exists (key, v).
Qed.

Lemma Map_get_delete_other key key' m :
  key' <> key -> Map_get key' (Map_delete key m) = Map_get key' m.
Proof.
  intros N. induction m as [|[k v] m IH]; simpl; [reflexivity|].
  destruct (String.eqb_spec k key) as [->|Nk]; simpl.
  - destruct (String.eqb_spec key key') as [E|_]; [congruence|reflexivity].
  - now rewrite IH.
Qed.

Lemma Map_get_set_other key key' v m :
  key' <> key -> Map_get key' (Map_set key v m) = Map_get key' m.
Proof.
  intros N. induction m as [|[k v0] m IH]; simpl.
  - destruct (String.eqb_spec key key') as [E|_]; [congruence|reflexivity].
  - destruct (String.eqb_spec k key) as [->|Nk]; simpl.
    + destruct (String.eqb_spec key key') as [E|_]; [congruence|reflexivity].
    + now rewrite IH.
Qed.

Lemma Map_get_present key m :
  existsb (String.eqb key) (keys m)
  = match Map_get key m with Some _ => true | None => false end.
Proof.
  induction m as [|[k v] m IH]; simpl; [reflexivity|].
  rewrite (String.eqb_sym key k).
  now destruct (String.eqb k key).
Qed.

Lemma Map_get_keys key m : Map_get key m <> None <-> In key (keys m).
Proof.
  rewrite <- existsb_eqb_In, Map_get_present.
  destruct (Map_get key m); split; congruence.
Qed.

Lemma filter_keys (p : string -> bool) m :
  filter p (keys m) = keys (filter (fun kv => p (fst kv)) m).
Proof.
  induction m as [|[k v] m IH]; simpl; [reflexivity|].
  destruct (p k); simpl; now rewrite IH.
Qed.

End MapLaws.

Lemma fold_count (A : Type) (p : A -> bool) (l : list A) (n : Z) :
  fold_left (fun count x => if p x then count + 1 else count) l n
  = n + GitHub.count_if p l.
Proof.
  revert n. unfold GitHub.count_if.
  induction l as [|x l IH]; intros n; simpl; [lia|].
  rewrite IH. destruct (p x); simpl List.length; lia.
Qed.

Lemma count_if_split (A : Type) (p : A -> bool) (l : list A) :
  GitHub.count_if p l + GitHub.count_if (fun x => negb (p x)) l = Z.of_nat (List.length l).
Proof.
  unfold GitHub.count_if. induction l as [|x l IH]; simpl; [reflexivity|].
  destruct (p x); simpl List.length; lia.
Qed.

Lemma count_if_bounds (A : Type) (p : A -> bool) (l : list A) :
  0 <= GitHub.count_if p l <= Z.of_nat (List.length l).
Proof.
  unfold GitHub.count_if. pose proof (filter_length_le p l). lia.
Qed.

Section Laws.
Variable T : Type.
Implicit Types c : ApiCache T.

(** What [has] answers for the key of a stored entry. *)
Lemma has_stored now c k e :
  NoDup (keys (cache c)) -> In (k, e) (cache c) ->
  fst (has k now c) = negb (expired now (k, e)).
Proof.
  intros H Hin. unfold has, expired.
  rewrite (@Map_get_of_In _ k e (cache c) H Hin). cbn [snd].
  now destruct (now >? expiresAt e).
Qed.

Lemma count_keys (p : string -> bool) (q : string * CacheEntry T -> bool)
      (m : JsMap (CacheEntry T)) :
  (forall ke, In ke m -> p (fst ke) = q ke) ->
  GitHub.count_if p (keys m) = GitHub.count_if q m.
Proof.
  intros H. unfold GitHub.count_if. rewrite filter_keys. unfold keys.
  rewrite length_map. now rewrite (filter_ext_in _ _ _ H).
Qed.

Lemma getStats_expired now c :
  expiredEntries (getStats now c) = GitHub.count_if (expired now) (cache c).
Proof. unfold getStats. cbn [expiredEntries]. now rewrite fold_count. Qed.

End Laws.

(** X1.  On every state of a cache, [getStats] reports as [totalEntries]
    the size of the map, as [validEntries] the number of keys for which
    [has] answers true at that time, and as [expiredEntries] the number of
    keys for which it answers false: the expired entries that no lookup has
    evicted yet are still counted in the size. *)
Theorem getStats_counts_live_keys :
  forall (T : Type) (o : CacheOptions) (ops : list (Op T)) (now : Z),
    let c := run ops (new T o) in
    let stats := getStats now c in
    totalEntries stats = size c /\
    validEntries stats
    = GitHub.count_if (fun key => fst (has key now c)) (keys (cache c)) /\
    expiredEntries stats
    = GitHub.count_if (fun key => negb (fst (has key now c))) (keys (cache c)) /\
    totalEntries stats = validEntries stats + expiredEntries stats /\
    0 <= validEntries stats <= totalEntries stats.
Proof.
  intros T o ops now c stats.
  assert (Hnd : NoDup (keys (cache c))) by (apply run_NoDup; constructor).
  assert (Ev : GitHub.count_if (fun key => fst (has key now c)) (keys (cache c))
               = GitHub.count_if (fun ke => negb (expired now ke)) (cache c)).
  { apply count_keys. intros [k e] Hin. now apply has_stored. }
  assert (Ex : GitHub.count_if (fun key => negb (fst (has key now c))) (keys (cache c))
               = GitHub.count_if (expired now) (cache c)).
  { apply count_keys. intros [k e] Hin. cbn [fst].
    rewrite (@has_stored _ now c k e Hnd Hin). apply negb_involutive. }
  pose proof (count_if_split (expired now) (cache c)) as Hs.
  pose proof (count_if_bounds (expired now) (cache c)) as Hb.
  subst stats. rewrite Ev, Ex, getStats_expired.
  unfold getStats. cbn [totalEntries validEntries]. rewrite fold_count.
  change (fun x : string * CacheEntry T => now >? expiresAt (snd x))
    with (@expired T now).
  unfold size, Map_size in *. repeat split; lia.
Qed.

Section Removal.
Variable T : Type.
Implicit Types c : ApiCache T.

Lemma get_other_delete key key' now c :
  key' <> key ->
  fst (get key' now (delete key c)) = fst (get key' now c).
Proof.
  intros N. unfold get, delete. cbn [cache with_cache].
  rewrite Map_get_delete_other by exact N.
  destruct (Map_get key' (cache c)) as [entry|]; [|reflexivity].
  now destruct (now >? expiresAt entry).
Qed.

Lemma size_delete key c :
  size (delete key c)
  = size c - match Map_get key (cache c) with Some _ => 1 | None => 0 end.
Proof.
  unfold size, Map_size, delete. cbn [cache with_cache].
  destruct (Map_get key (cache c)) as [entry|] eqn:G.
  - assert (Hin : In key (keys (cache c))).
    { apply Map_get_keys. congruence. }
    pose proof (Map_delete_length_In _ _ Hin). lia.
  - assert (Hout : ~ In key (keys (cache c))).
    { intros Hin. apply Map_get_keys in Hin. congruence. }
    assert (E : Map_delete key (cache c) = cache c).
    { clear G. induction (cache c) as [|[k v] m IH]; simpl; [reflexivity|].
      simpl in Hout. destruct (String.eqb_spec k key) as [->|_].
      - exfalso. apply Hout. now left.
      - f_equal. apply IH. intros H. apply Hout. now right. }
    rewrite E. lia.
Qed.

End Removal.

(** X2.  On every state of a cache, [delete(key)] removes the entry of
    [key] and nothing else: afterwards [get] and [has] answer absent for
    [key] at any time, every other key is answered as before, and the size
    has gone down by one exactly when [key] was stored.  [clear()] brings
    the cache back to the state it was constructed in. *)
Theorem delete_removes_only_its_key :
  forall (T : Type) (o : CacheOptions) (ops : list (Op T)) (key : string)
         (now : Z),
    let c := run ops (new T o) in
    fst (get key now (delete key c)) = None /\
    fst (has key now (delete key c)) = false /\
    (forall key', key' <> key ->
                  fst (get key' now (delete key c)) = fst (get key' now c)) /\
    size (delete key c)
    = size c - match Map_get key (cache c) with Some _ => 1 | None => 0 end /\
    clear c = new T o.
Proof.
  intros T o ops key now c.
  assert (Hnd : NoDup (keys (cache c))) by (apply run_NoDup; constructor).
  assert (G : Map_get key (cache (delete key c)) = None)
    by (apply Map_get_delete; exact Hnd).
  split; [|split; [|split; [|split]]].
  - unfold get. now rewrite G.
  - unfold has. now rewrite G.
  - intros key' N. now apply get_other_delete.
  - apply size_delete.
  - unfold clear, new, with_cache. f_equal. subst c. apply run_options.
Qed.

Section Insertion.
Variable T : Type.
Implicit Types c : ApiCache T.

Lemma set_below_capacity_cache key d t now now' c :
  size c < maxSize (options c) ->
  cache (set key d t now now' c)
  = Map_set key {| data := d; timestamp := now;
                   expiresAt := now + ttl_or_default t c |} (cache c).
Proof.
  intros H. unfold set.
  replace (size c >=? maxSize (options c)) with false; [reflexivity|].
  symmetry. rewrite Z.geb_leb. apply Z.leb_gt. exact H.
Qed.

Lemma length_Map_set key (e : CacheEntry T) (m : JsMap (CacheEntry T)) :
  Z.of_nat (List.length (Map_set key e m))
  = Z.of_nat (List.length m)
    + match Map_get key m with Some _ => 0 | None => 1 end.
Proof.
  induction m as [|[k v] m IH]; cbn [Map_set Map_get]; [reflexivity|].
  destruct (String.eqb k key); cbn [List.length]; lia.
Qed.

End Insertion.

(** X3.  A [set] on a cache that holds fewer than [maxSize] entries evicts
    nothing: every other key is answered as before at any time; the entry
    of [key] is the new one, served up to and including the instant it
    expires; the size grows by one for a new key and not at all for a key
    already stored, which keeps its place in the order of insertion. *)
Theorem set_below_capacity_keeps_the_rest :
  forall (T : Type) (c : ApiCache T) (key : string) (d : T) (t : option Z)
         (now now' : Z),
    size c < maxSize (options c) ->
    let c' := set key d t now now' c in
    (forall key' q, key' <> key -> fst (get key' q c') = fst (get key' q c)) /\
    (forall q, q <= now + ttl_or_default t c -> get key q c' = (Some d, c')) /\
    size c' = size c + match Map_get key (cache c) with
                       | Some _ => 0
                       | None => 1
                       end /\
    keys (cache c') = match Map_get key (cache c) with
                      | Some _ => keys (cache c)
                      | None => keys (cache c) ++ [key]
                      end.
Proof.
  intros T c key d t now now' H c'.
  pose proof (@set_below_capacity_cache T key d t now now' c H) as E.
  fold c' in E.
  split; [|split; [|split]].
  - intros key' q N. unfold get. rewrite E, Map_get_set_other by exact N.
    destruct (Map_get key' (cache c)) as [entry|]; [|reflexivity].
    now destruct (q >? expiresAt entry).
  - intros q Hq. unfold get. rewrite E, Map_get_set. cbn [expiresAt data].
    replace (q >? now + ttl_or_default t c) with false; [reflexivity|].
    symmetry. rewrite Z.gtb_ltb. apply Z.ltb_ge. exact Hq.
  - unfold size, Map_size. rewrite E. apply length_Map_set.
  - rewrite E, Map_set_keys, Map_get_present.
    now destruct (Map_get key (cache c)).
Qed.

(** Below capacity, a second insertion under the key ["a"] replaces the
    value and leaves ["b"] where it is. *)
Lemma set_below_capacity_keeps_the_rest_witness :
  let c := run Examples.two_sets (new string Examples.three_slots) in
  size c < maxSize (options c) /\
  fst (get "b" 25 (set "a" "again" None 25 25 c)) = Some "vb" /\
  keys (cache (set "a" "again" None 25 25 c)) = ["a"; "b"].
Proof.
  intros c.
  assert (H : size c < maxSize (options c)) by (vm_compute; reflexivity).
  destruct (@set_below_capacity_keeps_the_rest string c "a" "again" None 25 25 H)
    as (Hother & _ & _ & Hkeys).
  split; [exact H|]. split.
  - rewrite (Hother "b" 25); [reflexivity|discriminate].
  - exact Hkeys.
Defined.

Section Lookups.
Variable T : Type.
Implicit Types c : ApiCache T.

Lemma has_get_state key now c : snd (has key now c) = snd (get key now c).
Proof.
  unfold has, get. destruct (Map_get key (cache c)) as [entry|]; [|reflexivity].
  now destruct (now >? expiresAt entry).
Qed.

Lemma has_get_answer key now c :
  fst (has key now c)
  = match fst (get key now c) with Some _ => true | None => false end.
Proof.
  unfold has, get. destruct (Map_get key (cache c)) as [entry|]; [|reflexivity].
  now destruct (now >? expiresAt entry).
Qed.

Lemma get_again key now c :
  NoDup (keys (cache c)) ->
  get key now (snd (get key now c)) = (fst (get key now c), snd (get key now c)).
Proof.
  intros Hnd. unfold get at 2 3 4.
  destruct (Map_get key (cache c)) as [entry|] eqn:G.
  - destruct (now >? expiresAt entry) eqn:X; cbn [fst snd].
    + unfold get. cbn [cache with_cache].
      now rewrite Map_get_delete by exact Hnd.
    + unfold get. now rewrite G, X.
  - cbn [fst snd]. unfold get. now rewrite G.
Qed.

End Lookups.

(** X4.  On every state of a cache, [has(key)] answers true exactly when
    [get(key)] returns the entry, and both leave the cache in the same
    state: an entry past its expiry is evicted by either.  The lookup is
    idempotent: asked again at the same time, [get] gives the same answer
    and changes nothing any more. *)
Theorem has_and_get_agree :
  forall (T : Type) (o : CacheOptions) (ops : list (Op T)) (key : string)
         (now : Z),
    let c := run ops (new T o) in
    fst (has key now c)
    = match fst (get key now c) with Some _ => true | None => false end /\
    snd (has key now c) = snd (get key now c) /\
    get key now (snd (get key now c))
    = (fst (get key now c), snd (get key now c)) /\
    has key now (snd (has key now c))
    = (fst (has key now c), snd (has key now c)).
Proof.
  intros T o ops key now c.
  assert (Hnd : NoDup (keys (cache c))) by (apply run_NoDup; constructor).
  pose proof (@get_again T key now c Hnd) as Hg.
  split; [apply has_get_answer|]. split; [apply has_get_state|].
  split; [exact Hg|].
  rewrite (surjective_pairing (has key now (snd (has key now c)))).
  rewrite !has_get_state, has_get_answer. rewrite Hg. cbn [fst snd].
  now rewrite has_get_answer.
Qed.

End CacheLaws.

(* ================================================================= *)
(** ** Paths and addresses *)

Module PathSpec.

Import Js GitHub.

Lemma append_assoc (a b c : string) : (a +++ b) +++ c = a +++ b +++ c.
Proof. induction a as [|x a IH]; simpl; [reflexivity|now rewrite IH]. Qed.

Lemma append_nil_r (a : string) : a +++ "" = a.
Proof. induction a as [|x a IH]; simpl; [reflexivity|now rewrite IH]. Qed.

Lemma prefix_empty (s : string) : String.prefix "" s = true.
Proof. now destruct s. Qed.

Lemma prefix_append (p s : string) : String.prefix p (p +++ s) = true.
Proof.
  induction p as [|a p IH]; [apply prefix_empty|].
  simpl. destruct (ascii_dec a a) as [_|N]; [exact IH|congruence].
Qed.

Lemma prefix_split (p s : string) :
  String.prefix p s = true -> exists b, s = p +++ b.
Proof.
  revert s. induction p as [|a p IH]; intros s H; [now exists s|].
  destruct s as [|x s]; simpl in H; [discriminate|].
  destruct (ascii_dec a x) as [->|_]; [|discriminate].
  destruct (IH s H) as [b ->]. now exists b.
Qed.

Lemma includes_unfold (pat s : string) :
  includes pat s
  = String.prefix pat s ||
    match s with
    | EmptyString => false
    | String _ s' => includes pat s'
    end.
Proof. now destruct s. Qed.

(** [includes] finds the contiguous occurrences. *)
Lemma includes_iff (pat s : string) :
  includes pat s = true <-> exists a b, s = a +++ pat +++ b.
Proof.
  split.
  - induction s as [|x s IH]; rewrite includes_unfold; intros H;
      apply orb_prop in H; destruct H as [H|H]; try discriminate.
    + apply prefix_split in H. destruct H as [b ->]. now exists "", b.
    + apply prefix_split in H. destruct H as [b ->]. now exists "", b.
    + destruct (IH H) as (a & b & ->). now exists (String x a), b.
  - intros (a & b & ->). induction a as [|x a IH]; simpl append;
      rewrite includes_unfold.
    + now rewrite prefix_append.
    + rewrite IH. apply orb_true_r.
Qed.

Lemma toLowerCase_app (a b : string) :
  toLowerCase (a +++ b) = toLowerCase a +++ toLowerCase b.
Proof. induction a as [|x a IH]; simpl; [reflexivity|now rewrite IH]. Qed.

Lemma skipPatterns_lower : map toLowerCase skipPatterns = skipPatterns.
Proof. reflexivity. Qed.

(** A path is skipped exactly when its lower-case form contains one of the
    patterns. *)
Lemma shouldSkipPath_iff (path : string) :
  shouldSkipPath path = true <->
  exists pattern a b,
    In pattern skipPatterns /\ toLowerCase path = a +++ pattern +++ b.
Proof.
  unfold shouldSkipPath. rewrite existsb_exists. split.
  - intros (pattern & Hin & H). apply includes_iff in H.
    destruct H as (a & b & E). exists (toLowerCase pattern), a, b.
    split; [|exact E]. rewrite <- skipPatterns_lower. now apply in_map.
  - intros (pattern & a & b & Hin & E).
    rewrite <- skipPatterns_lower in Hin. apply in_map_iff in Hin.
    destruct Hin as (p0 & <- & Hin). exists p0. split; [exact Hin|].
    apply includes_iff. now exists a, b.
Qed.

(** X5.  Whatever is skipped stays skipped when the path is extended on
    either side or written in another letter case: every path that
    contains a skipped path, such as the files below a skipped directory,
    is skipped too. *)
Theorem shouldSkipPath_extends :
  forall (p a b q : string),
    shouldSkipPath p = true ->
    toLowerCase q = toLowerCase (a +++ p +++ b) ->
    shouldSkipPath q = true.
Proof.
  intros p a b q H E. apply shouldSkipPath_iff in H.
  destruct H as (pattern & a' & b' & Hin & Ep).
  apply shouldSkipPath_iff.
  exists pattern, (toLowerCase a +++ a'), (b' +++ toLowerCase b).
  split; [exact Hin|].
  rewrite E, !toLowerCase_app, Ep, !append_assoc. reflexivity.
Qed.

(** The directory [node_modules] is skipped, hence so is a file below it
    in a project directory, written in capitals. *)
Lemma shouldSkipPath_extends_witness :
  shouldSkipPath "node_modules" = true /\
  shouldSkipPath "Web/NODE_MODULES/react/index.js" = true.
Proof.
  split; [reflexivity|].
  apply (@shouldSkipPath_extends "node_modules" "web/" "/react/index.js");
    reflexivity.
Defined.

(** *** [parseRepoUrl] *)

Lemma includes_char_cons (sep x : ascii) (s : string) :
  includes (String sep "") (String x s)
  = Ascii.eqb x sep || includes (String sep "") s.
Proof.
  rewrite includes_unfold. f_equal. simpl.
  destruct (ascii_dec sep x) as [->|N].
  - now rewrite prefix_empty, Ascii.eqb_refl.
  - symmetry. apply Ascii.eqb_neq. congruence.
Qed.

Lemma includes_char_nil (sep : ascii) : includes (String sep "") "" = false.
Proof. reflexivity. Qed.

Lemma split_not_nil (sep : ascii) (s : string) : split sep s <> [].
Proof.
  induction s as [|x s IH]; simpl; [discriminate|].
  destruct (Ascii.eqb x sep); [discriminate|].
  now destruct (split sep s).
Qed.

Lemma split_no_sep (sep : ascii) (a : string) :
  includes (String sep "") a = false -> split sep a = [a].
Proof.
  induction a as [|x a IH]; [reflexivity|].
  rewrite includes_char_cons. intros H. apply orb_false_elim in H.
  destruct H as [Hx Ha]. simpl. now rewrite Hx, IH.
Qed.

Lemma split_app_sep (sep : ascii) (a rest : string) :
  includes (String sep "") a = false ->
  split sep (a +++ String sep rest) = a :: split sep rest.
Proof.
  induction a as [|x a IH].
  - intros _. simpl. now rewrite Ascii.eqb_refl.
  - rewrite includes_char_cons. intros H. apply orb_false_elim in H.
    destruct H as [Hx Ha]. simpl. now rewrite Hx, IH.
Qed.

Lemma split_pieces (sep : ascii) (s p : string) :
  In p (split sep s) -> includes (String sep "") p = false.
Proof.
  revert p. induction s as [|x s IH]; intros p; simpl.
  - intros [<-|[]]. reflexivity.
  - destruct (Ascii.eqb x sep) eqn:X.
    + intros [<-|H]; [reflexivity|now apply IH].
    + destruct (split sep s) as [|piece pieces].
      * intros [<-|[]]. rewrite includes_char_cons, X. reflexivity.
      * intros [<-|H].
        -- rewrite includes_char_cons, X. apply IH. now left.
        -- apply IH. now right.
Qed.

Lemma filterBoolean_In (p : string) (l : list string) :
  In p (filterBoolean l) <-> In p l /\ p <> "".
Proof.
  unfold filterBoolean. rewrite filter_In, negb_true_iff.
  now rewrite String.eqb_neq.
Qed.

(** X6.  Whatever [parseRepoUrl] returns comes from an address on the host
    [github.com], and consists of the first two non-empty segments of its
    path: neither the owner nor the repository is ever empty or contains a
    slash. *)
Theorem parseRepoUrl_returns_two_segments :
  forall (newURL : string -> JsError + URL) (url : string) (ref : RepoRef),
    parseRepoUrl newURL url = inr ref ->
    exists urlObj rest,
      newURL url = inr urlObj /\
      hostname urlObj = "github.com" /\
      filterBoolean (split "/" (pathname urlObj))
      = ref_owner ref :: ref_repo ref :: rest /\
      ref_owner ref <> "" /\ ref_repo ref <> "" /\
      includes "/" (ref_owner ref) = false /\
      includes "/" (ref_repo ref) = false.
Proof.
  intros newURL url ref. unfold parseRepoUrl.
  destruct (newURL url) as [e|urlObj]; [discriminate|].
  destruct (String.eqb_spec (hostname urlObj) "github.com") as [Eh|_];
    [|discriminate].
  cbn [negb].
  destruct (filterBoolean (split "/" (pathname urlObj)))
    as [|o [|r rest]] eqn:P; try discriminate.
  intros [= <-]. cbn [ref_owner ref_repo].
  assert (Ho : In o (filterBoolean (split "/" (pathname urlObj))))
    by (rewrite P; now left).
  assert (Hr : In r (filterBoolean (split "/" (pathname urlObj))))
    by (rewrite P; right; now left).
  apply filterBoolean_In in Ho, Hr. destruct Ho as [Ho No], Hr as [Hr Nr].
  exists urlObj, rest. repeat split; try assumption; try reflexivity.
  - exact (split_pieces _ _ _ Ho).
  - exact (split_pieces _ _ _ Hr).
Qed.

Lemma parseRepoUrl_returns_two_segments_witness :
  exists urlObj rest,
    Examples.tree_page "https://github.com/octo/demo/tree/main" = inr urlObj /\
    hostname urlObj = "github.com" /\
    filterBoolean (split "/" (pathname urlObj)) = "octo" :: "demo" :: rest /\
    "octo" <> "" /\ "demo" <> "" /\
    includes "/" "octo" = false /\ includes "/" "demo" = false.
Proof.
  exact (@parseRepoUrl_returns_two_segments Examples.tree_page
           "https://github.com/octo/demo/tree/main"
           {| ref_owner := "octo"; ref_repo := "demo" |} eq_refl).
Defined.

(** X7.  An address on [github.com] whose path starts with a non-empty
    owner and a non-empty repository, separated by a slash and followed by
    nothing or by further segments, is read as that owner and that
    repository. *)
Theorem parseRepoUrl_reads_owner_and_repo :
  forall (newURL : string -> JsError + URL) (url o r rest : string),
    newURL url = inr {| hostname := "github.com";
                        pathname := "/" +++ o +++ "/" +++ r +++ rest |} ->
    o <> "" -> r <> "" ->
    includes "/" o = false -> includes "/" r = false ->
    rest = "" \/ startsWith "/" rest = true ->
    parseRepoUrl newURL url = inr {| ref_owner := o; ref_repo := r |}.
Proof.
  intros newURL url o r rest E No Nr Ho Hr Hrest.
  unfold parseRepoUrl. rewrite E. cbn [hostname pathname].
  rewrite String.eqb_refl. cbn [negb].
  assert (S1 : exists pieces, split "/" (r +++ rest) = r :: pieces).
  { destruct Hrest as [->|H].
    - rewrite append_nil_r. exists []. now apply split_no_sep.
    - apply prefix_split in H. destruct H as [b ->].
      exists (split "/" b). now apply split_app_sep. }
  destruct S1 as [pieces S1].
  change ("/" +++ o +++ "/" +++ r +++ rest)
    with (String "/" (o +++ String "/" (r +++ rest))).
  cbn [split]. rewrite Ascii.eqb_refl.
  rewrite split_app_sep by exact Ho. rewrite S1.
  unfold filterBoolean. cbn [filter String.eqb negb].
  apply String.eqb_neq in No, Nr. now rewrite No, Nr.
Qed.

Lemma parseRepoUrl_reads_owner_and_repo_witness :
  parseRepoUrl Examples.tree_page "https://github.com/octo/demo/tree/main"
  = inr {| ref_owner := "octo"; ref_repo := "demo" |}.
Proof.
  apply (@parseRepoUrl_reads_owner_and_repo Examples.tree_page
           "https://github.com/octo/demo/tree/main" "octo" "demo" "/tree/main");
    try reflexivity; try discriminate.
  now right.
Defined.

End PathSpec.

(* ================================================================= *)
(** ** Commit activity: what is counted, and which errors surface *)

Module ActivityLaws.

Import Cache GitHub CacheFacts FetchFacts.
Local Open Scope js_scope.

(** The commits counted in a map of weekly buckets. *)
Local Abbreviation counted m := (sum (map (fun kb => b_total (snd kb)) m)).

Lemma sum_app (l l' : list Z) : sum (l ++ l') = sum l + sum l'.
Proof. unfold sum. induction l as [|x l IH]; simpl; lia. Qed.

Lemma sum_Permutation (l l' : list Z) : Permutation l l' -> sum l = sum l'.
Proof.
  unfold sum.
  induction 1 as [|x l l' _ IH|x y l|l l' l'' _ IH1 _ IH2]; simpl; lia.
Qed.

Lemma weeks_set_counted k m :
  counted (weeks_set k emptyBucket m)
  = counted m - match find (fun kb => fst kb =? k) m with
                | Some kb => b_total (snd kb)
                | None => 0
                end.
Proof.
  induction m as [|[k' b'] m IH]; cbn [weeks_set find map sum fold_right fst snd];
    [reflexivity|].
  destruct (k' =? k); cbn [map sum fold_right fst snd b_total emptyBucket].
  - unfold sum. lia.
  - unfold sum in *. lia.
Qed.

Lemma find_weeks_has k m :
  weeks_has k m = false -> find (fun kb : Z * Bucket => fst kb =? k) m = None.
Proof.
  induction m as [|[k' b'] m IH]; simpl; [reflexivity|].
  destruct (k' =? k); simpl; [discriminate|exact IH].
Qed.

Lemma weeks_has_set k b m : weeks_has k (weeks_set k b m) = true.
Proof.
  induction m as [|[k' b'] m IH]; simpl.
  - now rewrite Z.eqb_refl.
  - destruct (k' =? k) eqn:E; simpl; rewrite E; [reflexivity|exact IH].
Qed.

Lemma weeks_update_counted k f m :
  weeks_has k m = true ->
  (forall b, b_total (f b) = b_total b + 1) ->
  counted (weeks_update k f m) = counted m + 1.
Proof.
  intros H Hf. induction m as [|[k' b'] m IH]; simpl in H; [discriminate|].
  cbn [weeks_update]. destruct (k' =? k); cbn [map sum fold_right snd].
  - rewrite Hf. unfold sum. lia.
  - simpl in H. specialize (IH H). unfold sum in *. lia.
Qed.

(** All the buckets of the initial map are empty. *)
Lemma weeks_set_empty k m :
  Forall (fun kb : Z * Bucket => b_total (snd kb) = 0) m ->
  Forall (fun kb : Z * Bucket => b_total (snd kb) = 0)
         (weeks_set k emptyBucket m).
Proof.
  induction 1 as [|[k' b'] m Hb Hm IH]; simpl.
  - now repeat constructor.
  - destruct (k' =? k); constructor; auto.
Qed.

Lemma counted_zero m :
  Forall (fun kb : Z * Bucket => b_total (snd kb) = 0) m -> counted m = 0.
Proof.
  induction 1 as [|kb m Hb _ IH]; [reflexivity|].
  cbn [map sum fold_right]. unfold sum in IH. lia.
Qed.

Lemma initWeeks_counted currentTime : counted (initWeeks currentTime) = 0.
Proof.
  apply counted_zero. unfold initWeeks. cbn [fold_left].
  repeat apply weeks_set_empty. constructor.
Qed.

Lemma countCommit_counted m c :
  counted (countCommit m c) = counted m + if dated c then 1 else 0.
Proof.
  unfold countCommit, dated. destruct (author_date c) as [ms|]; [|lia].
  set (ws := weekStartOf (Js.floorDiv ms 1000)).
  rewrite weeks_update_counted.
  - destruct (weeks_has ws m) eqn:H; [reflexivity|].
    rewrite weeks_set_counted, find_weeks_has by exact H. lia.
  - destruct (weeks_has ws m) eqn:H; [exact H|apply weeks_has_set].
  - reflexivity.
Qed.

Lemma fold_countCommit_counted commits m :
  counted (fold_left countCommit commits m) = counted m + count_if dated commits.
Proof.
  revert m. induction commits as [|c commits IH]; intros m; simpl.
  - unfold count_if. simpl. lia.
  - rewrite IH, countCommit_counted. unfold count_if. simpl.
    destruct (dated c); simpl List.length; lia.
Qed.

(** No listed commit with a date is lost or counted twice. *)
Lemma bucketCommits_counted currentTime commits :
  sum (map total (bucketCommits currentTime commits)) = count_if dated commits.
Proof.
  unfold bucketCommits.
  rewrite (sum_Permutation
             (Permutation_map total (JsFacts.sort_perm by_week _))).
  rewrite map_map. cbn [total].
  rewrite fold_countCommit_counted, initWeeks_counted. lia.
Qed.

(** The keys of the map only grow. *)
Lemma weeks_set_keeps k b m x : In x (wkeys m) -> In x (wkeys (weeks_set k b m)).
Proof.
  intros H. rewrite CommitSpec.weeks_set_keys.
  destruct (weeks_has k m); [exact H|apply in_or_app; now left].
Qed.

Lemma weeks_set_has_key k b m : In k (wkeys (weeks_set k b m)).
Proof. apply CommitSpec.weeks_has_In, weeks_has_set. Qed.

Lemma countCommit_keeps m c x : In x (wkeys m) -> In x (wkeys (countCommit m c)).
Proof.
  intros H. unfold countCommit. destruct (author_date c) as [ms|]; [|exact H].
  rewrite CommitSpec.weeks_update_keys.
  destruct (weeks_has _ m); [exact H|now apply weeks_set_keeps].
Qed.

Lemma fold_countCommit_keeps commits m x :
  In x (wkeys m) -> In x (wkeys (fold_left countCommit commits m)).
Proof.
  revert m. induction commits as [|c commits IH]; intros m H; [exact H|].
  simpl. apply IH. now apply countCommit_keeps.
Qed.

Lemma initWeeks_recent currentTime i :
  In i [0; 1; 2; 3] ->
  In (weekStartOf (currentTime - i * WEEK)) (wkeys (initWeeks currentTime)).
Proof.
  unfold initWeeks. cbn [fold_left].
  intros [<-|[<-|[<-|[<-|[]]]]].
  - do 3 apply weeks_set_keeps. apply weeks_set_has_key.
  - do 2 apply weeks_set_keeps. apply weeks_set_has_key.
  - apply weeks_set_keeps. apply weeks_set_has_key.
  - apply weeks_set_has_key.
Qed.

Lemma bucketCommits_recent currentTime commits i :
  In i [0; 1; 2; 3] ->
  In (weekStartOf (currentTime - i * WEEK))
     (map week (bucketCommits currentTime commits)).
Proof.
  intros Hi. unfold bucketCommits.
  eapply Permutation_in;
    [apply Permutation_map; symmetry; apply JsFacts.sort_perm|].
  rewrite map_map. cbn [week].
  apply fold_countCommit_keeps, initWeeks_recent, Hi.
Qed.

(** X8.  The alternative computation always answers: it issues exactly one
    request, for the commits of the last thirty days, touches no cache and
    never throws.  When the request is rejected or lists no commit the
    answer is the empty list.  Otherwise every listed commit that carries a
    date is counted in exactly one week, so the totals add up to their
    number, and the week of the current time and the three weeks before it
    are always among the weeks returned. *)
Theorem getCommitActivityAlternative_always_answers :
  forall (env : Env) (owner repo : string) (w : World),
    let since := clock w - 30 * 24 * 60 * 60 * 1000 in
    let reply :=
      repos_listCommits env owner repo since (List.length (calls w)) in
    let w' := logged (ListCommits owner repo since) (elapsed reply) w in
    exists weeks,
      getCommitActivityAlternative env owner repo w = (Return weeks, w') /\
      match settled reply with
      | inr (Some (c :: cs)) =>
          sum (map total weeks) = count_if dated (c :: cs) /\
          forall i, In i [0; 1; 2; 3] ->
                    In (weekStartOf (Js.floorDiv (clock w') 1000 - i * WEEK))
                       (map week weeks)
      | _ => weeks = []
      end.
Proof.
  intros env owner repo w since reply w'.
  unfold getCommitActivityAlternative, try_catch, bind, Date_now, call, ret.
  fold since. fold reply. fold w'.
  destruct (settled reply) as [e|[[|c cs]|]].
  - now exists [].
  - now exists [].
  - exists (bucketCommits (Js.floorDiv (clock w') 1000) (c :: cs)).
    split; [reflexivity|]. split.
    + apply bucketCommits_counted.
    + intros i Hi. now apply bucketCommits_recent.
  - now exists [].
Qed.

Lemma cast_activity owner repo v :
  kinded RepoCache (activityKey owner repo) v ->
  exists l, asCommitActivity v = Some l.
Proof.
  unfold kinded, activityKey. simpl. destruct v; simpl; try congruence. eauto.
Qed.

Lemma kinded_activity owner repo l :
  kinded RepoCache (activityKey owner repo) (VCommitActivity l).
Proof. unfold kinded, activityKey. simpl. discriminate. Qed.

(** The two messages [getCommitActivity] throws. *)
Definition activityRateLimited : string :=
  "GitHub API rate limit exceeded. Please try again later.".

Definition activityNotFound : string :=
  "Repository not found or you don't have access to it.".

Section Outcomes.
Variables (env : Env) (owner repo : string).

Lemma alternative_returns w :
  exists weeks w',
    getCommitActivityAlternative env owner repo w = (Return weeks, w').
Proof.
  pose proof (FetchSpec.getCommitActivityAlternative_post env owner repo w) as P.
  apply post_returns in P. destruct P as (l & w' & R & _). eauto.
Qed.

(** The handler of [getCommitActivity]. *)
Lemma activity_handler_post error w :
  post (if isRateLimitError error then
          throw (Error "GitHub API rate limit exceeded. Please try again later.")
        else if status_is error 404 then
          throw (Error "Repository not found or you don't have access to it.")
        else
          try_catch
            (l <- getCommitActivityAlternative env owner repo ;;
             ret (inr l))
            (fun _ => ret (inr [])) : M (unit + list CommitActivity))
       w
       (fun r _ => exists l, r = inr l)
       (fun e _ => e = Error activityRateLimited \/ e = Error activityNotFound).
Proof.
  destruct (isRateLimitError error); [apply post_throw; now left|].
  destruct (status_is error 404); [apply post_throw; now right|].
  apply post_try, post_bind.
  eapply post_weaken;
    [apply FetchSpec.getCommitActivityAlternative_post| |intros ? ? []].
  intros l w' _. cbv beta. apply post_ret. eauto.
Qed.

Lemma getCommitActivity_post (n : nat) :
  forall (retryCount : Z) (w : World),
    (Z.to_nat (3 - retryCount) < n)%nat ->
    World_ok w ->
    post (getCommitActivity_fuel env n owner repo retryCount) w
         (fun _ _ => True)
         (fun e _ => e = Error activityRateLimited \/ e = Error activityNotFound).
Proof.
  induction n as [|n IH]; intros r w Hn Hw; [lia|].
  cbn [getCommitActivity_fuel]. fold (activityKey owner repo).
  apply post_bind, post_cached; [exact Hw| | |].
  - intros v K _. exact (cast_activity K).
  - intros l. now apply post_ret.
  - set (w0 := after_lookup RepoCache (activityKey owner repo) w).
    assert (Hw0 : World_ok w0) by (now apply World_ok_after_lookup).
    apply post_bind, post_try, post_bind, post_call.
    + intros e _. eapply post_weaken; [apply activity_handler_post| |trivial].
      intros x w' [l ->]. now apply post_ret.
    + intros response _. set (w1 := logged _ _ w0).
      assert (Hw1 : World_ok w1) by (now apply World_ok_logged).
      destruct (sr_status response =? 202).
      * destruct (r <? 3) eqn:R.
        -- apply Z.ltb_lt in R. apply post_bind, post_sleep, post_ret.
           apply IH; [lia|now apply World_ok_set_clock].
        -- apply post_throw.
           eapply post_weaken; [apply activity_handler_post| |trivial].
           intros x w' [l ->]. now apply post_ret.
      * destruct (sr_data response) as [| |[|wk weeks]];
          try (now do 2 apply post_ret).
        apply post_bind, post_cache_set. now do 2 apply post_ret.
Qed.

(** One attempt that the provider rejects. *)
Lemma getCommitActivity_rejected retryCount w e :
  misses RepoCache (activityKey owner repo) w ->
  settled (repos_getCommitActivityStats env owner repo (List.length (calls w)))
  = inl e ->
  fst (getCommitActivity env owner repo retryCount w)
  = if isRateLimitError e then Throw (Error activityRateLimited)
    else if status_is e 404 then Throw (Error activityNotFound)
    else Return (match fst (getCommitActivityAlternative env owner repo
                              (logged (GetCommitActivityStats owner repo)
                                 (elapsed (repos_getCommitActivityStats env owner
                                             repo (List.length (calls w))))
                                 (after_lookup RepoCache
                                               (activityKey owner repo) w)))
                 with
                 | Return l => l
                 | _ => []
                 end).
Proof.
  intros Hm He. unfold getCommitActivity. cbn [getCommitActivity_fuel].
  fold (activityKey owner repo). unfold bind at 1.
  rewrite cached_miss by exact Hm.
  set (w0 := after_lookup RepoCache (activityKey owner repo) w).
  assert (Ec : calls w0 = calls w) by apply calls_put.
  unfold bind at 1. unfold try_catch at 1. unfold bind at 1. unfold call.
  rewrite Ec, He.
  destruct (isRateLimitError e); [reflexivity|].
  destruct (status_is e 404); [reflexivity|].
  set (w1 := logged _ _ w0).
  destruct (alternative_returns w1) as (l & w2 & R).
  unfold try_catch, bind. rewrite R. reflexivity.
Qed.

End Outcomes.

(** X9.  [getCommitActivity] never throws anything but two errors with
    fixed messages, whatever the provider does and whatever is cached.  On
    a miss, a rate-limit rejection of the statistics request is thrown as
    "GitHub API rate limit exceeded. Please try again later." (with or
    without a credential), a not-found rejection as "Repository not found
    or you don't have access to it."; after any other rejection the
    function returns a list. *)
Theorem getCommitActivity_outcomes :
  forall (env : Env) (owner repo : string) (retryCount : Z) (w : World),
    World_ok w ->
    let result := fst (getCommitActivity env owner repo retryCount w) in
    result <> Stuck /\
    (forall err, result = Throw err ->
       err = Error "GitHub API rate limit exceeded. Please try again later." \/
       err = Error "Repository not found or you don't have access to it.") /\
    (misses RepoCache (activityKey owner repo) w ->
     forall e,
       settled (repos_getCommitActivityStats env owner repo
                  (List.length (calls w))) = inl e ->
       (isRateLimitError e = true ->
        result = Throw (Error "GitHub API rate limit exceeded. Please try again later.")) /\
       (isRateLimitError e = false -> status_is e 404 = true ->
        result = Throw (Error "Repository not found or you don't have access to it.")) /\
       (isRateLimitError e = false -> status_is e 404 = false ->
        exists weeks, result = Return weeks)).
Proof.
  intros env owner repo r w Hw result.
  pose proof (@getCommitActivity_post env owner repo
                (S (Z.to_nat (3 - r))) r w (le_n _) Hw) as P.
  unfold post in P. fold (getCommitActivity env owner repo r) in P.
  split; [|split].
  - subst result. destruct (getCommitActivity env owner repo r w) as [[l|e|] w'];
      [discriminate|discriminate|destruct P].
  - intros err. subst result.
    destruct (getCommitActivity env owner repo r w) as [[l|e|] w'];
      try discriminate.
    intros [= <-]. exact P.
  - intros Hm e He. subst result.
    rewrite (@getCommitActivity_rejected env owner repo r w e Hm He).
    repeat split.
    + now intros ->.
    + now intros -> ->.
    + intros -> ->. eauto.
Qed.

(** A provider whose repositories are not found. *)
Lemma getCommitActivity_outcomes_witness :
  fst (getCommitActivity Examples.missing_repo "octo" "demo" 0 Examples.fresh)
  = Throw (Error "Repository not found or you don't have access to it.").
Proof.
  apply (proj2 (proj2 (@getCommitActivity_outcomes Examples.missing_repo
                         "octo" "demo" 0 Examples.fresh
                         (World_ok_initial 1705000000000 None)))
           I Examples.notFound eq_refl);
    reflexivity.
Defined.

(** The answer of the alternative computation, from the provider's reply. *)
Lemma alternative_result (env : Env) (owner repo : string) (w : World) :
  let since := clock w - 30 * 24 * 60 * 60 * 1000 in
  let reply :=
    repos_listCommits env owner repo since (List.length (calls w)) in
  let w' := logged (ListCommits owner repo since) (elapsed reply) w in
  getCommitActivityAlternative env owner repo w
  = (Return match settled reply with
            | inr (Some (c :: cs)) =>
                bucketCommits (Js.floorDiv (clock w') 1000) (c :: cs)
            | _ => []
            end, w').
Proof.
  intros since reply w'.
  unfold getCommitActivityAlternative, try_catch, bind, Date_now, call, ret.
  fold since. fold reply. fold w'.
  now destruct (settled reply) as [e|[[|c cs]|]].
Qed.

Lemma fold_total (l : list CommitActivity) (a : Z) :
  fold_left (fun sum week => sum + total week) l a = a + sum (map total l).
Proof.
  revert a. induction l as [|wk l IH]; intros a; simpl; [unfold sum; simpl; lia|].
  rewrite IH. unfold sum. simpl. lia.
Qed.

Lemma totalCommits_sum (l : list CommitActivity) (contributors : list Contributor) :
  totalCommits (calculateMetrics l contributors) = sum (map total l).
Proof.
  unfold calculateMetrics. destruct l as [|wk l]; [reflexivity|].
  cbn [totalCommits]. rewrite fold_total. lia.
Qed.

(** X20.  The metrics computed from the alternative commit activity report
    as [totalCommits] the number of listed commits that carry a date (0
    when the listing is rejected or empty): between the listing and the
    total no commit is lost or counted twice. *)
Theorem totalCommits_counts_listed_commits :
  forall (env : Env) (owner repo : string) (w : World)
         (contributors : list Contributor),
    let reply :=
      repos_listCommits env owner repo (clock w - 30 * 24 * 60 * 60 * 1000)
                        (List.length (calls w)) in
    match fst (getCommitActivityAlternative env owner repo w) with
    | Return weeks =>
        totalCommits (calculateMetrics weeks contributors)
        = match settled reply with
          | inr (Some commits) => count_if dated commits
          | _ => 0
          end
    | _ => False
    end.
Proof.
  intros env owner repo w contributors reply.
  rewrite alternative_result. cbn [fst]. fold reply.
  rewrite totalCommits_sum.
  destruct (settled reply) as [e|[[|c cs]|]]; try reflexivity.
  apply bucketCommits_counted.
Qed.

Lemma repeat_app_cons (A : Type) (x : A) (k : nat) (l : list A) :
  repeat x k ++ x :: l = x :: repeat x k ++ l.
Proof. induction k as [|k IH]; simpl; [reflexivity|now rewrite IH]. Qed.

Section Pending.
Variables (env : Env) (owner repo : string).

(** [k] answers "still computing", then the statistics. *)
Lemma getCommitActivity_fuel_waits (k : nat) :
  forall (n : nat) (retryCount : Z) (w : World) (status : Z)
         (wk : option WeekData) (weeks : list (option WeekData)),
    (k < n)%nat ->
    retryCount + Z.of_nat k <= 3 ->
    World_ok w ->
    misses RepoCache (activityKey owner repo) w ->
    (forall i, (i < k)%nat ->
       exists d, settled (repos_getCommitActivityStats env owner repo
                            (List.length (calls w) + i))
                 = inr {| sr_status := 202; sr_data := d |}) ->
    settled (repos_getCommitActivityStats env owner repo
               (List.length (calls w) + k))
    = inr {| sr_status := status; sr_data := StatsArray (wk :: weeks) |} ->
    status <> 202 ->
    exists w',
      getCommitActivity_fuel env n owner repo retryCount w
      = (Return (map normalizeWeek (wk :: weeks)), w') /\
      calls w' = repeat (GetCommitActivityStats owner repo) (S k) ++ calls w /\
      Map_get (activityKey owner repo) (cache (repoCache w'))
      = Some {| data := VCommitActivity (map normalizeWeek (wk :: weeks));
                timestamp := clock w';
                expiresAt := clock w' + ttl (options (repoCache w)) |}.
Proof.
  induction k as [|k IH];
    intros n r w status wk weeks Hn Hr Hw Hm Hpending Hfinal Hs;
    (destruct n as [|n]; [lia|]);
    cbn [getCommitActivity_fuel]; fold (activityKey owner repo);
    unfold bind at 1; rewrite cached_miss by exact Hm;
    set (w0 := after_lookup RepoCache (activityKey owner repo) w);
    assert (Ec : calls w0 = calls w) by apply calls_put;
    unfold bind at 1; unfold try_catch at 1; unfold bind at 1;
    unfold call at 1; rewrite Ec.
  - rewrite Nat.add_0_r in Hfinal. rewrite Hfinal. cbn [sr_status sr_data].
    replace (status =? 202) with false
      by (symmetry; apply Z.eqb_neq; exact Hs).
    cbn [bind cache_set ret]. eexists. split; [reflexivity|].
    split; [cbn [calls put_cache logged repeat app]; now rewrite Ec|].
    cbn [put_cache repoCache clock logged].
    rewrite CacheSpec.get_after_set. cbn [ttl_or_default cache_of].
    do 4 f_equal. apply FetchSpec.get_options.
  - destruct (Hpending 0%nat) as [d Hd]; [lia|].
    rewrite Nat.add_0_r in Hd. rewrite Hd. cbn [sr_status].
    rewrite Z.eqb_refl.
    replace (r <? 3) with true by (symmetry; apply Z.ltb_lt; lia).
    set (w1 := logged (GetCommitActivityStats owner repo)
                      (elapsed (repos_getCommitActivityStats env owner repo
                                  (List.length (calls w)))) w0).
    cbn [bind sleep ret].
    set (w2 := set_clock (clock w1 + 3000) w1).
    assert (C2 : calls w2 = GetCommitActivityStats owner repo :: calls w)
      by (cbn [w2 w1 set_clock calls logged]; now rewrite Ec).
    destruct (IH n (r + 1) w2 status wk weeks) as (w' & R & C & L).
    + lia.
    + lia.
    + now apply World_ok_set_clock, World_ok_logged, World_ok_after_lookup.
    + eapply misses_persist; [exact Hw|exact Hm|reflexivity].
    + intros i Hi. rewrite C2. cbn [List.length].
      destruct (Hpending (S i)) as [d' Hd']; [lia|].
      exists d'.
      replace (S (List.length (calls w)) + i)%nat
        with (List.length (calls w) + S i)%nat by lia.
      exact Hd'.
    + rewrite C2. cbn [List.length].
      replace (S (List.length (calls w)) + k)%nat
        with (List.length (calls w) + S k)%nat by lia.
      exact Hfinal.
    + exact Hs.
    + exists w'. split; [exact R|]. split.
      * rewrite C, C2. apply repeat_app_cons.
      * rewrite L. do 4 f_equal.
        change (options (repoCache w2)) with (options (repoCache w0)).
        apply FetchSpec.get_options.
Qed.

End Pending.

(** X24.  Statistics that are ready within the retries are returned.  On a
    miss, when the provider answers "still computing" (status 202) to the
    first [k] requests, with [retryCount + k <= 3], and then serves a
    non-empty array of weeks, [getCommitActivity] returns these weeks
    normalised after exactly [k + 1] statistics requests and no other
    request, and has stored them in the repository cache. *)
Theorem getCommitActivity_waits_for_the_statistics :
  forall (env : Env) (owner repo : string) (retryCount : Z) (w : World)
         (k : nat) (status : Z) (wk : option WeekData)
         (weeks : list (option WeekData)),
    World_ok w ->
    misses RepoCache (activityKey owner repo) w ->
    retryCount + Z.of_nat k <= 3 ->
    (forall i, (i < k)%nat ->
       exists d, settled (repos_getCommitActivityStats env owner repo
                            (List.length (calls w) + i))
                 = inr {| sr_status := 202; sr_data := d |}) ->
    settled (repos_getCommitActivityStats env owner repo
               (List.length (calls w) + k))
    = inr {| sr_status := status; sr_data := StatsArray (wk :: weeks) |} ->
    status <> 202 ->
    exists w',
      getCommitActivity env owner repo retryCount w
      = (Return (map normalizeWeek (wk :: weeks)), w') /\
      calls w' = repeat (GetCommitActivityStats owner repo) (S k) ++ calls w /\
      Map_get (activityKey owner repo) (cache (repoCache w'))
      = Some {| data := VCommitActivity (map normalizeWeek (wk :: weeks));
                timestamp := clock w';
                expiresAt := clock w' + ttl (options (repoCache w)) |}.
Proof.
  intros env owner repo r w k status wk weeks Hw Hm Hr Hpending Hfinal Hs.
  unfold getCommitActivity.
  apply getCommitActivity_fuel_waits with (status := status); try assumption.
  lia.
Qed.

(** Two answers "still computing", then one week. *)
Lemma getCommitActivity_waits_for_the_statistics_witness :
  exists w',
    getCommitActivity Examples.eventually_computed "octo" "demo" 0
                      Examples.fresh
    = (Return [ {| week := 1704585600; total := 3;
                   days := [1; 0; 0; 2; 0; 0; 0] |} ], w') /\
    calls w' = [GetCommitActivityStats "octo" "demo";
                GetCommitActivityStats "octo" "demo";
                GetCommitActivityStats "octo" "demo"] /\
    Map_get (activityKey "octo" "demo") (cache (repoCache w'))
    = Some {| data := VCommitActivity [ {| week := 1704585600; total := 3;
                                           days := [1; 0; 0; 2; 0; 0; 0] |} ];
              timestamp := clock w';
              expiresAt := clock w' + 600000 |}.
Proof.
  apply (@getCommitActivity_waits_for_the_statistics
           Examples.eventually_computed "octo" "demo" 0 Examples.fresh 2 200
           (Some Examples.computed_week) []
           (World_ok_initial 1705000000000 None) I).
  - simpl. lia.
  - intros [|[|i]] Hi; [eexists; reflexivity|eexists; reflexivity|lia].
  - reflexivity.
  - discriminate.
Defined.

End ActivityLaws.

(* ================================================================= *)
(** ** The fetchers: what is requested, what is cached, what is thrown *)

Module FetchLaws.

Import Cache GitHub CacheFacts FetchFacts.
Local Open Scope js_scope.

Lemma no_snapshot_misses w :
  has_snapshot w = false -> misses RateLimitCache "rate-limit" w.
Proof.
  unfold has_snapshot, misses.
  destruct (lookup RateLimitCache "rate-limit" w); [trivial|trivial].
Qed.

(** A hit on an entry stored under [key]. *)
Lemma lookup_stored i key w entry :
  Map_get key (cache (cache_of i w)) = Some entry ->
  clock w <= expiresAt entry ->
  lookup i key w = Some (data entry).
Proof.
  intros G Ht. unfold lookup. now rewrite (CacheSpec.get_fresh _ _ G Ht).
Qed.

Section RateLimit.
Variable env : Env.

(** The tracker without a snapshot, when the provider answers. *)
Lemma getRateLimit_fetches w rate :
  has_snapshot w = false ->
  settled (rateLimit_get env (List.length (calls w))) = inr rate ->
  let r := {| limit := rate_limit rate; remaining := rate_remaining rate;
              reset := rate_reset rate;
              rl_isAuthenticated := authenticated w |} in
  let w0 := logged RateLimitGet
                   (elapsed (rateLimit_get env (List.length (calls w))))
                   (after_lookup RateLimitCache "rate-limit" w) in
  getRateLimit env w
  = (Return r,
     put_cache RateLimitCache
       (set "rate-limit" (VRateLimit r) None (clock w0) (clock w0)
            (rateLimitCache w0)) w0).
Proof.
  intros Hs He r w0. apply no_snapshot_misses in Hs.
  unfold getRateLimit. unfold bind at 1. rewrite cached_miss by exact Hs.
  unfold try_catch, bind, call.
  replace (calls (after_lookup RateLimitCache "rate-limit" w)) with (calls w)
    by (symmetry; apply calls_put).
  rewrite He. reflexivity.
Qed.

(** The tracker without a snapshot, when the provider rejects. *)
Lemma getRateLimit_fails w e :
  has_snapshot w = false ->
  settled (rateLimit_get env (List.length (calls w))) = inl e ->
  getRateLimit env w
  = (Throw (Error "Failed to fetch rate limit information"),
     logged RateLimitGet (elapsed (rateLimit_get env (List.length (calls w))))
            (after_lookup RateLimitCache "rate-limit" w)).
Proof.
  intros Hs He. apply no_snapshot_misses in Hs.
  unfold getRateLimit. unfold bind at 1. rewrite cached_miss by exact Hs.
  unfold try_catch, bind, call.
  replace (calls (after_lookup RateLimitCache "rate-limit" w)) with (calls w)
    by (symmetry; apply calls_put).
  rewrite He. reflexivity.
Qed.

(** The tracker with a snapshot that has not expired. *)
Lemma getRateLimit_hit w r entry :
  Map_get "rate-limit" (cache (rateLimitCache w)) = Some entry ->
  data entry = VRateLimit r ->
  clock w <= expiresAt entry ->
  getRateLimit env w = (Return r, w).
Proof.
  intros G Hd Ht. unfold getRateLimit. unfold bind.
  rewrite (@cached_hit _ RateLimitCache "rate-limit" asRateLimit w
             (VRateLimit r) r); try reflexivity.
  rewrite <- Hd. now apply lookup_stored.
Qed.

End RateLimit.

(** X10.  Without a cached snapshot, [getRateLimit] asks the provider once
    and caches what it is told together with the authentication status of
    that moment.  Until the snapshot expires (the time-to-live of the
    rate-limit cache after the answer arrived), every further call returns
    this same snapshot without a request, whatever the provider would
    answer by then and whatever credential is active by then. *)
Theorem getRateLimit_snapshot_is_reused :
  forall (env : Env) (w : World) (rate : RateData),
    has_snapshot w = false ->
    settled (rateLimit_get env (List.length (calls w))) = inr rate ->
    let r := {| limit := rate_limit rate; remaining := rate_remaining rate;
                reset := rate_reset rate;
                rl_isAuthenticated := authenticated w |} in
    exists w1,
      getRateLimit env w = (Return r, w1) /\
      calls w1 = RateLimitGet :: calls w /\
      forall (t2 : Z) (tok : option string),
        t2 <= clock w1 + ttl (options (rateLimitCache w)) ->
        getRateLimit env (later t2 tok w1) = (Return r, later t2 tok w1).
Proof.
  intros env w rate Hs He r.
  rewrite (getRateLimit_fetches env w Hs He). fold r.
  eexists. split; [reflexivity|]. split.
  - reflexivity.
  - intros t2 tok Ht.
    eapply getRateLimit_hit;
      [cbn [later put_cache rateLimitCache]; apply CacheSpec.get_after_set
      |reflexivity|].
    cbn [later put_cache clock logged expiresAt ttl_or_default rateLimitCache] in *.
    replace (options (rateLimitCache (after_lookup RateLimitCache "rate-limit" w)))
      with (options (rateLimitCache w))
      by (symmetry; apply FetchSpec.get_options).
    exact Ht.
Qed.

(** An unauthenticated snapshot taken on a fresh module is still served 30
    seconds later, under a credential set in the meantime. *)
Lemma getRateLimit_snapshot_is_reused_witness :
  exists w1,
    getRateLimit Examples.serving Examples.fresh
    = (Return {| limit := 60; remaining := 41; reset := 1705003600;
                 rl_isAuthenticated := false |}, w1) /\
    calls w1 = [RateLimitGet] /\
    forall (t2 : Z) (tok : option string),
      t2 <= clock w1 + 30000 ->
      getRateLimit Examples.serving (later t2 tok w1)
      = (Return {| limit := 60; remaining := 41; reset := 1705003600;
                   rl_isAuthenticated := false |}, later t2 tok w1).
Proof.
  exact (@getRateLimit_snapshot_is_reused Examples.serving Examples.fresh
           {| rate_limit := 60; rate_remaining := 41; rate_reset := 1705003600 |}
           eq_refl eq_refl).
Defined.

(** X11.  On a miss without a rate-limit snapshot, [getRepoDetails] depends
    on the rate-limit endpoint: when that request is rejected, for whatever
    reason, the repository is never asked for and the caller gets the
    error "Unable to fetch repository details. GitHub API may be
    unavailable or rate limited.". *)
Theorem getRepoDetails_needs_the_rate_limit :
  forall (env : Env) (owner repo : string) (w : World) (e : JsError),
    misses RepoCache (detailsKey owner repo) w ->
    has_snapshot w = false ->
    settled (rateLimit_get env (List.length (calls w))) = inl e ->
    exists w',
      getRepoDetails env owner repo w
      = (Throw (Error "Unable to fetch repository details. GitHub API may be unavailable or rate limited."),
         w') /\
      calls w' = RateLimitGet :: calls w.
Proof.
  intros env owner repo w e Hm Hs He.
  unfold getRepoDetails. fold (detailsKey owner repo).
  unfold bind at 1. rewrite cached_miss by exact Hm.
  set (w0 := after_lookup RepoCache (detailsKey owner repo) w).
  assert (Hs0 : has_snapshot w0 = false) by exact Hs.
  assert (He0 : settled (rateLimit_get env (List.length (calls w0))) = inl e)
    by exact He.
  unfold try_catch at 1. unfold bind at 1.
  rewrite (getRateLimit_fails env w0 Hs0 He0).
  eexists. split; reflexivity.
Qed.

(** A provider whose every endpoint fails with a server error. *)
Lemma getRepoDetails_needs_the_rate_limit_witness :
  exists w',
    getRepoDetails (Examples.rejecting Examples.serverError) "octo" "demo"
                   Examples.fresh
    = (Throw (Error "Unable to fetch repository details. GitHub API may be unavailable or rate limited."),
       w') /\
    calls w' = [RateLimitGet].
Proof.
  exact (@getRepoDetails_needs_the_rate_limit
           (Examples.rejecting Examples.serverError) "octo" "demo"
           Examples.fresh Examples.serverError I eq_refl eq_refl).
Defined.

(** X12.  On a miss, when the repository request is rejected,
    [getRepoDetails] throws a plain error whose message depends on the
    rejection only through its kind: a rate-limit rejection, not found
    (404), invalid request (422), or anything else.  The message for a
    rate-limit rejection ends with the advice to add a GITHUB_TOKEN in
    every state, whatever credential [octokit] was made with. *)
Theorem getRepoDetails_error_messages :
  forall (env : Env) (owner repo : string) (w : World) (e : JsError),
    World_ok w ->
    misses RepoCache (detailsKey owner repo) w ->
    (forall n, exists rate, settled (rateLimit_get env n) = inr rate) ->
    (forall n, settled (repos_get env owner repo n) = inl e) ->
    fst (getRepoDetails env owner repo w)
    = Throw (Error
        (if isRateLimitError e then
           "GitHub API rate limit exceeded. Add a GITHUB_TOKEN to increase your rate limit from 60 to 5,000 requests per hour."
         else if status_is e 404 then
           "The requested repository details could not be found. The repository may be private or does not exist."
         else if status_is e 422 then
           "Invalid request when fetching repository details. Please check the repository name and owner."
         else
           "Unable to fetch repository details. GitHub API may be unavailable or rate limited.")).
Proof.
  intros env owner repo w e Hw Hm Hrate Hrej.
  match goal with |- _ = Throw ?x =>
    assert (P : post (getRepoDetails env owner repo) w
                     (fun _ _ => False) (fun err _ => err = x)) end.
  { unfold getRepoDetails. fold (detailsKey owner repo).
    apply post_bind, post_cached_miss; [exact Hm|].
    pose proof (World_ok_after_lookup RepoCache (detailsKey owner repo) Hw)
      as Hw1.
    destruct (getRateLimit_resolves env Hw1 Hrate) as (r & w2 & G & Q).
    assert (Et : token w2 = token w).
    { destruct Q as (_ & Et & _). rewrite Et. apply token_put. }
    apply post_try, post_bind. eapply post_run_Return; [exact G|].
    apply post_bind, post_call.
    - intros e0 He0. rewrite Hrej in He0. injection He0 as <-.
      unfold ENABLE_UNGH_FALLBACK. cbn [andb]. apply post_bind, post_ret.
      unfold handleApiError. destruct (isRateLimitError e).
      + now apply post_bind, post_isAuthenticated, post_throw.
      + destruct (status_is e 404); [now apply post_throw|].
        destruct (status_is e 422); now apply post_throw.
    - intros a Ha. rewrite Hrej in Ha. discriminate. }
  apply post_throws in P. destruct P as (err & w' & -> & ->). reflexivity.
Qed.

(** Out of quota with [GITHUB_TOKEN] set. *)
Lemma getRepoDetails_error_messages_witness :
  fst (getRepoDetails Examples.out_of_quota "octo" "demo"
                      Examples.with_credential)
  = Throw (Error "GitHub API rate limit exceeded. Add a GITHUB_TOKEN to increase your rate limit from 60 to 5,000 requests per hour.").
Proof.
  apply (@getRepoDetails_error_messages Examples.out_of_quota "octo" "demo"
           Examples.with_credential Examples.rateLimited
           (World_ok_initial 1705000000000 (Some "ghp_example")) I).
  - intros n. eexists. reflexivity.
  - reflexivity.
Defined.

Section Contributors.
Variables (env : Env) (owner repo : string).

Local Abbreviation reply w :=
  (repos_listContributors env owner repo (List.length (calls w))).

Local Abbreviation asked w :=
  (logged (ListContributors owner repo) (elapsed (reply w))
          (after_lookup RepoCache (contributorsKey owner repo) w)).

(** One request that is rejected. *)
Lemma getContributors_rejected w e :
  misses RepoCache (contributorsKey owner repo) w ->
  settled (reply w) = inl e ->
  getContributors env owner repo w
  = (if isRateLimitError e then Throw e else Return [], asked w).
Proof.
  intros Hm He. unfold getContributors. fold (contributorsKey owner repo).
  unfold bind at 1. rewrite cached_miss by exact Hm.
  unfold try_catch, bind, call.
  replace (calls (after_lookup RepoCache (contributorsKey owner repo) w))
    with (calls w) by (symmetry; apply calls_put).
  rewrite He. unfold ENABLE_UNGH_FALLBACK. cbn [andb ret].
  now destruct (isRateLimitError e).
Qed.

(** One request that lists nobody. *)
Lemma getContributors_nobody w :
  misses RepoCache (contributorsKey owner repo) w ->
  settled (reply w) = inr None \/ settled (reply w) = inr (Some []) ->
  getContributors env owner repo w = (Return [], asked w).
Proof.
  intros Hm He. unfold getContributors. fold (contributorsKey owner repo).
  unfold bind at 1. rewrite cached_miss by exact Hm.
  unfold try_catch, bind, call.
  replace (calls (after_lookup RepoCache (contributorsKey owner repo) w))
    with (calls w) by (symmetry; apply calls_put).
  now destruct He as [-> | ->].
Qed.

End Contributors.

(** X13.  On a miss, a rejected contributors request costs exactly one
    request and caches nothing; a rate-limit rejection is rethrown as the
    provider's own error object, status and headers included, and every
    other rejection is turned into the empty list. *)
Theorem getContributors_rethrows_only_rate_limits :
  forall (env : Env) (owner repo : string) (w : World) (e : JsError),
    misses RepoCache (contributorsKey owner repo) w ->
    settled (repos_listContributors env owner repo (List.length (calls w)))
    = inl e ->
    getContributors env owner repo w
    = (if isRateLimitError e then Throw e else Return [],
       logged (ListContributors owner repo)
              (elapsed (repos_listContributors env owner repo
                          (List.length (calls w))))
              (after_lookup RepoCache (contributorsKey owner repo) w)).
Proof. intros. now apply getContributors_rejected. Qed.

Lemma getContributors_rethrows_only_rate_limits_witness :
  fst (getContributors Examples.out_of_quota "octo" "demo" Examples.fresh)
  = Throw Examples.rateLimited /\
  fst (getContributors (Examples.rejecting Examples.serverError) "octo" "demo"
                       Examples.fresh)
  = Return [].
Proof.
  split.
  - now rewrite (@getContributors_rethrows_only_rate_limits
                   Examples.out_of_quota "octo" "demo" Examples.fresh
                   Examples.rateLimited I eq_refl).
  - now rewrite (@getContributors_rethrows_only_rate_limits
                   (Examples.rejecting Examples.serverError) "octo" "demo"
                   Examples.fresh Examples.serverError I eq_refl).
Defined.

(** X14.  An answer that lists no contributor is returned as the empty
    list and is not cached: a second call, at any later time, asks the
    provider again. *)
Theorem getContributors_empty_answer_is_not_cached :
  forall (env : Env) (owner repo : string) (w : World) (t2 : Z),
    World_ok w ->
    misses RepoCache (contributorsKey owner repo) w ->
    (forall n, settled (repos_listContributors env owner repo n) = inr None \/
               settled (repos_listContributors env owner repo n) = inr (Some [])) ->
    let first := getContributors env owner repo w in
    let second := getContributors env owner repo (set_clock t2 (snd first)) in
    fst first = Return [] /\
    fst second = Return [] /\
    calls (snd second)
    = ListContributors owner repo :: ListContributors owner repo :: calls w.
Proof.
  intros env owner repo w t2 Hw Hm Hempty first second.
  assert (E1 : first = (Return [],
                        logged (ListContributors owner repo)
                          (elapsed (repos_listContributors env owner repo
                                      (List.length (calls w))))
                          (after_lookup RepoCache (contributorsKey owner repo) w)))
    by (apply getContributors_nobody; [exact Hm|apply Hempty]).
  assert (Hm2 : misses RepoCache (contributorsKey owner repo)
                       (set_clock t2 (snd first))).
  { eapply misses_persist; [exact Hw|exact Hm|]. now rewrite E1. }
  assert (E2 : second = (Return [],
                         logged (ListContributors owner repo)
                           (elapsed (repos_listContributors env owner repo
                                       (List.length (calls (set_clock t2 (snd first))))))
                           (after_lookup RepoCache (contributorsKey owner repo)
                                         (set_clock t2 (snd first)))))
    by (apply getContributors_nobody; [exact Hm2|apply Hempty]).
  rewrite E2. split; [now rewrite E1|]. split; [reflexivity|].
  cbn [snd calls logged]. f_equal.
  unfold after_lookup. rewrite calls_put. rewrite E1. reflexivity.
Qed.

Lemma getContributors_empty_answer_is_not_cached_witness :
  let first := getContributors Examples.no_contributors "octo" "demo"
                               Examples.fresh in
  let second := getContributors Examples.no_contributors "octo" "demo"
                                (set_clock 1705000001000 (snd first)) in
  fst first = Return [] /\
  fst second = Return [] /\
  calls (snd second)
  = [ListContributors "octo" "demo"; ListContributors "octo" "demo"].
Proof.
  apply (@getContributors_empty_answer_is_not_cached Examples.no_contributors
           "octo" "demo" Examples.fresh 1705000001000
           (World_ok_initial 1705000000000 None) I).
  intros n. now right.
Defined.

(** *** Listings, files and trees *)

Lemma get_after_get_other (T : Type) key key' now now' (c : ApiCache T) :
  key' <> key ->
  fst (get key' now' (snd (get key now c))) = fst (get key' now' c).
Proof.
  intros N. unfold get at 2.
  destruct (Map_get key (cache c)) as [entry|]; [|reflexivity].
  destruct (now >? expiresAt entry); [|reflexivity].
  cbn [snd]. unfold get. cbn [cache with_cache].
  rewrite CacheLaws.Map_get_delete_other by exact N.
  destruct (Map_get key' (cache c)) as [entry'|]; [|reflexivity].
  now destruct (now' >? expiresAt entry').
Qed.

(** A lookup under one key does not disturb the other keys. *)
Lemma misses_other i key key' w :
  key' <> key -> misses i key' w -> misses i key' (after_lookup i key w).
Proof.
  intros N. unfold misses, lookup, after_lookup.
  rewrite cache_of_put_same, clock_put.
  now rewrite get_after_get_other by exact N.
Qed.

Lemma contentsKey_not_treeKey owner repo path maxDepth currentDepth :
  contentsKey owner repo path <> treeKey owner repo path maxDepth currentDepth.
Proof. unfold contentsKey, treeKey. simpl. discriminate. Qed.

Section Listings.
Variables (env : Env) (owner repo path : string).

Lemma getRepoContents_skipped maxSize retryCount w :
  shouldSkipPath path = true ->
  misses ContentCache (contentsKey owner repo path) w ->
  getRepoContents env owner repo path maxSize retryCount w
  = (Return [], after_lookup ContentCache (contentsKey owner repo path) w).
Proof.
  intros Hskip Hm. unfold getRepoContents. cbn [getRepoContents_fuel].
  fold (contentsKey owner repo path). unfold bind at 1.
  rewrite cached_miss by exact Hm.
  unfold try_catch, bind. now rewrite Hskip.
Qed.

(** One attempt that the provider answers. *)
Lemma getRepoContents_fuel_fetches n maxSize retryCount w data :
  misses ContentCache (contentsKey owner repo path) w ->
  shouldSkipPath path = false ->
  settled (repos_getContent env owner repo path (List.length (calls w)))
  = inr data ->
  let w0 := logged (GetContent owner repo path)
                   (elapsed (repos_getContent env owner repo path
                                              (List.length (calls w))))
                   (after_lookup ContentCache (contentsKey owner repo path) w) in
  getRepoContents_fuel env (S n) owner repo path maxSize retryCount w
  = (Return (listingOf env data),
     put_cache ContentCache
       (set (contentsKey owner repo path)
            (VFileContents (listingOf env data)) None
            (clock w0) (clock w0) (contentCache w0)) w0).
Proof.
  intros Hm Hskip He w0. cbn [getRepoContents_fuel].
  fold (contentsKey owner repo path). unfold bind at 1.
  rewrite cached_miss by exact Hm.
  unfold try_catch, bind, call. rewrite Hskip.
  replace (calls (after_lookup ContentCache (contentsKey owner repo path) w))
    with (calls w) by (symmetry; apply calls_put).
  rewrite He. reflexivity.
Qed.



End Listings.

(** X15.  A path on the skip list is never requested.  On a miss,
    [getRepoContents] answers the empty list and [getFileContent] its
    placeholder without any request and without storing anything; and
    [buildFileTree], below its depth limit, returns the empty tree for such
    a path without any request. *)
Theorem skipped_path_is_never_requested :
  forall (env : Env) (owner repo path : string)
         (maxSize retryCount maxDepth currentDepth : Z) (w : World),
    shouldSkipPath path = true ->
    (misses ContentCache (contentsKey owner repo path) w ->
     getRepoContents env owner repo path maxSize retryCount w
     = (Return [], after_lookup ContentCache (contentsKey owner repo path) w))
    /\
    (misses ContentCache (fileKey owner repo path) w ->
     getFileContent env owner repo path retryCount w
     = (Return ("// File skipped: " +++ path +++ " (likely binary or too large)"),
        after_lookup ContentCache (fileKey owner repo path) w))
    /\
    (misses ContentCache (treeKey owner repo path maxDepth currentDepth) w ->
     misses ContentCache (contentsKey owner repo path) w ->
     currentDepth < maxDepth ->
     exists w',
       buildFileTree env owner repo path maxDepth currentDepth retryCount w
       = (Return [], w') /\
       calls w' = calls w).
Proof.
  intros env owner repo path maxSize r maxDepth currentDepth w Hskip.
  split; [|split].
  - intros Hm. now apply getRepoContents_skipped.
  - intros Hm. unfold getFileContent. cbn [getFileContent_fuel].
    fold (fileKey owner repo path). unfold bind at 1.
    rewrite cached_miss by exact Hm.
    unfold try_catch, bind. now rewrite Hskip.
  - intros Hmt Hmc Hd. unfold buildFileTree, treeFuel.
    cbn [buildFileTree_fuel]. unfold bind at 1.
    rewrite cached_miss by exact Hmt.
    replace (currentDepth >=? maxDepth) with false
      by (symmetry; rewrite Z.geb_leb; apply Z.leb_gt; exact Hd).
    unfold bind at 1. unfold try_catch at 1. unfold bind at 1.
    rewrite (@getRepoContents_skipped env owner repo path 1000 0 _ Hskip)
      by (apply misses_other; [apply contentsKey_not_treeKey|exact Hmc]).
    eexists. split; [reflexivity|].
    cbn [calls put_cache]. unfold after_lookup. now rewrite !calls_put.
Qed.

Lemma skipped_path_is_never_requested_witness :
  getRepoContents Examples.listing "octo" "demo" "node_modules" 1000 0
                  Examples.fresh
  = (Return [], Examples.fresh) /\
  exists w',
    buildFileTree Examples.listing "octo" "demo" "node_modules" 3 0 0
                  Examples.fresh
    = (Return [], w') /\
    calls w' = [].
Proof.
  destruct (@skipped_path_is_never_requested Examples.listing "octo" "demo"
              "node_modules" 1000 0 3 0 Examples.fresh eq_refl)
    as (H1 & _ & H3).
  split.
  - exact (H1 I).
  - apply H3; [exact I|exact I|reflexivity].
Defined.





(** X18.  [buildFileTree] always returns: whatever the provider answers and
    whatever is cached, it throws nothing.  At or beyond the depth limit a
    miss gives the empty tree without a request.  A rate-limit rejection of
    the listing is not reported either: once [getRepoContents] has given up
    on the directory, the tree is the empty list. *)
Theorem buildFileTree_never_throws :
  forall (env : Env) (owner repo path : string)
         (maxDepth currentDepth retryCount : Z) (w : World),
    World_ok w ->
    (exists result w',
        buildFileTree env owner repo path maxDepth currentDepth retryCount w
        = (Return result, w') /\ World_ok w')
    /\
    (misses ContentCache (treeKey owner repo path maxDepth currentDepth) w ->
     maxDepth <= currentDepth ->
     buildFileTree env owner repo path maxDepth currentDepth retryCount w
     = (Return [],
        after_lookup ContentCache (treeKey owner repo path maxDepth currentDepth) w))
    /\
    (misses ContentCache (treeKey owner repo path maxDepth currentDepth) w ->
     misses ContentCache (contentsKey owner repo path) w ->
     shouldSkipPath path = false ->
     always_rejects (repos_getContent env owner repo path) isRateLimitError ->
     fst (buildFileTree env owner repo path maxDepth currentDepth retryCount w)
     = Return []).
Proof.
  intros env owner repo path maxDepth currentDepth r w Hw.
  split; [|split].
  - pose proof (@FetchSpec.buildFileTree_post env owner repo
                  (treeFuel maxDepth currentDepth r) path maxDepth currentDepth
                  r w (le_n _) Hw) as P.
    apply post_returns in P. destruct P as (result & w' & R & Hw').
    now exists result, w'.
  - intros Hm Hd. unfold buildFileTree, treeFuel. cbn [buildFileTree_fuel].
    unfold bind at 1. rewrite cached_miss by exact Hm.
    replace (currentDepth >=? maxDepth) with true; [reflexivity|].
    symmetry. rewrite Z.geb_leb. apply Z.leb_le. exact Hd.
  - intros Hmt Hmc Hskip Hrej.
    set (w0 := after_lookup ContentCache
                            (treeKey owner repo path maxDepth currentDepth) w).
    assert (Hw0 : World_ok w0) by (now apply World_ok_after_lookup).
    assert (Hm0 : misses ContentCache (contentsKey owner repo path) w0)
      by (apply misses_other; [apply contentsKey_not_treeKey|exact Hmc]).
    pose proof (@FetchSpec.getRepoContents_gives_up env owner repo path 1000
                  Hskip Hrej 3 0 w0 (le_n _) Hw0 Hm0) as P.
    apply post_throws in P. destruct P as (e & w1 & G & _).
    rewrite (@FetchSpec.buildFileTree_listing_fails env owner repo path
               maxDepth currentDepth r w e w1 Hw Hmt G).
    reflexivity.
Qed.

(** A provider out of quota: the tree of the repository is empty. *)
Lemma buildFileTree_never_throws_witness :
  fst (buildFileTree Examples.out_of_quota "octo" "demo" "" 3 0 0
                     Examples.fresh)
  = Return [].
Proof.
  apply (proj2 (proj2 (@buildFileTree_never_throws Examples.out_of_quota
                         "octo" "demo" "" 3 0 0 Examples.fresh
                         (World_ok_initial 1705000000000 None))));
    [exact I|exact I|reflexivity|].
  intros n. exists Examples.rateLimited. split; reflexivity.
Defined.

(** *** Waiting for the quota *)

Section Waiting.
Variable env : Env.

(** The wait, once the tracker has answered. *)
Lemma waitForReset_run retryCount w rl w1 :
  getRateLimit env w = (Return rl, w1) ->
  waitForReset env retryCount w
  = if (retryCount <? 2)
       && (Z.max (reset rl - Js.floorDiv (clock w1) 1000) 0 <? 30)
    then (Return true,
          set_clock (clock w1
                     + (Z.max (reset rl - Js.floorDiv (clock w1) 1000) 0 + 1)
                       * 1000) w1)
    else (Return false, w1).
Proof.
  intros G. unfold waitForReset, try_catch, bind, Date_now. rewrite G.
  now destruct ((retryCount <? 2) && _).
Qed.

Lemma floorDiv_after_wait now n :
  Js.floorDiv (now + (n + 1) * 1000) 1000 = Js.floorDiv now 1000 + n + 1.
Proof. unfold Js.floorDiv. rewrite Z.div_add by lia. lia. Qed.

End Waiting.

(** X21.  The wait before a retry (the same block in [getRepoContents],
    [buildFileTree] and [getFileContent]), once the rate-limit tracker has
    answered: a retry is granted only with fewer than two retries used and
    a reset less than 30 seconds away; the wait then lasts between 1 and 30
    seconds and ends after the reset time the tracker reported.  Otherwise
    no time is spent waiting. *)
Theorem waitForReset_waits_past_the_reset :
  forall (env : Env) (retryCount : Z) (w : World) (rl : RateLimit) (w1 : World),
    getRateLimit env w = (Return rl, w1) ->
    match waitForReset env retryCount w with
    | (Return true, w') =>
        retryCount < 2 /\
        1000 <= clock w' - clock w1 <= 30000 /\
        reset rl < Js.floorDiv (clock w') 1000 /\
        calls w' = calls w1
    | (Return false, w') =>
        w' = w1 /\
        (2 <= retryCount \/ 30 <= reset rl - Js.floorDiv (clock w1) 1000)
    | _ => False
    end.
Proof.
  intros env r w rl w1 G. rewrite (waitForReset_run env r w G).
  destruct (r <? 2) eqn:R; cbn [andb].
  - apply Z.ltb_lt in R.
    destruct (Z.max (reset rl - Js.floorDiv (clock w1) 1000) 0 <? 30) eqn:W.
    + apply Z.ltb_lt in W. cbn [set_clock clock calls].
      rewrite floorDiv_after_wait. repeat split; try lia.
    + apply Z.ltb_ge in W. split; [reflexivity|]. right. lia.
  - apply Z.ltb_ge in R. split; [reflexivity|]. now left.
Qed.

(** A quota that resets five seconds after the rejection: the wait is six
    seconds. *)
Lemma waitForReset_waits_past_the_reset_witness :
  match waitForReset Examples.out_of_quota 0 Examples.fresh with
  | (Return true, w') =>
      0 < 2 /\
      1000 <= clock w' - 1705000000120 <= 30000 /\
      1705000005 < Js.floorDiv (clock w') 1000 /\
      calls w' = [RateLimitGet]
  | (Return false, w') => False
  | _ => False
  end.
Proof.
  exact (@waitForReset_waits_past_the_reset Examples.out_of_quota 0
           Examples.fresh
           {| limit := 60; remaining := 0; reset := 1705000005;
              rl_isAuthenticated := false |}
           (snd (getRateLimit Examples.out_of_quota Examples.fresh)) eq_refl).
Defined.


(** X22.  A short rate limit is survived.  When the first request for a
    listing is rejected for the rate limit with a retry left, the tracker
    reports a reset less than 30 seconds away, and the provider answers the
    next request, [getRepoContents] waits, asks again and returns that
    listing: nothing is thrown, and no request is made besides the two for
    the listing and what the tracker needed. *)
Theorem getRepoContents_retries_after_the_reset :
  forall (env : Env) (owner repo path : string) (maxSize retryCount : Z)
         (w : World) (e : JsError) (rl : RateLimit) (w1 : World)
         (data : ContentData),
    World_ok w ->
    misses ContentCache (contentsKey owner repo path) w ->
    shouldSkipPath path = false ->
    retryCount < 2 ->
    let first := repos_getContent env owner repo path (List.length (calls w)) in
    let rejectedAt :=
      logged (GetContent owner repo path) (elapsed first)
             (after_lookup ContentCache (contentsKey owner repo path) w) in
    settled first = inl e ->
    isRateLimitError e = true ->
    getRateLimit env rejectedAt = (Return rl, w1) ->
    reset rl - Js.floorDiv (clock w1) 1000 < 30 ->
    settled (repos_getContent env owner repo path (List.length (calls w1)))
    = inr data ->
    exists w',
      getRepoContents env owner repo path maxSize retryCount w
      = (Return (listingOf env data), w') /\
      calls w' = GetContent owner repo path :: calls w1 /\
      (calls w1 = GetContent owner repo path :: calls w \/
       calls w1 = RateLimitGet :: GetContent owner repo path :: calls w).
Proof.
  intros env owner repo path maxSize r w e rl w1 data Hw Hm Hskip Hr
         first rejectedAt He RL G Hsoon Hnext.
  set (wait := (Z.max (reset rl - Js.floorDiv (clock w1) 1000) 0 + 1) * 1000).
  set (w2 := set_clock (clock w1 + wait) w1).
  assert (Hw0 : World_ok rejectedAt)
    by (now apply World_ok_logged, World_ok_after_lookup).
  pose proof (getRateLimit_post env Hw0) as Q. unfold post in Q.
  rewrite G in Q. destruct Q as (_ & _ & _ & Hc & Hcalls).
  assert (W : waitForReset env r rejectedAt = (Return true, w2)).
  { rewrite (waitForReset_run env r rejectedAt G).
    replace (r <? 2) with true by (symmetry; apply Z.ltb_lt; exact Hr).
    replace (Z.max (reset rl - Js.floorDiv (clock w1) 1000) 0 <? 30) with true
      by (symmetry; apply Z.ltb_lt; lia).
    reflexivity. }
  assert (Hm2 : misses ContentCache (contentsKey owner repo path) w2).
  { eapply misses_persist; [exact Hw|exact Hm|]. exact Hc. }
  unfold getRepoContents.
  destruct (Z.to_nat (2 - r)) as [|k] eqn:F; [lia|].
  remember (S k) as fuel eqn:Ef.
  cbn [getRepoContents_fuel]. fold (contentsKey owner repo path).
  unfold bind at 1. rewrite cached_miss by exact Hm.
  unfold bind at 1. unfold try_catch at 1. unfold bind at 1. unfold call at 1.
  rewrite Hskip.
  replace (calls (after_lookup ContentCache (contentsKey owner repo path) w))
    with (calls w) by (symmetry; apply calls_put).
  fold first. rewrite He. fold rejectedAt. rewrite RL.
  unfold bind at 1. rewrite W. cbn [ret].
  subst fuel.
  rewrite (@getRepoContents_fuel_fetches env owner repo path k maxSize (r + 1)
             w2 data Hm2 Hskip Hnext).
  eexists. split; [reflexivity|]. split; [reflexivity|].
  replace (calls rejectedAt) with (GetContent owner repo path :: calls w)
    in Hcalls; [exact Hcalls|].
  reflexivity.
Qed.

Lemma getRepoContents_retries_after_the_reset_witness :
  exists w',
    getRepoContents Examples.briefly_limited "octo" "demo" "src" 1000 0
                    Examples.fresh
    = (Return (map normalizeItem Examples.src_items), w') /\
    calls w' = [GetContent "octo" "demo" "src"; RateLimitGet;
                GetContent "octo" "demo" "src"].
Proof.
  refine (let H := @getRepoContents_retries_after_the_reset Examples.briefly_limited
           "octo" "demo" "src" 1000 0 Examples.fresh Examples.rateLimited
           {| limit := 60; remaining := 0; reset := 1705000005;
              rl_isAuthenticated := false |}
           (snd (getRateLimit Examples.briefly_limited
                   (logged (GetContent "octo" "demo" "src") 120
                           (after_lookup ContentCache
                                         (contentsKey "octo" "demo" "src")
                                         Examples.fresh))))
           (ContentArray Examples.src_items)
           (World_ok_initial 1705000000000 None) I eq_refl
           eq_refl eq_refl eq_refl eq_refl eq_refl eq_refl in _).
  destruct H as (w' & R & C & _). exists w'. split; [exact R|exact C].
Defined.

End FetchLaws.

(* ================================================================= *)
(** ** [calculateMetrics]: the activity trend *)

Module TrendSpec.

Import GitHub.

Local Abbreviation zero := (Js.toNumber 0).

Lemma olderWeeks_short (l : list CommitActivity) :
  (List.length l <= 4)%nat -> olderWeeks l = [].
Proof.
  intros H. unfold olderWeeks, Js.slice. cbn [Z.ltb Z.compare].
  replace (Z.to_nat (Z.max (Z.of_nat (List.length l) + -4) 0
                     - Z.max (Z.of_nat (List.length l) + -8) 0))
    with 0%nat by lia.
  reflexivity.
Qed.

Lemma olderWeeks_length (l : list CommitActivity) :
  (List.length (olderWeeks l) <= 4)%nat.
Proof.
  unfold olderWeeks, Js.slice. cbn [Z.ltb Z.compare].
  rewrite length_firstn. etransitivity; [apply Nat.le_min_l|lia].
Qed.

Lemma sumTotals_zero (l : list CommitActivity) :
  (forall wk, In wk l -> total wk = 0) -> sumTotals l = zero.
Proof.
  unfold sumTotals. induction l as [|wk l IH]; intros H; [reflexivity|].
  cbn [fold_left]. rewrite (H wk) by now left.
  assert (E : PrimFloat.add zero zero = zero) by (vm_compute; reflexivity).
  rewrite E. apply IH. intros wk' Hin. apply H. now right.
Qed.

(** An average over at most four weeks without commits is not positive. *)
Lemma averageTotal_zero (l : list CommitActivity) :
  (List.length l <= 4)%nat ->
  (forall wk, In wk l -> total wk = 0) ->
  PrimFloat.ltb zero (averageTotal l) = false.
Proof.
  intros Hlen H. unfold averageTotal.
  destruct l as [|a [|b [|c [|d [|e rest]]]]];
    try (rewrite (sumTotals_zero _ H); vm_compute; reflexivity).
  - vm_compute. reflexivity.
  - simpl in Hlen. lia.
Qed.

(** X19.  The trend compares the last four weeks with the four weeks before
    them, and is only computed when those older weeks have commits: with
    four weeks of history or fewer, or with no commit in the older weeks,
    [activityTrend] is "stable" with a change of 0 percent, however many
    commits the recent weeks have. *)
Theorem activityTrend_stable_without_older_commits :
  forall (commitActivity : list CommitActivity),
    (List.length commitActivity <= 4)%nat \/
    (forall wk, In wk (olderWeeks commitActivity) -> total wk = 0) ->
    activityTrend commitActivity
    = {| trend := "stable"; changePercent := Js.toNumber 0 |}.
Proof.
  intros commitActivity H.
  assert (Hz : forall wk, In wk (olderWeeks commitActivity) -> total wk = 0).
  { destruct H as [H|H]; [|exact H].
    rewrite (olderWeeks_short _ H). intros wk []. }
  unfold activityTrend. destruct commitActivity as [|wk l]; [reflexivity|].
  cbv zeta. now rewrite (averageTotal_zero _ (olderWeeks_length _) Hz).
Qed.

(** Two hundred commits in the last four weeks after four weeks without
    any: the trend is "stable". *)
Lemma activityTrend_stable_without_older_commits_witness :
  activityTrend Examples.quiet_then_busy
  = {| trend := "stable"; changePercent := Js.toNumber 0 |}.
Proof.
  apply activityTrend_stable_without_older_commits. right.
  intros wk [<-|[<-|[<-|[<-|[]]]]]; reflexivity.
Defined.

(** From one commit a week to two: a change of 100 percent. *)
Example activityTrend_doubling :
  activityTrend Examples.one_then_two
  = {| trend := "increasing"; changePercent := Js.toNumber 100 |}.
Proof. vm_compute. reflexivity. Qed.

End TrendSpec.

(* ================================================================= *)
(** ** The caches stay well typed *)

Module Safety.

Import Cache GitHub CacheFacts FetchFacts.
Local Open Scope js_scope.

(** The call returns or throws, and leaves the caches well formed. *)
Local Abbreviation safe m w :=
  (post m w (fun _ w' => World_ok w') (fun _ w' => World_ok w')).

Lemma cast_details owner repo v :
  kinded RepoCache (detailsKey owner repo) v ->
  exists d, asRepoDetails v = Some d.
Proof.
  unfold kinded, detailsKey. simpl. rewrite FetchSpec.prefix_nil.
  destruct v; simpl; try congruence. eauto.
Qed.

Lemma kinded_details owner repo d :
  kinded RepoCache (detailsKey owner repo) (VRepoDetails d).
Proof.
  unfold kinded, detailsKey. simpl. rewrite FetchSpec.prefix_nil. discriminate.
Qed.

Lemma cast_contributors owner repo v :
  kinded RepoCache (contributorsKey owner repo) v ->
  exists l, asContributors v = Some l.
Proof.
  unfold kinded, contributorsKey. simpl. rewrite FetchSpec.prefix_nil.
  destruct v; simpl; try congruence. eauto.
Qed.

Lemma kinded_contributors owner repo l :
  kinded RepoCache (contributorsKey owner repo) (VContributors l).
Proof.
  unfold kinded, contributorsKey. simpl. rewrite FetchSpec.prefix_nil.
  discriminate.
Qed.

Lemma cast_file owner repo path v :
  kinded ContentCache (fileKey owner repo path) v ->
  exists text, asString v = Some text.
Proof.
  unfold kinded, fileKey. simpl. rewrite FetchSpec.prefix_nil.
  destruct v; simpl; try congruence. eauto.
Qed.

Lemma World_ok_stored i key v t w :
  World_ok w -> kinded i key v ->
  World_ok (put_cache i (set key v t (clock w) (clock w) (cache_of i w)) w).
Proof.
  intros Hw K. apply World_ok_put; [exact Hw|].
  apply set_cache_ok; [apply Hw|exact K].
Qed.

Section Fetchers.
Variable env : Env.

Lemma handleApiError_safe A error entityName w :
  World_ok w -> safe (@handleApiError A error entityName) w.
Proof.
  intros Hw. unfold handleApiError.
  destruct (isRateLimitError error);
    [now apply post_bind, post_isAuthenticated, post_throw|].
  destruct (status_is error 404); [now apply post_throw|].
  destruct (status_is error 422); now apply post_throw.
Qed.

Lemma getRateLimit_safe w : World_ok w -> safe (getRateLimit env) w.
Proof.
  intros Hw. eapply post_weaken; [apply (getRateLimit_post env Hw)| |].
  - intros r w' Q. apply Q.
  - intros e w' [Q _]. apply Q.
Qed.

Lemma waitForReset_safe retryCount w :
  World_ok w ->
  post (waitForReset env retryCount) w
       (fun again w' => World_ok w' /\ (again = true -> retryCount < 2))
       (fun _ _ => False).
Proof.
  intros Hw.
  eapply post_weaken; [apply (waitForReset_post env retryCount Hw)| |trivial].
  intros again w' [Q H]. split; [apply Q|exact H].
Qed.

Lemma getRepoDetails_safe owner repo w :
  World_ok w -> safe (getRepoDetails env owner repo) w.
Proof.
  intros Hw. unfold getRepoDetails. fold (detailsKey owner repo).
  apply post_bind, post_cached; [exact Hw| | |].
  - intros v K _. exact (@cast_details _ _ _ K).
  - intros d. now apply post_ret.
  - pose proof (World_ok_after_lookup RepoCache (detailsKey owner repo) Hw)
      as Hw0.
    assert (Hh : forall error w1, World_ok w1 ->
               safe (r <- (if ENABLE_UNGH_FALLBACK && isRateLimitError error
                           then
                             try_catch
                               (unghData <- call (UnghFetch ("/repos/" +++ owner +++ "/" +++ repo))
                                              (fetchFromUNGH env ("/repos/" +++ owner +++ "/" +++ repo)) ;;
                                match unghData with
                                | Some data =>
                                    now <- Date_now ;;
                                    let result := unghRepo env owner repo now data in
                                    cache_set RepoCache (detailsKey owner repo)
                                              (VRepoDetails result) None ;;
                                    ret (Some result)
                                | None => ret None
                                end)
                               (fun _ => ret None)
                           else ret None) ;;
                     match r with
                     | Some result => ret result
                     | None => handleApiError error "repository details"
                     end) w1).
    { intros error w1 Hw1. unfold ENABLE_UNGH_FALLBACK. cbn [andb].
      apply post_bind, post_ret. now apply handleApiError_safe. }
    apply post_try, post_bind.
    eapply post_weaken; [apply (getRateLimit_safe Hw0)| |].
    + intros rl w1 Hw1. cbv beta. apply post_bind, post_call.
      * intros e _. apply Hh. now apply World_ok_logged.
      * intros data _. apply post_bind, post_cache_set, post_ret.
        apply World_ok_stored; [now apply World_ok_logged|apply kinded_details].
    + intros e w1 Hw1. cbv beta. now apply Hh.
Qed.

Lemma getContributors_safe owner repo w :
  World_ok w -> safe (getContributors env owner repo) w.
Proof.
  intros Hw. unfold getContributors. fold (contributorsKey owner repo).
  apply post_bind, post_cached; [exact Hw| | |].
  - intros v K _. exact (@cast_contributors _ _ _ K).
  - intros l. now apply post_ret.
  - pose proof (World_ok_after_lookup RepoCache (contributorsKey owner repo) Hw)
      as Hw0.
    apply post_try, post_bind, post_call.
    + intros e _. unfold ENABLE_UNGH_FALLBACK. cbn [andb].
      apply post_bind, post_ret.
      destruct (isRateLimitError e);
        [apply post_throw|apply post_ret]; now apply World_ok_logged.
    + intros data _. destruct data as [[|c l]|];
        try (apply post_ret; now apply World_ok_logged).
      apply post_bind, post_cache_set, post_ret.
      apply World_ok_stored;
        [now apply World_ok_logged|apply kinded_contributors].
Qed.

Lemma getCommitActivityAlternative_safe owner repo w :
  World_ok w -> safe (getCommitActivityAlternative env owner repo) w.
Proof.
  intros Hw. unfold post. rewrite ActivityLaws.alternative_result.
  now apply World_ok_logged.
Qed.

Lemma activity_handler_safe owner repo error w :
  World_ok w ->
  post (if isRateLimitError error then
          throw (Error "GitHub API rate limit exceeded. Please try again later.")
        else if status_is error 404 then
          throw (Error "Repository not found or you don't have access to it.")
        else
          try_catch
            (l <- getCommitActivityAlternative env owner repo ;;
             ret (inr l))
            (fun _ => ret (inr [])) : M (unit + list CommitActivity))
       w
       (fun r w' => World_ok w' /\ exists l, r = inr l)
       (fun _ w' => World_ok w').
Proof.
  intros Hw.
  destruct (isRateLimitError error); [now apply post_throw|].
  destruct (status_is error 404); [now apply post_throw|].
  apply post_try, post_bind.
  eapply post_weaken; [apply (getCommitActivityAlternative_safe owner repo Hw)| |].
  - intros l w' Hw'. cbv beta. apply post_ret. eauto.
  - intros e w' Hw'. cbv beta. apply post_ret. eauto.
Qed.

Lemma getCommitActivity_safe owner repo (n : nat) :
  forall (retryCount : Z) (w : World),
    (Z.to_nat (3 - retryCount) < n)%nat ->
    World_ok w ->
    safe (getCommitActivity_fuel env n owner repo retryCount) w.
Proof.
  induction n as [|n IH]; intros r w Hn Hw; [lia|].
  cbn [getCommitActivity_fuel]. fold (activityKey owner repo).
  apply post_bind, post_cached; [exact Hw| | |].
  - intros v K _. exact (@ActivityLaws.cast_activity _ _ _ K).
  - intros l. now apply post_ret.
  - set (w0 := after_lookup RepoCache (activityKey owner repo) w).
    assert (Hw0 : World_ok w0) by (now apply World_ok_after_lookup).
    apply post_bind, post_try, post_bind, post_call.
    + intros e _.
      eapply post_weaken;
        [apply activity_handler_safe; now apply World_ok_logged| |trivial].
      intros x w' [Hw' [l ->]]. now apply post_ret.
    + intros response _. set (w1 := logged _ _ w0).
      assert (Hw1 : World_ok w1) by (now apply World_ok_logged).
      destruct (sr_status response =? 202).
      * destruct (r <? 3) eqn:R.
        -- apply Z.ltb_lt in R. apply post_bind, post_sleep, post_ret.
           apply IH; [lia|now apply World_ok_set_clock].
        -- apply post_throw.
           eapply post_weaken; [apply activity_handler_safe; exact Hw1| |trivial].
           intros x w' [Hw' [l ->]]. now apply post_ret.
      * destruct (sr_data response) as [| |[|wk weeks]];
          try (now do 2 apply post_ret).
        apply post_bind, post_cache_set. do 2 apply post_ret.
        apply World_ok_stored; [exact Hw1|apply ActivityLaws.kinded_activity].
Qed.

Lemma getRepoContents_safe owner repo path maxSize retryCount w :
  World_ok w -> safe (getRepoContents env owner repo path maxSize retryCount) w.
Proof.
  intros Hw.
  eapply post_weaken;
    [apply (@FetchSpec.getRepoContents_post env owner repo
              (S (Z.to_nat (2 - retryCount))) path maxSize retryCount w
              (le_n _) Hw)
    |trivial|].
  intros e w' [Hw' _]. exact Hw'.
Qed.

Lemma buildFileTree_safe owner repo path maxDepth currentDepth retryCount w :
  World_ok w ->
  safe (buildFileTree env owner repo path maxDepth currentDepth retryCount) w.
Proof.
  intros Hw.
  eapply post_weaken;
    [apply (@FetchSpec.buildFileTree_post env owner repo
              (treeFuel maxDepth currentDepth retryCount) path maxDepth
              currentDepth retryCount w (le_n _) Hw)
    |trivial|intros ? ? []].
Qed.

Lemma getFileContent_safe owner repo path (n : nat) :
  forall (retryCount : Z) (w : World),
    (Z.to_nat (2 - retryCount) < n)%nat ->
    World_ok w ->
    safe (getFileContent_fuel env n owner repo path retryCount) w.
Proof.
  induction n as [|n IH]; intros r w Hn Hw; [lia|].
  cbn [getFileContent_fuel]. fold (fileKey owner repo path).
  apply post_bind, post_cached; [exact Hw| | |].
  - intros v K _. exact (@cast_file _ _ _ _ K).
  - intros text. now apply post_ret.
  - set (w0 := after_lookup ContentCache (fileKey owner repo path) w).
    assert (Hw0 : World_ok w0) by (now apply World_ok_after_lookup).
    apply post_bind, post_try.
    destruct (shouldSkipPath path); [now do 2 apply post_ret|].
    assert (H : forall e w1,
               World_ok w1 ->
               post
                 (if isRateLimitError e
                  then
                    again <- waitForReset env r ;;
                    (if again then ret (inl tt)
                     else auth <- isAuthenticated ;;
                          throw (Error (fileRateLimited auth)))
                  else if status_is e 404 then ret (inr (fileNotFound path))
                       else ret (inr (fileError e)))
                 w1
                 (fun a w' =>
                    safe match a with
                         | inl _ => getFileContent_fuel env n owner repo path (r + 1)
                         | inr text => ret text
                         end w')
                 (fun _ w' => World_ok w')).
    { intros e w1 Hw1. destruct (isRateLimitError e).
      - apply post_bind.
        eapply post_weaken; [apply (waitForReset_safe r Hw1)| |intros ? ? []].
        intros again w2 [Hw2 Hr]. cbv beta. destruct again.
        + specialize (Hr eq_refl). apply post_ret. apply IH; [lia|exact Hw2].
        + now apply post_bind, post_isAuthenticated, post_throw.
      - destruct (status_is e 404); now do 2 apply post_ret. }
    apply post_bind, post_call.
    + intros e _. apply H. now apply World_ok_logged.
    + intros data _. destruct data as [items|file].
      * apply post_throw. apply H. now apply World_ok_logged.
      * destruct (f_size file >? fileSizeLimit);
          [do 2 apply post_ret; now apply World_ok_logged|].
        destruct (f_content file) as [c|].
        -- apply post_bind, post_cache_set. do 2 apply post_ret.
           apply World_ok_stored;
             [now apply World_ok_logged|apply FetchSpec.kinded_file_content].
        -- apply post_throw. apply H. now apply World_ok_logged.
Qed.

Lemma settles_safe A (m : M A) w :
  safe m w -> exists w', settles (m w) = Some w' /\ World_ok w'.
Proof.
  unfold post, settles. destruct (m w) as [[a|e|] w']; [eauto|eauto|tauto].
Qed.

Lemma step_safe s w :
  World_ok w -> exists w', step env s w = Some w' /\ World_ok w'.
Proof.
  intros Hw. destruct s; cbn [step].
  - eexists. split; [reflexivity|]. now apply World_ok_set_clock.
  - now apply settles_safe, getRateLimit_safe.
  - now apply settles_safe, getRepoDetails_safe.
  - now apply settles_safe, getContributors_safe.
  - apply settles_safe. unfold getCommitActivity.
    apply getCommitActivity_safe; [lia|exact Hw].
  - now apply settles_safe, getRepoContents_safe.
  - now apply settles_safe, buildFileTree_safe.
  - apply settles_safe. unfold getFileContent.
    apply getFileContent_safe; [lia|exact Hw].
Qed.

End Fetchers.

(** X23.  The type assertions on cached values are always justified.  From
    the state in which the module is loaded, through any sequence of calls
    of the fetchers (each awaited before the next, with any arguments,
    against any provider, with any time passing in between), every call
    returns or throws, and each cache holds under every key a value of the
    type that the readers of that key assert: rate-limit snapshots, details,
    contributors, commit activity, listings and trees, and file texts never
    get mixed up. *)
Theorem session_keeps_caches_well_typed :
  forall (env : Env) (steps : list Step) (t : Z) (tok : option string),
    exists w,
      session env steps (initial t tok) = Some w /\
      forall i, NoDup (keys (cache (cache_of i w))) /\
                Forall (fun ke => kinded i (fst ke) (data (snd ke)))
                       (cache (cache_of i w)).
Proof.
  intros env steps t tok.
  assert (H : forall w0, World_ok w0 ->
                         exists w, session env steps w0 = Some w /\ World_ok w).
  { induction steps as [|s steps IH]; intros w0 Hw0; [now exists w0|].
    cbn [session]. destruct (step_safe env s Hw0) as (w1 & -> & Hw1).
    now apply IH. }
  destruct (H (initial t tok) (World_ok_initial t tok)) as (w & S & Hw).
  exists w. split; [exact S|exact Hw].
Qed.

End Safety.
